(* ===== verification/_CoqProject ===== *)
-Q . S2P
Prelude.v
JsValue.v
Promise.v
Path.v
Elevate.v
ElevateProps.v
ElevateInv.v
ElevateFacade.v
ElevatePurge.v
ElevateDormant.v
Session.v
Refinement.v
ModVersion.v
ModVersionProps.v
ModPaths.v
JsString.v
LogLoader.v
SaveGames.v
SaveGamesProps.v
