(* ===== verification/Prelude.v ===== *)
(** * Vortex: a verification development for the elevated symlink activator
      and the utilities shipped beside it

    ** The program

    The repository is a mod manager.  The sources this development is about:

    - [src/src/extensions/symlink_activator_elevate/index.ts]: class
      [ModActivator].  An unprivileged process asks a separate, elevated
      worker process to create and remove symbolic links.  The two talk over
      a node-ipc channel.  The activator keeps three fields: the worker's
      socket ([mElevatedClient]), the array of operations the worker has not
      confirmed yet ([mOutstanding]) and the continuation of a pending stop
      ([mDone]).  Its methods are [prepare], [finalize], [isSupported],
      [linkFile], [unlinkFile], [purgeLinks], [isLink], [startElevated],
      [stopElevated], [finish] and [isGamebryoGame]; [startElevated]
      registers four event handlers (initialised, finished,
      socket.disconnected, log).
    - [src/src/extensions/nexus_integration/util/checkModsVersion.ts]:
      [checkModVersion] and [retrieveModInfo] ask the Nexus server about a
      mod; [findLatestUpdate] follows the chain of file updates,
      [updateFileAttributes], [updateLatestFileAttributes] and
      [updateModAttributes] dispatch what was learnt to the Redux store,
      [errorFromNexus] words an error.
    - [src/src/extensions/mod_management/util/getModPaths.ts]: the
      directories the mods of a game go to.
    - [src/src/extensions/diagnostics_files/util/loadVortexLogs.ts]:
      [loadVortexLogs] reads the log files of the program and cuts them
      into sessions of classified lines.
    - [src/extensions/gamebryo-savegame-management/src/index.ts]: the
      save-game extension.  [updateSaveSettings] rewrites the save path in
      the ini file of the game, [updateSaves] reads the save games of a
      directory into the Redux store, and [init] registers the handlers
      that run both when a profile is activated and keep one file system
      watcher, with a debouncer, on the directory.
    - [src/external/modmeta-db/lib/types.d.ts],
      [src/extensions/nexus-migration-tool/webpack.config.js]: no code to
      model, see below.

    ** The files of the development

    - [Prelude] (this file): what the components share.  References that
      may be undefined or null ([slot]), the two array builtins the
      activator relies on ([indexOf], [splice], with their behaviour on a
      negative index written out), the monad [M] in which stateful code is
      written (state passing; a thrown error keeps the state reached so
      far, as a JavaScript exception does), its laws, a weakest
      precondition calculus ([wp], [preserves]) and the computations that
      never throw ([total]) with the tactics [run_M], [js_cases], [wp_go],
      [preserves_go] and [total_go], lemmas on lists, and the hint
      databases [js] and [js_rw].
    - [JsValue]: untyped values ([jsval]) with [===], truthiness,
      [parseInt] and the array methods [join] and [find].
    - [Promise]: promises as the sources use them.  A store holds the next
      promise id, the settled promises, the reactions registered by [then]
      and the microtask queue; [settle] settles once; [drain] is the
      microtask checkpoint.  Theorems: [drain_terminates] (a potential
      bounds the checkpoint), [drain_preserves] (an invariant of the
      callbacks is an invariant of the checkpoint) and [drain_untouched]
      (a [dormant] set of pending promises, which wait for each other
      only, is settled by the runtime never).  Clients state what they
      need of their world by the class [HasPromises].
    - [Path]: the interface [PathLib] for [path.relative], with a posix
      instance for the examples.
    - [Elevate]: the activator as the source has it.  Module [Activator]
      holds the record of the three fields, the world around it (the
      effects performed so far, the promise store, the callback given to
      [ipc.serve], the registered handlers, the running walks), one
      definition per method, per handler and per promise callback, and
      [react], which runs the handler of one event and then the microtask
      checkpoint.  Module [Run] holds the step relation over events and
      reachability.
    - [ElevateProps]: the behaviour of every method and handler on each
      branch, errors included; the length law of the finished handler; the
      drain theorem (a stop resolves exactly when the last outstanding
      entry is confirmed); and the places where the code departs from the
      specification, each as a theorem.
    - [ElevateInv]: the invariant [Inv] of reachable worlds, its
      preservation by every method, handler and callback, termination of
      the checkpoint after every event, and absence of uncaught exceptions
      along every sequence of events.
    - [ElevateFacade]: [isLink] and [finalize] from the call to the answer:
      the method, the settlement of the promise the environment owes, and
      the callbacks the checkpoint then runs.
    - [ElevatePurge]: [purgeLinks] from the call to the answer, through
      the start of the server, the connection of the worker, the entries
      of the walk and its end ([purgeLinks_settles]).
    - [ElevateDormant]: who can complete a stop that waits.  The promise
      of the stop is held by [mDone] only, so every event but a finished
      message leaves it pending ([stop_needs_finished]), and after a start
      has set [mDone] to null every event does ([restart_loses_stop]).
    - [Session]: the elevation session of the specification: a state in
      Idle, Starting, Active, Draining, Stopped, a set of pending paths and
      an optional drain continuation, with one transition per action.  It
      is written from the specification, not from code.
    - [Refinement]: the simulation relation [R] between sessions and worlds
      and the theorem [refinement_run]: along the calls the protocol
      [allowed] admits, the activator implements the session.  What lies
      outside the protocol is where the sources and the specification
      differ; [duplicate_path_diverges] and the theorems of [ElevateProps]
      show how.
    - [ModVersion]: checkModsVersion.ts, Module [CheckModsVersion].
    - [ModVersionProps]: the update chain as a relation, [findLatestUpdate]
      against it, the depth that suffices, the attributes dispatched on
      each branch of [updateFileAttributes], and the exceptions.
    - [ModPaths]: getModPaths.ts with its two theorems.
    - [JsString]: the string methods the log loader calls ([split],
      [indexOf], [toLowerCase], [substring], [replace]) and the array
      methods [forEach] and [sort], with the lemmas that relate [split],
      [join] and [indexOf].
    - [LogLoader]: loadVortexLogs.ts, Module [LoadVortexLogs].  The
      function is the value its promise is fulfilled with or the error it is
      rejected with; the directory, the files, [path] and the collator are
      the class [Host].  Theorems: the result on a readable directory and
      the exact condition of a rejection, well-formedness of every session,
      the round trip of splitting, what the index test of the inner loop
      drops, and what happens to a log with the line ends of Unix.
    - [SaveGames]: the save-game extension, Module [SaveGames].  A promise
      chain is the pieces of code between two calls into the environment; a
      chain in flight is a [task] of the world and the answer of the
      environment an [event], so the chains of several activations
      interleave as they do in the program.
    - [SaveGamesProps]: the invariant of the reachable worlds (at most one
      watcher is open), the only exception a handler lets escape, one
      lemma per handler that gives the world it leaves, the run of an
      activation from the event to the watcher, and the two runs in which
      the extension works on the wrong profile.

    ** How the model corresponds to the code

    Every method is a computation in [M world].  A promise is a natural
    number taken from the allocator; [new Promise(executor)] runs the
    executor at once and turns an exception of the executor into a rejection
    ([new_promise]).  A [.then] callback is data ([cont]): it is stored
    with its promise and run by the microtask checkpoint when the promise
    has settled.  Calls into node-ipc, into the elevation helper, into the
    logger and into the super class are recorded, in order, as [effect]s of
    the world's trace: the model says which calls the code makes, with
    which arguments and in which order; it does not say what the libraries
    do with them.  Events that reach the code from outside (a method call
    by the deployment algorithm, an ipc event, the completion of an
    external promise, one entry of the directory walk) are the constructors
    of [event].

    In [ModVersion] what is dispatched to the store and what is logged is
    appended to a trace; [checkModVersion] and [retrieveModInfo] are the
    request they make together with the callback that runs on the answer
    ([pending]).  The attributes of a mod are a finite map from strings to
    [jsval], or missing.  The helpers [getSafe] and [truthy] of util/ and
    the library semvish are not among the sources: the first two are
    written after their use, the third is the class [Semvish].

    ** Bounds and fuel

    The code of the activator has no loop of its own.  The microtask
    checkpoint [drain] takes fuel; [react] gives it twice the number of
    registered reactions and queued microtasks, which [react_terminates]
    shows to be enough.  [findLatestUpdate] recurses on a file id that need
    not decrease: the depth of the recursion is its fuel, and running out
    is the RangeError of an exhausted stack.  [updateFileAttributes] calls
    it with one more than the number of update records; by
    [findLatestUpdate_fuel] and [findLatestUpdate_no_end] this depth
    returns whatever any depth returns and fails only on a cycle.  Numbers
    are integers: the sources use them as ids, status codes and lengths;
    the rounding of [parseInt] beyond 2^53 and white space outside ASCII
    are not modelled.  The log loader and the save-game extension have no
    loop but [forEach] and [Promise.each], which are structural; [split]
    passes a matched separator with a counter and needs no fuel.  Strings
    are one character per code unit, exact on ASCII text; the sorting of
    the log files is a stable merge sort, which is what any sort returns
    when the collator orders the names totally.  A chain of the save-game
    extension ends after at most three answers of the environment.

    ** Not modelled

    The worker process ([remoteCode]), the directory walker ([walk]), the
    super class [LinkingActivator], node-ipc, the Nexus api, the Redux
    store and the file system are not in the sources: they appear as
    effects, events and parameters only.  So do, for the save-game
    extension, the session reducer, the actions, util/gameSupport,
    refreshSavegames, parse-ini and the debouncer of nmm-api: the reducer
    is a function of the host, the debouncer an event that may follow a
    call of [schedule], and nothing is assumed of either beyond that.  The
    React view [SavegameList] is passed to registerMainPage and is not
    looked into.  The type declarations of modmeta-db contain no code, and
    the webpack configuration is build data. *)

From stdpp Require Import base list strings.
From Stdlib Require Import ZArith Lia.

#[local] Open Scope Z_scope.

Create HintDb js discriminated.
Create Rewrite HintDb js_rw.

(** ** JavaScript references that may be undefined or null *)

Inductive slot (A : Type) : Type :=
| Undefined
| Null
| Val (a : A).
Arguments Undefined {A}.
Arguments Null {A}.
Arguments Val {A} a.

#[global] Instance slot_eq_dec `{EqDecision A} : EqDecision (slot A).
Proof. solve_decision. Defined.

(** [x !== null] *)
Definition not_null {A} (s : slot A) : bool :=
  match s with Null => false | _ => true end.

(** ** Errors *)

Inductive js_error : Type :=
| TypeError (what : string)
| RangeError (what : string).

#[global] Instance js_error_eq_dec : EqDecision js_error.
Proof. solve_decision. Defined.

(** ** Array builtins *)

(** [l.indexOf(x)]: the first index holding [x], or -1. *)
Definition indexOf `{EqDecision A} (l : list A) (x : A) : Z :=
  match list_find (x =.) l with
  | Some (i, _) => Z.of_nat i
  | None => -1
  end.

(** The start index of [splice], [slice] and the like: a negative index
    counts from the end and is clamped at 0, a positive one at the length. *)
Definition clamp_start (start : Z) (len : nat) : nat :=
  Z.to_nat (if decide (start < 0) then Z.max (Z.of_nat len + start) 0
            else Z.min start (Z.of_nat len)).

(** [l.splice(start, deleteCount)]: the array that is left. *)
Definition splice {A} (start : Z) (deleteCount : nat) (l : list A) : list A :=
  let s := clamp_start start (length l) in
  take s l ++ drop (s + deleteCount) l.

(** Removal of the first occurrence, the reference [splice]-at-[indexOf] is
    compared with. *)
Fixpoint remove_first `{EqDecision A} (x : A) (l : list A) : list A :=
  match l with
  | [] => []
  | y :: l' => if decide (x = y) then l' else y :: remove_first x l'
  end.

(** ** The monad of stateful code that may throw *)

Inductive outcome (W A : Type) : Type :=
| Ret (a : A) (w : W)
| Throw (e : js_error) (w : W).
Arguments Ret {W A} a w.
Arguments Throw {W A} e w.

Definition M (W A : Type) : Type := W → outcome W A.

#[global] Instance M_ret {W} : MRet (M W) := λ A a w, Ret a w.
#[global] Instance M_bind {W} : MBind (M W) := λ A B f m w,
  match m w with
  | Ret a w' => f a w'
  | Throw e w' => Throw e w'
  end.

Definition get {W} : M W W := λ w, Ret w w.
Definition put {W} (w : W) : M W unit := λ _, Ret () w.
Definition modify {W} (f : W → W) : M W unit := λ w, Ret () (f w).
Definition throw {W A} (e : js_error) : M W A := λ w, Throw e w.
(** [try { m } catch (e) { h e }] *)
Definition catch {W A} (m : M W A) (h : js_error → M W A) : M W A := λ w,
  match m w with
  | Ret a w' => Ret a w'
  | Throw e w' => h e w'
  end.

(** The world an outcome ends in, and whether it is a normal return. *)
Definition final {W A} (o : outcome W A) : W :=
  match o with Ret _ w => w | Throw _ w => w end.
Definition returns {W A} (o : outcome W A) : bool :=
  match o with Ret _ _ => true | Throw _ _ => false end.

(** [do m] runs [m] for its state only. *)
Definition exec {W A} (m : M W A) (w : W) : W := final (m w).

(** The weakest precondition of [m]: [Q] holds of the value and the world [m]
    returns, [E] of the error and the world in which it throws. *)
Definition wp {W A} (m : M W A) (Q : A → W → Prop) (E : js_error → W → Prop)
    (w : W) : Prop :=
  match m w with
  | Ret a w' => Q a w'
  | Throw e w' => E e w'
  end.

(** [m] keeps [I], whether it returns or throws. *)
Definition preserves {W A} (I : W → Prop) (m : M W A) : Prop :=
  ∀ w, I w → I (final (m w)).

(** ** Tactics *)

(** Unfold the monad's operations. *)
Ltac run_M :=
  repeat (unfold mbind, mret, M_bind, M_ret, get, put, modify, throw, catch,
          exec, final, returns in *; simpl in *).

(** Case analysis on every [match], [if] and [decide] of the goal. *)
Ltac js_cases :=
  repeat (first [ progress simplify_eq/= | case_decide | case_match ]);
  try done; try lia.

(** ** Lemmas *)

Section monad_laws.
Context {W : Type}.

Lemma M_left_id {A B} (a : A) (f : A → M W B) w : (mret a ≫= f) w = f a w.
Proof. done. Qed.

Lemma M_right_id {A} (m : M W A) w : (m ≫= mret) w = m w.
Proof. run_M. by destruct (m w). Qed.

Lemma M_assoc {A B C} (m : M W A) (f : A → M W B) (g : B → M W C) w :
  ((m ≫= f) ≫= g) w = (m ≫= λ a, f a ≫= g) w.
Proof. run_M. by destruct (m w). Qed.

Lemma throw_bind {A B} e (f : A → M W B) w : (throw e ≫= f) w = Throw e w.
Proof. done. Qed.

Lemma catch_ret {A} (a : A) (h : js_error → M W A) w :
  catch (mret a) h w = Ret a w.
Proof. done. Qed.

Lemma catch_throw {A} e (h : js_error → M W A) w :
  catch (throw e) h w = h e w.
Proof. done. Qed.

End monad_laws.

Section wp_rules.
Context {W : Type}.
Implicit Types (w : W) (E : js_error → W → Prop).

Lemma wp_ret {A} (a : A) (Q : A → W → Prop) E w : wp (mret a) Q E w ↔ Q a w.
Proof. done. Qed.

Lemma wp_bind {A B} (m : M W A) (f : A → M W B) (Q : B → W → Prop) E w :
  wp (m ≫= f) Q E w ↔ wp m (λ a, wp (f a) Q E) E w.
Proof. unfold wp. run_M. by destruct (m w). Qed.

Lemma wp_get (Q : W → W → Prop) E w : wp get Q E w ↔ Q w w.
Proof. done. Qed.

Lemma wp_put w0 (Q : unit → W → Prop) E w : wp (put w0) Q E w ↔ Q () w0.
Proof. done. Qed.

Lemma wp_modify (f : W → W) (Q : unit → W → Prop) E w :
  wp (modify f) Q E w ↔ Q () (f w).
Proof. done. Qed.

Lemma wp_throw {A} e (Q : A → W → Prop) E w : wp (throw e) Q E w ↔ E e w.
Proof. done. Qed.

Lemma wp_catch {A} (m : M W A) h (Q : A → W → Prop) E w :
  wp (catch m h) Q E w ↔ wp m Q (λ e, wp (h e) Q E) w.
Proof. unfold wp, catch. by destruct (m w). Qed.

Lemma wp_mono {A} (m : M W A) (Q Q' : A → W → Prop) E E' w :
  wp m Q E w → (∀ a w', Q a w' → Q' a w') → (∀ e w', E e w' → E' e w') →
  wp m Q' E' w.
Proof. unfold wp. destruct (m w); eauto. Qed.

(** A property of the final world, however the computation ends. *)
Lemma wp_final {A} (m : M W A) (P : W → Prop) w :
  wp m (λ _, P) (λ _, P) w ↔ P (final (m w)).
Proof. unfold wp, final. by destruct (m w). Qed.

(** What the computation returns. *)
Lemma wp_Ret {A} (m : M W A) (Q : A → W → Prop) w :
  wp m Q (λ _ _, False) w ↔ ∃ a w', m w = Ret a w' ∧ Q a w'.
Proof.
  unfold wp. destruct (m w) as [a w'|e w'].
  - split; [by eauto|]. by intros (? & ? & [= <- <-] & ?).
  - split; [done|]. by intros (? & ? & [=] & ?).
Qed.

Lemma wp_Throw {A} (m : M W A) E w :
  wp m (λ _ _, False) E w ↔ ∃ e w', m w = Throw e w' ∧ E e w'.
Proof.
  unfold wp. destruct (m w) as [a w'|e w'].
  - split; [done|]. by intros (? & ? & [=] & ?).
  - split; [by eauto|]. by intros (? & ? & [= <- <-] & ?).
Qed.

Lemma preserves_wp {A} (I : W → Prop) (m : M W A) :
  preserves I m ↔ ∀ w, I w → wp m (λ _, I) (λ _, I) w.
Proof. unfold preserves. by setoid_rewrite wp_final. Qed.

Lemma preserves_ret {A} (I : W → Prop) (a : A) : preserves I (mret a).
Proof. by intros w. Qed.

Lemma preserves_bind {A B} (I : W → Prop) (m : M W A) (f : A → M W B) :
  preserves I m → (∀ a, preserves I (f a)) → preserves I (m ≫= f).
Proof.
  intros Hm Hf w Hw. specialize (Hm w Hw). run_M.
  destruct (m w) as [a w'|e w']; [by apply Hf|done].
Qed.

Lemma preserves_then {A B} (I : W → Prop) (m : M W A) (k : M W B) :
  preserves I m → preserves I k → preserves I (m ;; k).
Proof. intros. by apply preserves_bind. Qed.

Lemma preserves_get (I : W → Prop) : preserves I get.
Proof. by intros w. Qed.

Lemma preserves_modify (I : W → Prop) (f : W → W) :
  (∀ w, I w → I (f w)) → preserves I (modify f).
Proof. intros Hf w. apply Hf. Qed.

Lemma preserves_throw {A} (I : W → Prop) e : preserves I (throw (A:=A) e).
Proof. by intros w. Qed.

Lemma preserves_catch {A} (I : W → Prop) (m : M W A) h :
  preserves I m → (∀ e, preserves I (h e)) → preserves I (catch m h).
Proof.
  intros Hm Hh w Hw. specialize (Hm w Hw). unfold catch, final in *.
  destruct (m w) as [a w'|e w']; [done|]. by apply Hh.
Qed.

(** A computation read off the current world keeps [I] when each of the
    computations it may be keeps it. *)
Lemma preserves_get_bind {A} (I : W → Prop) (f : W → M W A) :
  (∀ w0, I w0 → preserves I (f w0)) → preserves I (get ≫= f).
Proof. intros Hf w Hw. by apply (Hf w). Qed.

End wp_rules.

(** One rule of the weakest precondition calculus, by the head of the
    computation. *)
Ltac wp_step :=
  lazymatch goal with
  | |- wp (mbind _ _) _ _ _ => apply wp_bind
  | |- wp (mret _) _ _ _ => apply wp_ret
  | |- wp get _ _ _ => apply wp_get
  | |- wp (put _) _ _ _ => apply wp_put
  | |- wp (modify _) _ _ _ => apply wp_modify
  | |- wp (throw _) _ _ _ => apply wp_throw
  | |- wp (catch _ _) _ _ _ => apply wp_catch
  | |- wp (match ?x with _ => _ end) _ _ _ => destruct x eqn:?
  | |- wp (if ?b then _ else _) _ _ _ => destruct b eqn:?
  end.
Ltac wp_go := repeat (wp_step; simpl).

(** The same for [preserves]: what is left are the updates of the world. *)
Ltac preserves_step :=
  lazymatch goal with
  | |- preserves _ (mbind _ _) => apply preserves_bind; [|intros ?]
  | |- preserves _ (mret _) => apply preserves_ret
  | |- preserves _ get => apply preserves_get
  | |- preserves _ (modify _) => apply preserves_modify
  | |- preserves _ (throw _) => apply preserves_throw
  | |- preserves _ (catch _ _) => apply preserves_catch; [|intros ?]
  | |- preserves _ (match ?x with _ => _ end) => destruct x
  | |- preserves _ (if ?b then _ else _) => destruct b
  end.
Ltac preserves_go := repeat (preserves_step; simpl).

(** ** Computations that never throw *)

Definition total {W A} (m : M W A) : Prop := ∀ w, returns (m w) = true.

Section total_rules.
Context {W : Type}.

Lemma total_Ret {A} (m : M W A) w : total m → ∃ a w', m w = Ret a w'.
Proof. intros Hm. specialize (Hm w). destruct (m w); [by eauto|done]. Qed.

Lemma total_ret {A} (a : A) : total (mret (M:=M W) a).
Proof. by intros w. Qed.

Lemma total_bind {A B} (m : M W A) (f : A → M W B) :
  total m → (∀ a, total (f a)) → total (m ≫= f).
Proof.
  intros Hm Hf w. specialize (Hm w). unfold mbind, M_bind.
  destruct (m w) as [a w'|]; [apply Hf|done].
Qed.

Lemma total_get : total (get (W:=W)).
Proof. by intros w. Qed.

Lemma total_modify (f : W → W) : total (modify f).
Proof. by intros w. Qed.

(** A handler that never throws makes the whole [try] total. *)
Lemma total_catch {A} (m : M W A) h : (∀ e, total (h e)) → total (catch m h).
Proof. intros Hh w. unfold catch. destruct (m w) as [|e w']; [done|apply Hh]. Qed.

End total_rules.

Ltac total_step :=
  lazymatch goal with
  | |- total (mbind _ _) => apply total_bind; [|intros ?]
  | |- total (mret _) => apply total_ret
  | |- total get => apply total_get
  | |- total (modify _) => apply total_modify
  | |- total (catch _ _) => apply total_catch; intros ?
  | |- total (match ?x with _ => _ end) => destruct x
  | |- total (if ?b then _ else _) => destruct b
  end.
Ltac total_go := repeat (total_step; simpl).

Section arrays.
Context `{EqDecision A}.
Implicit Types (l : list A) (x : A).

Lemma indexOf_nil x : indexOf [] x = -1.
Proof. done. Qed.

Lemma indexOf_cons_eq x l : indexOf (x :: l) x = 0.
Proof. unfold indexOf. simpl. by rewrite decide_True. Qed.

Lemma indexOf_cons_ne x y l :
  x ≠ y → indexOf (y :: l) x = if decide (indexOf l x = -1) then -1 else indexOf l x + 1.
Proof.
  intros Hne. unfold indexOf. simpl. rewrite decide_False by done.
  destruct (list_find _ l) as [[i z]|]; simpl; js_cases.
Qed.

(** [indexOf] is -1 exactly when the element is absent. *)
Lemma indexOf_absent l x : indexOf l x = -1 ↔ x ∉ l.
Proof.
  unfold indexOf. destruct (list_find _ l) as [[i y]|] eqn:Hf.
  - apply list_find_Some in Hf as (Hi & -> & _). split; [lia|].
    intros []. by eapply list_elem_of_lookup_2.
  - rewrite list_find_None, Forall_forall in Hf. split; [|done].
    intros _ Hin. by eapply Hf.
Qed.

Lemma indexOf_bounds l x : -1 ≤ indexOf l x < Z.of_nat (length l).
Proof.
  unfold indexOf. destruct (list_find _ l) as [[i y]|] eqn:Hf; [|lia].
  apply list_find_Some in Hf as (Hi%lookup_lt_Some & _). lia.
Qed.

Lemma indexOf_present l x : x ∈ l → 0 ≤ indexOf l x.
Proof.
  intros Hin. pose proof (indexOf_bounds l x).
  destruct (decide (indexOf l x = -1)) as [H0%indexOf_absent|]; [done|lia].
Qed.

Lemma clamp_start_le start len : (clamp_start start len ≤ len)%nat.
Proof. unfold clamp_start. case_decide; lia. Qed.

Lemma clamp_start_nonneg (i len : nat) :
  (i ≤ len)%nat → clamp_start (Z.of_nat i) len = i.
Proof. unfold clamp_start. case_decide; lia. Qed.

Lemma clamp_start_minus_one len : clamp_start (-1) len = pred len.
Proof. unfold clamp_start. case_decide; lia. Qed.

Lemma length_splice start n l :
  length (splice start n l) = (length l - min n (length l - clamp_start start (length l)))%nat.
Proof.
  unfold splice. pose proof (clamp_start_le start (length l)).
  rewrite length_app, length_take, length_drop. lia.
Qed.

(** Removing one element at any index of a non-empty array shortens it by
    exactly one, whether the index is -1 or in range. *)
Lemma length_splice_one start l :
  -1 ≤ start < Z.of_nat (length l) → length (splice start 1 l) = pred (length l).
Proof.
  intros Hs. rewrite length_splice. unfold clamp_start. case_decide; lia.
Qed.

Lemma splice_nil start n : splice start n (@nil A) = [].
Proof. unfold splice. by rewrite take_nil, drop_nil. Qed.

(** With index -1 [splice] removes the last element. *)
Lemma splice_minus_one l : splice (-1) 1 l = removelast l.
Proof.
  unfold splice. rewrite clamp_start_minus_one.
  destruct l as [|a l] using rev_ind; [done|].
  rewrite removelast_last, length_app. simpl.
  replace (pred (length l + 1))%nat with (length l) by lia.
  rewrite take_app_length, drop_ge by (rewrite length_app; simpl; lia).
  by rewrite app_nil_r.
Qed.

Lemma splice_zero x l : splice 0 1 (x :: l) = l.
Proof. done. Qed.

Lemma splice_succ (i : nat) x l :
  (i < length l)%nat →
  splice (Z.of_nat (S i)) 1 (x :: l) = x :: splice (Z.of_nat i) 1 l.
Proof.
  intros Hi. unfold splice. simpl length.
  rewrite !clamp_start_nonneg by lia. done.
Qed.

(** [l.splice(l.indexOf(x), 1)] removes the first occurrence of a present
    element. *)
Lemma splice_indexOf_present l x :
  x ∈ l → splice (indexOf l x) 1 l = remove_first x l.
Proof.
  induction l as [|y l IH]; [by intros ?%elem_of_nil|].
  intros Hin. simpl. case_decide as Hxy.
  - subst. by rewrite indexOf_cons_eq.
  - apply elem_of_cons in Hin as [?|Hin]; [done|].
    rewrite indexOf_cons_ne by done.
    pose proof (indexOf_bounds l x). pose proof (indexOf_present l x Hin).
    rewrite decide_False by lia.
    replace (indexOf l x + 1) with (Z.of_nat (S (Z.to_nat (indexOf l x)))) by lia.
    rewrite splice_succ by lia. rewrite Z2Nat.id by lia. by rewrite IH.
Qed.

(** [l.splice(l.indexOf(x), 1)] removes the last element when [x] is absent. *)
Lemma splice_indexOf_absent l x :
  x ∉ l → splice (indexOf l x) 1 l = removelast l.
Proof. intros ->%indexOf_absent. apply splice_minus_one. Qed.

Lemma length_splice_indexOf l x :
  length (splice (indexOf l x) 1 l) = pred (length l).
Proof.
  destruct l as [|y l]; [by rewrite splice_nil|].
  apply length_splice_one. apply indexOf_bounds.
Qed.

Lemma remove_first_Permutation l x : x ∈ l → l ≡ₚ x :: remove_first x l.
Proof.
  induction l as [|y l IH]; [by intros ?%elem_of_nil|].
  intros Hin. simpl. case_decide as Hxy; [by subst|].
  apply elem_of_cons in Hin as [?|Hin]; [done|].
  rewrite (IH Hin) at 1. apply Permutation_swap.
Qed.

Lemma remove_first_absent l x : x ∉ l → remove_first x l = l.
Proof.
  induction l as [|y l IH]; [done|].
  intros [? ?]%not_elem_of_cons. simpl. rewrite decide_False by done.
  by rewrite IH.
Qed.

Lemma remove_first_NoDup l x : NoDup l → x ∉ remove_first x l.
Proof.
  induction 1 as [|y l Hy Hl IH]; simpl; [apply not_elem_of_nil|].
  case_decide; [by subst|]. rewrite not_elem_of_cons. done.
Qed.

Lemma elem_of_remove_first l x y : y ∈ remove_first x l → y ∈ l.
Proof.
  induction l as [|z l IH]; simpl; [done|].
  case_decide; rewrite !elem_of_cons; intuition.
Qed.

Lemma elem_of_remove_first_ne l x y : x ≠ y → y ∈ l → y ∈ remove_first x l.
Proof.
  intros Hne. induction l as [|z l IH]; simpl; [done|].
  case_decide; rewrite !elem_of_cons; intuition congruence.
Qed.

Lemma remove_first_NoDup_pres l x : NoDup l → NoDup (remove_first x l).
Proof.
  induction 1 as [|y l Hy Hl IH]; simpl; [constructor|].
  case_decide; [done|]. constructor; [|done].
  intros ?%elem_of_remove_first. done.
Qed.

End arrays.

Section filters.
Context {A : Type} (P : A → Prop) `{!∀ x, Decision (P x)}.

Lemma filter_filter_complement (l : list A) :
  filter P (filter (λ x, ¬ P x) l) = [].
Proof.
  induction l as [|x l IH]; [done|].
  rewrite (filter_cons (λ x, ¬ P x)). case_decide; [|done].
  by rewrite filter_cons_False.
Qed.

Lemma length_filter_split (l : list A) :
  (length (filter P l) + length (filter (λ x, ¬ P x) l) = length l)%nat.
Proof.
  induction l as [|x l IH]; [done|].
  rewrite !filter_cons. repeat case_decide; simpl; try done; lia.
Qed.

Lemma Forall_filter (Q : A → Prop) (l : list A) :
  Forall Q l → Forall Q (filter P l).
Proof.
  rewrite !Forall_forall. intros HQ x [_ Hx]%list_elem_of_filter. by apply HQ.
Qed.

Lemma filter_none (l : list A) : Forall (λ x, ¬ P x) l → filter P l = [].
Proof.
  induction 1 as [|x l Hx _ IH]; [done|]. by rewrite filter_cons_False.
Qed.

Lemma filter_all (l : list A) : Forall P l → filter P l = l.
Proof.
  induction 1 as [|x l Hx _ IH]; [done|]. by rewrite filter_cons_True, IH.
Qed.

End filters.

Lemma sum_list_with_le {A} (f : A → nat) (n : nat) (l : list A) :
  (∀ a, f a ≤ n)%nat → (sum_list_with f l ≤ n * length l)%nat.
Proof.
  intros Hf. induction l as [|a l IH]; simpl; [lia|].
  specialize (Hf a). lia.
Qed.

(** [List.filter] with a weaker test keeps more, and strictly more when an
    element tells the tests apart. *)
Lemma filter_length_le {A} (P Q : A → bool) (l : list A) :
  (∀ y, P y = true → Q y = true) →
  (length (List.filter P l) ≤ length (List.filter Q l))%nat.
Proof.
  intros HPQ. induction l as [|y l IH]; simpl; [done|].
  destruct (P y) eqn:HP; [rewrite (HPQ y HP); simpl; lia|].
  destruct (Q y); simpl; lia.
Qed.

Lemma filter_length_lt {A} (P Q : A → bool) (l : list A) (x : A) :
  (∀ y, P y = true → Q y = true) → x ∈ l → Q x = true → P x = false →
  (length (List.filter P l) < length (List.filter Q l))%nat.
Proof.
  intros HPQ Hx HQ HP. induction l as [|y l IH]; [by apply elem_of_nil in Hx|].
  pose proof (filter_length_le P Q l HPQ) as Hle.
  apply elem_of_cons in Hx as [<-|Hx]; simpl.
  - rewrite HQ, HP. simpl. lia.
  - specialize (IH Hx). destruct (P y) eqn:HPy; [rewrite (HPQ y HPy); simpl; lia|].
    destruct (Q y); simpl; lia.
Qed.

#[export] Hint Resolve indexOf_bounds indexOf_present clamp_start_le : js.
#[export] Hint Rewrite @length_splice_indexOf @splice_nil : js_rw.
