(* ===== verification/JsValue.v ===== *)
(** * JsValue: the untyped values of the sources

    What the TypeScript sources declare [any], or read out of the Redux
    state, is a [jsval].  This file holds the operators the sources apply
    to such values: [===], truthiness ([!!v], the helper [truthy] of
    util/util), [parseInt(v, 10)], [Array.prototype.join] and
    [Array.prototype.find] with a predicate that may throw.  Numbers are
    integers ([Z]): the sources use them as identifiers, status codes and
    time stamps only. *)

From stdpp Require Import base list strings.
From Stdlib Require Import Ascii ZArith Lia.
From S2P Require Import Prelude.

#[local] Open Scope Z_scope.

#[warnings="-register-all"] Inductive jsval : Type :=
| JUndefined
| JNull
| JBool (b : bool)
| JNum (n : Z)
| JStr (s : string)
| JObj (fields : list (string * jsval)).

(** [a === b].  An object is equal to itself only; no comparison of the
    sources has the same object on both sides, so objects compare false. *)
Definition strict_eq (a b : jsval) : bool :=
  match a, b with
  | JUndefined, JUndefined | JNull, JNull => true
  | JBool x, JBool y => bool_decide (x = y)
  | JNum x, JNum y => bool_decide (x = y)
  | JStr x, JStr y => bool_decide (x = y)
  | _, _ => false
  end.

(** [!!v] *)
Definition truthy (v : jsval) : bool :=
  match v with
  | JUndefined | JNull => false
  | JBool b => b
  | JNum n => negb (bool_decide (n = 0))
  | JStr s => negb (bool_decide (s = EmptyString))
  | JObj _ => true
  end.

(** A field that holds a string, [null] or [undefined], as a value. *)
Definition of_slot (x : slot string) : jsval :=
  match x with
  | Undefined => JUndefined
  | Null => JNull
  | Val s => JStr s
  end.

(** [a || b] *)
Definition js_or (a b : jsval) : jsval := if truthy a then a else b.

(** ** parseInt *)

(** The white space [parseInt] skips, as far as it is ASCII. *)
Definition is_space (a : ascii) : bool :=
  let n := Z.of_nat (nat_of_ascii a) in
  bool_decide (n = 32) || bool_decide (9 ≤ n ≤ 13).

Fixpoint skip_space (s : string) : string :=
  match s with
  | String a s' => if is_space a then skip_space s' else s
  | EmptyString => s
  end.

Definition digit_of (a : ascii) : option Z :=
  let n := Z.of_nat (nat_of_ascii a) in
  if bool_decide (48 ≤ n ≤ 57) then Some (n - 48) else None.

(** The value of the longest prefix of decimal digits; [acc] is the value
    of the digits read so far, [None] when there is none yet. *)
Fixpoint digits (acc : option Z) (s : string) : option Z :=
  match s with
  | String a s' =>
      match digit_of a with
      | Some d => digits (Some (10 * default 0 acc + d)) s'
      | None => acc
      end
  | EmptyString => acc
  end.

(** [parseInt(s, 10)] of a string; [None] is [NaN]. *)
Definition parse_int (s : string) : option Z :=
  match skip_space s with
  | String "-" s' => Z.opp <$> digits None s'
  | String "+" s' => digits None s'
  | s' => digits None s'
  end.

(** [parseInt(v, 10)]: [v] is converted to a string first.  The string of
    an integer parses to that integer; [undefined], [null], [true],
    [false] and [[object Object]] start with no digit. *)
Definition parseInt10 (v : jsval) : option Z :=
  match v with
  | JNum n => Some n
  | JStr s => parse_int s
  | JUndefined | JNull | JBool _ | JObj _ => None
  end.

(** [v.length]: [None] when reading the property throws a TypeError. *)
Definition get_length (v : jsval) : option jsval :=
  match v with
  | JUndefined | JNull => None
  | JStr s => Some (JNum (Z.of_nat (String.length s)))
  | JObj fields =>
      Some (default JUndefined (snd <$> find (λ kv, bool_decide (kv.1 = "length")) fields))
  | JBool _ | JNum _ => Some JUndefined
  end.

(** ** Arrays *)

(** [l.join(sep)] of an array of strings, [null]s and [undefined]s: the
    last two are joined as the empty string. *)
Definition join (sep : string) (l : list (slot string)) : string :=
  String.concat sep ((λ x, match x with Val s => s | _ => EmptyString end) <$> l).

(** [l.find(f)] where [f] may throw: [None] when a call of [f] throws
    before an element is found. *)
Fixpoint find_throwing {A} (f : A → option bool) (l : list A) : option (option A) :=
  match l with
  | [] => Some None
  | x :: l' =>
      match f x with
      | Some true => Some (Some x)
      | Some false => find_throwing f l'
      | None => None
      end
  end.

(** ** Lemmas *)

Lemma strict_eq_true a b : strict_eq a b = true → a = b.
Proof.
  destruct a, b; simpl; try done; intros ?%bool_decide_eq_true; by subst.
Qed.

Lemma strict_eq_sym a b : strict_eq a b = strict_eq b a.
Proof.
  destruct a, b; simpl; try done; apply bool_decide_ext; naive_solver.
Qed.

Lemma strict_eq_num n v : strict_eq (JNum n) v = true ↔ v = JNum n.
Proof.
  split; [by intros ->%strict_eq_true|intros ->; simpl; by apply bool_decide_eq_true].
Qed.

Lemma strict_eq_num_num n m : strict_eq (JNum n) (JNum m) = bool_decide (n = m).
Proof. done. Qed.

Lemma strict_eq_undefined_num n : strict_eq (JNum n) JUndefined = false.
Proof. done. Qed.

Lemma truthy_of_slot x :
  truthy (of_slot x) = true ↔ ∃ s, x = Val s ∧ s ≠ EmptyString.
Proof.
  destruct x as [| |s]; simpl; [naive_solver..|].
  rewrite negb_true_iff, bool_decide_eq_false. naive_solver.
Qed.

Lemma js_or_truthy a b : truthy a = true → js_or a b = a.
Proof. unfold js_or. by intros ->. Qed.

Lemma js_or_falsy a b : truthy a = false → js_or a b = b.
Proof. unfold js_or. by intros ->. Qed.

Lemma parseInt10_None_undefined : parseInt10 JUndefined = None.
Proof. done. Qed.

(** A predicate that does not throw: [find_throwing] is [find]. *)
Lemma find_throwing_total {A} (f : A → bool) l :
  find_throwing (λ x, Some (f x)) l = Some (find f l).
Proof. induction l as [|x l IH]; simpl; [done|]. by destruct (f x). Qed.

Lemma find_throwing_Some {A} (f : A → option bool) l x :
  find_throwing f l = Some (Some x) → x ∈ l ∧ f x = Some true.
Proof.
  induction l as [|y l IH]; simpl; [done|].
  destruct (f y) as [[]|] eqn:Hy; [| |done].
  - intros [= <-]. split; [left|done].
  - intros [? ?]%IH. split; [by right|done].
Qed.

Lemma prefix_app (s1 s2 : string) : String.prefix s1 (s1 +:+ s2) = true.
Proof.
  induction s1 as [|a s1 IH]; simpl; [by destruct s2|].
  destruct (Ascii.ascii_dec a a); [done|congruence].
Qed.

Lemma join_nil sep : join sep [] = EmptyString.
Proof. done. Qed.

Lemma join_singleton sep s : join sep [Val s] = s.
Proof. done. Qed.

#[export] Hint Rewrite strict_eq_num_num @find_throwing_total : js_rw.
