(* ===== verification/Promise.v ===== *)
(** * Promise: the promise runtime the sources are written against

    The sources create promises ([new Promise(executor)]), chain them
    ([.then], [.catch]) and receive promises from external code
    ([super.prepare], [walk], [fs.readlinkAsync]).  The promise library is
    not part of the sources; this file models its contract: a promise is
    settled at most once, a reaction registered with [then] runs as a
    microtask after the promise settles, in registration order, and the
    promise derived by [then] follows what the callback returns.

    Callbacks are data of a type [K] the client chooses; the client says how
    a callback runs ([run]).  The runtime reaches its store through the
    class [HasPromises], so that it works in any world that holds one. *)

From stdpp Require Import base list strings gmap.
From Stdlib Require Import ZArith Lia.
From S2P Require Import Prelude.

#[local] Open Scope nat_scope.

Module Promise.

Definition promise := nat.

(** The values promises of the sources are fulfilled with. *)
Inductive value : Type :=
| VUndefined
| VBool (b : bool)
| VString (s : string).

Inductive settlement : Type :=
| Fulfilled (v : value)
| Rejected (e : js_error).

(** What a callback returns: a value, or a promise to follow. *)
Inductive result : Type :=
| RValue (v : value)
| RPromise (p : promise).

#[global] Instance value_eq_dec : EqDecision value.
Proof. solve_decision. Defined.
#[global] Instance settlement_eq_dec : EqDecision settlement.
Proof. solve_decision. Defined.

(** A reaction: the callbacks given to [then] and the promise [then]
    returned.  A missing callback passes the settlement through. *)
Record reaction (K : Type) : Type := Reaction {
  on_fulfilled : option K;
  on_rejected : option K;
  derived : promise;
}.
Arguments Reaction {K} _ _ _.
Arguments on_fulfilled {K} _.
Arguments on_rejected {K} _.
Arguments derived {K} _.

Record store (K : Type) : Type := Store {
  next_id : promise;
  settled : gmap promise settlement;
  reactions : list (promise * reaction K);
  microtasks : list (reaction K * settlement);
}.
Arguments Store {K} _ _ _ _.
Arguments next_id {K} _.
Arguments settled {K} _.
Arguments reactions {K} _.
Arguments microtasks {K} _.

Definition empty_store {K} : store K := Store 0 ∅ [] [].

(** A world that holds a promise store. *)
Class HasPromises (K W : Type) : Type := {
  promises : W → store K;
  set_promises : store K → W → W;
  promises_set s w : promises (set_promises s w) = s;
  set_promises_set s s' w : set_promises s (set_promises s' w) = set_promises s w;
  set_promises_get w : set_promises (promises w) w = w;
}.

Section runtime.
Context {K W : Type} `{!HasPromises K W}.

Definition with_store (f : store K → store K) : M W unit :=
  modify (λ w, set_promises (f (promises w)) w).

(** A promise nobody holds yet. *)
Definition bump (s : store K) : store K :=
  Store (S (next_id s)) (settled s) (reactions s) (microtasks s).
Definition fresh : M W promise :=
  w ← get;
  with_store bump;;
  mret (next_id (promises w)).

Definition is_pending (p : promise) (s : store K) : bool :=
  bool_decide (settled s !! p = None).

(** The reactions registered on [p], in registration order, and the rest. *)
Definition reactions_on (p : promise) (s : store K) : list (reaction K) :=
  snd <$> filter (λ pr, pr.1 = p) (reactions s).
Definition reactions_off (p : promise) (s : store K) : list (promise * reaction K) :=
  filter (λ pr, pr.1 ≠ p) (reactions s).

(** Settling: a pending promise takes the settlement and its reactions
    become microtasks; a settled promise stays as it is. *)
Definition settle_store (p : promise) (x : settlement) (s : store K) : store K :=
  if is_pending p s then
    Store (next_id s) (<[p := x]> (settled s)) (reactions_off p s)
          (microtasks s ++ ((λ r, (r, x)) <$> reactions_on p s))
  else s.
Definition settle (p : promise) (x : settlement) : M W unit :=
  with_store (settle_store p x).

Definition resolve (p : promise) (v : value) : M W unit := settle p (Fulfilled v).
Definition reject (p : promise) (e : js_error) : M W unit := settle p (Rejected e).

(** Registering a reaction: at once a microtask when the promise is settled. *)
Definition register_store (p : promise) (r : reaction K) (s : store K) : store K :=
  match settled s !! p with
  | Some x => Store (next_id s) (settled s) (reactions s) (microtasks s ++ [(r, x)])
  | None => Store (next_id s) (settled s) (reactions s ++ [(p, r)]) (microtasks s)
  end.

(** [p.then(onF, onR)] *)
Definition then_ (p : promise) (onF onR : option K) : M W promise :=
  d ← fresh;
  with_store (register_store p (Reaction onF onR d));;
  mret d.

(** [d] follows [p]. *)
Definition adopt (p d : promise) : M W unit :=
  with_store (register_store p (Reaction None None d)).

(** [new Promise(executor)]: the executor runs at once; what it throws
    rejects the promise. *)
Definition new_promise (executor : promise → M W unit) : M W promise :=
  p ← fresh;
  catch (executor p) (reject p);;
  mret p.

(** [Promise.resolve(v)] *)
Definition resolved (v : value) : M W promise :=
  p ← fresh; resolve p v;; mret p.

(** The work that waits in a store: a reaction with a callback counts
    twice, because its callback may leave one reaction behind. *)
Definition weight (r : reaction K) : nat :=
  match on_fulfilled r, on_rejected r with
  | None, None => 1
  | _, _ => 2
  end.
Definition potential (s : store K) : nat :=
  sum_list_with (λ pr, weight pr.2) (reactions s) +
  sum_list_with (λ rx, weight rx.1) (microtasks s).

(** Every promise the store knows has been allocated. *)
Record store_wf (s : store K) : Prop := {
  wf_settled : ∀ p x, settled s !! p = Some x → p < next_id s;
  wf_reactions :
    Forall (λ pr, pr.1 < next_id s ∧ derived pr.2 < next_id s) (reactions s);
  wf_microtasks : Forall (λ rx, derived rx.1 < next_id s) (microtasks s);
}.

(** A set of pending promises that wait for each other only: a waiting
    reaction derives one of them only when it is registered on one of them,
    and no queued reaction derives one.  The runtime settles none of them;
    only code that holds one of them can. *)
Definition dormant (D : gset promise) (s : store K) : Prop :=
  set_Forall (λ p : promise, settled s !! p = None ∧ p < next_id s) D ∧
  Forall (λ pr, derived pr.2 ∈ D → pr.1 ∈ D) (reactions s) ∧
  Forall (λ rx, derived rx.1 ∉ D) (microtasks s).

Section drain.
(** How the client's callbacks run on a settlement. *)
Variable run : K → settlement → M W result.

Definition callback_of (r : reaction K) (x : settlement) : option K :=
  match x with
  | Fulfilled _ => on_fulfilled r
  | Rejected _ => on_rejected r
  end.

(** One microtask. *)
Definition run_reaction (r : reaction K) (x : settlement) : M W unit :=
  match callback_of r x with
  | None => settle (derived r) x
  | Some k =>
      catch (res ← run k x;
             match res with
             | RValue v => resolve (derived r) v
             | RPromise p => adopt p (derived r)
             end)
            (reject (derived r))
  end.

Definition pop_microtask (s : store K) : store K :=
  Store (next_id s) (settled s) (reactions s) (tail (microtasks s)).

(** The microtask checkpoint: run microtasks until none is left.  The
    result says whether the queue was emptied within the fuel. *)
Fixpoint drain (fuel : nat) : M W bool := λ w,
  match microtasks (promises w) with
  | [] => Ret true w
  | (r, x) :: _ =>
      match fuel with
      | 0 => Ret false w
      | S fuel' => (with_store pop_microtask;; run_reaction r x;; drain fuel') w
      end
  end.

End drain.
End runtime.

(** ** Lemmas *)

Section store_lemmas.
Context {K : Type}.
Implicit Types (s : store K) (p q : promise) (x y : settlement).

Lemma settle_store_pending p x s :
  settled s !! p = None → settled (settle_store p x s) !! p = Some x.
Proof.
  intros Hp. unfold settle_store, is_pending.
  rewrite bool_decide_eq_true_2 by done. simpl. apply lookup_insert_eq.
Qed.

(** A settled promise keeps its settlement. *)
Lemma settle_store_settled p x y s :
  settled s !! p = Some y → settle_store p x s = s.
Proof.
  intros Hp. unfold settle_store, is_pending.
  rewrite bool_decide_eq_false_2 by congruence. done.
Qed.

Lemma settle_store_other p q x s :
  p ≠ q → settled (settle_store p x s) !! q = settled s !! q.
Proof.
  intros Hne. unfold settle_store. case_match; [|done]. simpl.
  by rewrite lookup_insert_ne.
Qed.

(** Settlements are never lost or changed. *)
Lemma settle_store_mono p q x y s :
  settled s !! q = Some y → settled (settle_store p x s) !! q = Some y.
Proof.
  intros Hq. destruct (decide (p = q)) as [->|Hne].
  - by erewrite settle_store_settled.
  - by rewrite settle_store_other.
Qed.

Lemma settle_store_idem p x y s :
  settle_store p y (settle_store p x s) = settle_store p x s.
Proof.
  destruct (settled s !! p) as [z|] eqn:Hp.
  - by rewrite !(settle_store_settled p _ z s Hp).
  - apply (settle_store_settled p y x). by apply settle_store_pending.
Qed.

Lemma settle_store_next p x s : next_id (settle_store p x s) = next_id s.
Proof. unfold settle_store. by case_match. Qed.

(** No reaction stays registered on a promise once it is settled. *)
Lemma settle_store_reactions_on p x s :
  settled s !! p = None → reactions_on p (settle_store p x s) = [].
Proof.
  intros Hp. unfold settle_store, is_pending.
  rewrite bool_decide_eq_true_2 by done.
  unfold reactions_on, reactions_off. simpl.
  by rewrite (filter_filter_complement (λ pr, pr.1 = p)).
Qed.

(** Settling moves reactions to the queue and loses none. *)
Lemma settle_store_count p x s :
  length (reactions (settle_store p x s)) + length (microtasks (settle_store p x s))
  = length (reactions s) + length (microtasks s).
Proof.
  unfold settle_store. case_match; [|done]. simpl.
  unfold reactions_on, reactions_off.
  rewrite length_app, !length_fmap.
  pose proof (length_filter_split (λ pr : promise * reaction K, pr.1 = p) (reactions s)).
  lia.
Qed.

Lemma register_store_settled p r s :
  settled (register_store p r s) = settled s.
Proof. unfold register_store. by case_match. Qed.

Lemma register_store_next p r s : next_id (register_store p r s) = next_id s.
Proof. unfold register_store. by case_match. Qed.

Lemma register_store_count p r s :
  length (reactions (register_store p r s)) + length (microtasks (register_store p r s))
  = S (length (reactions s) + length (microtasks s)).
Proof. unfold register_store. case_match; simpl; rewrite length_app; simpl; lia. Qed.

Lemma weight_bounds (r : reaction K) : 1 ≤ weight r ≤ 2.
Proof. unfold weight. repeat case_match; lia. Qed.

Lemma potential_le s :
  potential s ≤ 2 * (length (reactions s) + length (microtasks s)).
Proof.
  unfold potential.
  pose proof (sum_list_with_le (λ pr : promise * reaction K, weight pr.2) 2
                (reactions s) (λ pr, proj2 (weight_bounds pr.2))).
  pose proof (sum_list_with_le (λ rx : reaction K * settlement, weight rx.1) 2
                (microtasks s) (λ rx, proj2 (weight_bounds rx.1))).
  lia.
Qed.

Lemma potential_bump s : potential (bump s) = potential s.
Proof. done. Qed.

Lemma weight_queued x (l : list (promise * reaction K)) :
  sum_list_with (λ rx : reaction K * settlement, weight rx.1)
    ((λ r, (r, x)) <$> l.*2)
  = sum_list_with (λ pr, weight pr.2) l.
Proof. induction l as [|a l IH]; csimpl; [done|]. by rewrite IH. Qed.

(** Settling moves reactions to the queue: the work that waits is the same. *)
Lemma potential_settle p x s : potential (settle_store p x s) = potential s.
Proof.
  unfold settle_store. case_match; [|done]. unfold potential. simpl.
  unfold reactions_on, reactions_off.
  rewrite sum_list_with_app, weight_queued.
  rewrite <-(filter_app_complement (λ pr, pr.1 = p) (reactions s)) at 3.
  rewrite sum_list_with_app. lia.
Qed.

Lemma potential_register p r s :
  potential (register_store p r s) = potential s + weight r.
Proof.
  unfold register_store, potential.
  case_match; simpl; rewrite sum_list_with_app; simpl; lia.
Qed.

Lemma potential_pop r x (rest : list (reaction K * settlement)) s :
  microtasks s = (r, x) :: rest →
  potential (pop_microtask s) + weight r = potential s.
Proof. intros Hq. unfold potential, pop_microtask. simpl. rewrite Hq. simpl. lia. Qed.

(** ** Well-formed stores *)

Lemma wf_empty : store_wf (@empty_store K).
Proof. by split; simpl. Qed.

Lemma wf_bump s : store_wf s → store_wf (bump s).
Proof.
  intros [Hs Hr Hq]. split; simpl.
  - intros p x Hp. specialize (Hs p x Hp). lia.
  - eapply Forall_impl; [done|]. simpl. lia.
  - eapply Forall_impl; [done|]. simpl. lia.
Qed.

Lemma wf_settle p x s : store_wf s → p < next_id s → store_wf (settle_store p x s).
Proof.
  intros [Hs Hr Hq] Hp. unfold settle_store. case_match; [|done].
  split; simpl.
  - intros q y. destruct (decide (p = q)) as [->|Hne]; [done|].
    rewrite lookup_insert_ne by done. apply Hs.
  - unfold reactions_off. by apply Forall_filter.
  - apply Forall_app. split; [done|].
    unfold reactions_on. rewrite Forall_fmap, Forall_fmap.
    apply Forall_filter. eapply Forall_impl; [done|]. simpl. tauto.
Qed.

Lemma wf_register p r s :
  store_wf s → p < next_id s → derived r < next_id s →
  store_wf (register_store p r s).
Proof.
  intros [Hs Hr Hq] Hp Hd. unfold register_store.
  case_match; split; simpl; try done.
  - apply Forall_app. split; [done|]. by apply Forall_singleton.
  - apply Forall_app. split; [done|]. by apply Forall_singleton.
Qed.

Lemma wf_pop s : store_wf s → store_wf (pop_microtask s).
Proof.
  intros [Hs Hr Hq]. split; simpl; [done..|].
  destruct (microtasks s); [done|]. by apply Forall_cons in Hq as [_ ?].
Qed.

(** In a well-formed store the next promise is pending and nothing waits
    for it. *)
Lemma wf_fresh_pending s : store_wf s → settled s !! next_id s = None.
Proof.
  intros [Hs _ _]. destruct (settled s !! next_id s) as [x|] eqn:Hp; [|done].
  specialize (Hs _ _ Hp). lia.
Qed.

Lemma wf_fresh_unobserved s : store_wf s → reactions_on (next_id s) s = [].
Proof.
  intros [_ Hr _]. unfold reactions_on.
  rewrite (filter_none _ (reactions s)); [done|].
  eapply Forall_impl; [done|]. simpl. intros [q r] [Hq _] Heq. simpl in *. lia.
Qed.

(** The stores after [then] on a pending promise and after the settlement
    of a pending promise, written out. *)
Lemma register_store_pending p (r : reaction K) s :
  settled s !! p = None →
  register_store p r s
  = Store (next_id s) (settled s) (reactions s ++ [(p, r)]) (microtasks s).
Proof. intros Hp. unfold register_store. by rewrite Hp. Qed.

Lemma register_store_settled_eq p (r : reaction K) s y :
  settled s !! p = Some y →
  register_store p r s
  = Store (next_id s) (settled s) (reactions s) (microtasks s ++ [(r, y)]).
Proof. intros Hp. unfold register_store. by rewrite Hp. Qed.

Lemma wf_pending_ge s p : store_wf s → next_id s ≤ p → settled s !! p = None.
Proof.
  intros [Hs _ _] Hp. destruct (settled s !! p) as [x|] eqn:Hx; [|done].
  specialize (Hs _ _ Hx). lia.
Qed.

Lemma settle_store_pending_eq p x s :
  settled s !! p = None →
  settle_store p x s
  = Store (next_id s) (<[p := x]> (settled s)) (reactions_off p s)
          (microtasks s ++ ((λ r, (r, x)) <$> reactions_on p s)).
Proof.
  intros Hp. unfold settle_store, is_pending. by rewrite bool_decide_eq_true_2.
Qed.

(** Settling a pending promise when the reactions that may wait for it are
    known to be among the last ones. *)
Lemma settle_store_split m (st : gmap promise settlement)
    (rs l : list (promise * reaction K)) ms p x :
  st !! p = None → Forall (λ pr, pr.1 ≠ p) rs →
  settle_store p x (Store m st (rs ++ l) ms)
  = Store m (<[p := x]> st) (rs ++ filter (λ pr, pr.1 ≠ p) l)
      (ms ++ ((λ r, (r, x)) <$> (snd <$> filter (λ pr, pr.1 = p) l))).
Proof.
  intros Hp Hrs. rewrite settle_store_pending_eq by done.
  unfold reactions_on, reactions_off. simpl. rewrite !filter_app.
  rewrite (filter_all _ rs) by done. rewrite (filter_none (λ pr, pr.1 = p) rs); [done|].
  eapply Forall_impl; [done|]. naive_solver.
Qed.

(** Settling a pending promise nothing waits for. *)
Lemma settle_store_unobserved m (st : gmap promise settlement)
    (rs : list (promise * reaction K)) ms p x :
  st !! p = None → Forall (λ pr, pr.1 ≠ p) rs →
  settle_store p x (Store m st rs ms) = Store m (<[p := x]> st) rs ms.
Proof.
  intros Hp Hrs. pose proof (settle_store_split m st rs [] ms p x Hp Hrs) as Hs.
  rewrite !app_nil_r in Hs. by rewrite Hs.
Qed.

(** No reaction of a well-formed store waits for a promise that has not
    been allocated. *)
Lemma wf_not_waiting s p :
  store_wf s → next_id s ≤ p → Forall (λ pr, pr.1 ≠ p) (reactions s).
Proof.
  intros [_ Hr _] Hp. eapply Forall_impl; [done|]. simpl. intros [q r] [? _].
  simpl in *. unfold promise in *. lia.
Qed.

Lemma wf_reactions_fresh s p (l : list (promise * reaction K)) :
  store_wf s → next_id s ≤ p →
  filter (λ pr, pr.1 = p) (reactions s ++ l) = filter (λ pr, pr.1 = p) l ∧
  filter (λ pr, pr.1 ≠ p) (reactions s ++ l)
  = reactions s ++ filter (λ pr, pr.1 ≠ p) l.
Proof.
  intros [_ Hr _] Hp. rewrite !filter_app.
  rewrite (filter_none (λ pr, pr.1 = p) (reactions s)), (filter_all _ (reactions s));
    [done|..]; (eapply Forall_impl; [done|]); simpl; intros [q r] [? _];
    simpl in *; unfold promise in *; lia.
Qed.

(** What keeps a set dormant: allocation, the settlement of a promise
    outside of it, a reaction that derives a promise outside of it or waits
    for a promise inside of it, the removal of a microtask. *)
Lemma dormant_pending D p s : dormant D s → p ∈ D → settled s !! p = None.
Proof. intros (HD & _) Hp. by apply HD. Qed.

Lemma dormant_fresh D s q : dormant D s → next_id s ≤ q → q ∉ D.
Proof. intros (HD & _) Hq Hin. apply HD in Hin as [_ ?]. lia. Qed.

Lemma dormant_bump D s : dormant D s → dormant D (bump s).
Proof.
  intros (HD & Hr & Hm). split_and!; [|done..].
  intros p [? ?]%HD. simpl. split; [done|lia].
Qed.

Lemma dormant_settle D q x s : dormant D s → q ∉ D → dormant D (settle_store q x s).
Proof.
  intros (HD & Hr & Hm) Hq. unfold settle_store. case_match; [|done].
  split_and!; simpl.
  - intros p Hp. destruct (HD p Hp). rewrite lookup_insert_ne; [done|set_solver].
  - by apply Forall_filter.
  - apply Forall_app. split; [done|]. unfold reactions_on.
    rewrite <-list_fmap_compose. apply Forall_fmap.
    rewrite Forall_forall in Hr. apply Forall_forall.
    intros pr [Hq1 Hin]%list_elem_of_filter. simpl. intros Hd.
    apply Hq. rewrite <-Hq1. by apply (Hr pr).
Qed.

Lemma dormant_register D q (r : reaction K) s :
  dormant D s → (derived r ∈ D → q ∈ D) → dormant D (register_store q r s).
Proof.
  intros (HD & Hr & Hm) Hd. unfold register_store.
  destruct (settled s !! q) as [y|] eqn:Hq; split_and!; simpl; try done.
  - apply Forall_app. split; [done|]. apply Forall_singleton. simpl.
    intros Hin. destruct (HD q (Hd Hin)) as [Hq' _]. congruence.
  - apply Forall_app. split; [done|]. by apply Forall_singleton.
Qed.

Lemma dormant_pop D r x (rest : list (reaction K * settlement)) s :
  dormant D s → microtasks s = (r, x) :: rest →
  dormant D (pop_microtask s) ∧ derived r ∉ D.
Proof.
  intros (HD & Hr & Hm) Hq. rewrite Hq in Hm. apply Forall_cons in Hm as [Hd Hm].
  split; [|done]. split_and!; simpl; [done..|]. by rewrite Hq.
Qed.

(** A new promise is dormant. *)
Lemma dormant_new s : store_wf s → dormant {[next_id s]} (bump s).
Proof.
  intros Hwf. pose proof (wf_fresh_pending s Hwf). destruct Hwf as [_ Hr Hm].
  split_and!; simpl.
  - apply set_Forall_singleton. split; [done|lia].
  - eapply Forall_impl; [done|]. intros [q r] [_ Hd] ?%elem_of_singleton.
    simpl in *. unfold promise in *. lia.
  - eapply Forall_impl; [done|]. intros [r x] Hd ?%elem_of_singleton.
    simpl in *. unfold promise in *. lia.
Qed.

#[global] Instance dormant_dec D s : Decision (dormant D s).
Proof. unfold dormant. apply _. Defined.

End store_lemmas.

Section runtime_lemmas.
Context {K W : Type} `{!HasPromises K W}.
Implicit Types (w : W) (p : promise) (x : settlement).

Lemma with_store_spec (f : store K → store K) w :
  with_store f w = Ret () (set_promises (f (promises w)) w).
Proof. done. Qed.

Lemma settle_spec p x w :
  settle p x w = Ret () (set_promises (settle_store p x (promises w)) w).
Proof. done. Qed.

(** [fresh] returns the allocator's value and advances it. *)
Lemma fresh_spec w :
  ∃ w', fresh (K:=K) w = Ret (next_id (promises w)) w' ∧
        next_id (promises w') = S (next_id (promises w)) ∧
        settled (promises w') = settled (promises w) ∧
        reactions (promises w') = reactions (promises w) ∧
        microtasks (promises w') = microtasks (promises w).
Proof. eexists. split; [done|]. by rewrite promises_set. Qed.

Lemma wp_with_store (f : store K → store K) (Q : unit → W → Prop) E w :
  wp (with_store f) Q E w ↔ Q () (set_promises (f (promises w)) w).
Proof. done. Qed.

Lemma wp_fresh (Q : promise → W → Prop) E w :
  wp (fresh (K:=K)) Q E w ↔
  Q (next_id (promises w)) (set_promises (bump (promises w)) w).
Proof. done. Qed.

Lemma wp_settle p x (Q : unit → W → Prop) E w :
  wp (settle p x) Q E w ↔
  Q () (set_promises (settle_store p x (promises w)) w).
Proof. done. Qed.

(** A second settlement of the same promise changes nothing. *)
Lemma settle_twice p x y w :
  (settle p x;; settle p y) w = settle p x w.
Proof.
  run_M. unfold settle, with_store. run_M.
  by rewrite promises_set, set_promises_set, settle_store_idem.
Qed.

(** With an empty queue the checkpoint returns at once, whatever the fuel. *)
Lemma drain_empty run fuel w :
  microtasks (promises w) = [] → drain (K:=K) run fuel w = Ret true w.
Proof. intros Hq. destruct fuel; simpl; by rewrite Hq. Qed.

(** More fuel does not change what a checkpoint that emptied the queue
    has done. *)
Lemma drain_mono run fuel fuel' w w' :
  drain (K:=K) run fuel w = Ret true w' → fuel ≤ fuel' →
  drain run fuel' w = Ret true w'.
Proof.
  revert fuel' w. induction fuel as [|fuel IH]; intros fuel' w; simpl.
  - destruct (microtasks (promises w)) as [|[r x] q] eqn:Hq; [|done].
    intros [= <-] _. by apply drain_empty.
  - destruct (microtasks (promises w)) as [|[r x] q] eqn:Hq.
    { intros [= <-] _. by apply drain_empty. }
    intros Hd Hle. destruct fuel' as [|fuel']; [lia|].
    revert Hd. simpl. rewrite Hq. unfold with_store. run_M.
    destruct (run_reaction run r x _) as [[] w2|]; simpl; [|done].
    intros Hd. apply IH; [done|lia].
Qed.

(** ** Termination of the microtask checkpoint

    For a client whose callbacks leave the waiting work as it is (they may
    settle promises, which moves reactions to the queue, and they hand back
    at most the promise the derived promise is to follow), every microtask
    makes the potential smaller: fuel equal to the potential empties the
    queue. *)
Section termination.
Variable run : K → settlement → M W result.
Hypothesis run_keeps : ∀ k x w,
  potential (promises (final (run k x w))) = potential (promises w).

Lemma settle_potential p x w :
  potential (promises (final (settle p x w))) = potential (promises w).
Proof. simpl. by rewrite promises_set, potential_settle. Qed.

Lemma run_reaction_returns r x w : returns (run_reaction run r x w) = true.
Proof.
  unfold run_reaction. destruct (callback_of r x); [|done].
  unfold catch. run_M. destruct (run k x w) as [[v|p] w'|e w']; done.
Qed.

Lemma run_reaction_potential r x w :
  potential (promises (final (run_reaction run r x w))) + 1
  ≤ potential (promises w) + weight r.
Proof.
  pose proof (weight_bounds r) as Hr.
  unfold run_reaction. destruct (callback_of r x) as [k|] eqn:Hk.
  - assert (weight r = 2) as ->.
    { unfold weight, callback_of in *. repeat case_match; simplify_eq; done. }
    specialize (run_keeps k x w). unfold catch. run_M.
    destruct (run k x w) as [[v|p] w'|e w']; simpl in *;
      rewrite promises_set, ?potential_settle, ?potential_register;
      unfold weight; simpl; lia.
  - rewrite settle_potential. lia.
Qed.

Lemma drain_step fuel r x (q : list (reaction K * settlement)) w :
  microtasks (promises w) = (r, x) :: q →
  drain run (S fuel) w =
  drain run fuel (final (run_reaction run r x
                    (set_promises (pop_microtask (promises w)) w))).
Proof.
  intros Hq. simpl. rewrite Hq. run_M. unfold with_store. run_M.
  pose proof (run_reaction_returns r x (set_promises (pop_microtask (promises w)) w)).
  destruct (run_reaction run r x _); [done|simplify_eq/=].
Qed.

(** The checkpoint never throws, and fuel equal to the potential is enough
    for it to empty the queue. *)
Theorem drain_terminates fuel : ∀ w,
  potential (promises w) ≤ fuel →
  ∃ w', drain run fuel w = Ret true w' ∧ microtasks (promises w') = [].
Proof.
  induction fuel as [|fuel IH]; intros w Hfuel.
  - destruct (microtasks (promises w)) as [|[r x] q] eqn:Hq.
    + exists w. by rewrite drain_empty.
    + pose proof (potential_pop r x q _ Hq). pose proof (weight_bounds r). lia.
  - destruct (microtasks (promises w)) as [|[r x] q] eqn:Hq.
    + exists w. by rewrite drain_empty.
    + rewrite (drain_step fuel r x q) by done. apply IH.
      pose proof (run_reaction_potential r x
                    (set_promises (pop_microtask (promises w)) w)) as Hr.
      rewrite promises_set in Hr.
      pose proof (potential_pop r x q _ Hq). lia.
Qed.

End termination.

(** ** Invariants across the checkpoint

    An invariant of the world that implies that the store is well formed,
    that does not mind how a well-formed store changes as long as no
    promise is forgotten, and that the client's callbacks keep (returning
    only promises that exist), holds after the checkpoint. *)
Section invariant.
Variable run : K → settlement → M W result.
Variable I : W → Prop.
Hypothesis I_wf : ∀ w, I w → store_wf (promises w).
Hypothesis I_store : ∀ w s,
  I w → store_wf s → next_id (promises w) ≤ next_id s → I (set_promises s w).
Hypothesis I_run : ∀ k x w, I w →
  wp (run k x)
     (λ res w', I w' ∧ next_id (promises w) ≤ next_id (promises w') ∧
                ∀ p, res = RPromise p → p < next_id (promises w'))
     (λ _ w', I w' ∧ next_id (promises w) ≤ next_id (promises w')) w.

(** The invariant with the allocator not below [n]. *)
Definition I_from (n : nat) (w : W) : Prop := I w ∧ n ≤ next_id (promises w).

Lemma I_settle p x n w :
  I_from n w → p < next_id (promises w) → I_from n (final (settle p x w)).
Proof.
  intros [Hw Hn] Hp. split; simpl.
  - apply I_store; [done|apply wf_settle; [by apply I_wf|done]|].
    by rewrite settle_store_next.
  - by rewrite promises_set, settle_store_next.
Qed.

Lemma I_adopt p d n w :
  I_from n w → p < next_id (promises w) → d < next_id (promises w) →
  I_from n (final (adopt p d w)).
Proof.
  intros [Hw Hn] Hp Hd. split; simpl.
  - apply I_store; [done|apply wf_register; [by apply I_wf|done..]|].
    by rewrite register_store_next.
  - by rewrite promises_set, register_store_next.
Qed.

Lemma run_reaction_preserves r x n w :
  I_from n w → derived r < next_id (promises w) →
  I_from n (final (run_reaction run r x w)).
Proof.
  intros [Hw Hn] Hd. unfold run_reaction. destruct (callback_of r x) as [k|].
  - specialize (I_run k x w Hw). unfold wp, catch in *. run_M.
    destruct (run k x w) as [[v|p] w'|e w'].
    + destruct I_run as (Hw' & Hle & _).
      apply (I_settle (derived r) (Fulfilled v) n w'); [split|]; [done|lia..].
    + destruct I_run as (Hw' & Hle & Hp).
      apply (I_adopt p (derived r) n w'); [split| |]; [done|lia|by apply Hp|lia].
    + destruct I_run as (Hw' & Hle).
      apply (I_settle (derived r) (Rejected e) n w'); [split|]; [done|lia..].
  - by apply I_settle.
Qed.

Lemma I_pop r x (q : list (reaction K * settlement)) n w :
  I_from n w → microtasks (promises w) = (r, x) :: q →
  I_from n (set_promises (pop_microtask (promises w)) w) ∧
  derived r < next_id (promises w).
Proof.
  intros [Hw Hn] Hq. pose proof (I_wf w Hw) as Hwf. split; [split|].
  - apply I_store; [done|by apply wf_pop|done].
  - by rewrite promises_set.
  - destruct Hwf as [_ _ Hm]. rewrite Hq in Hm. by apply Forall_cons in Hm as [? _].
Qed.

(** The checkpoint keeps the invariant and forgets no promise. *)
Theorem drain_preserves fuel : ∀ n w,
  I_from n w → I_from n (final (drain run fuel w)).
Proof.
  induction fuel as [|fuel IH]; intros n w Hw.
  - simpl. destruct (microtasks (promises w)) as [|[r x] q]; done.
  - destruct (microtasks (promises w)) as [|[r x] q] eqn:Hq.
    { by rewrite drain_empty. }
    destruct (I_pop r x q n w Hw Hq) as [Hpop Hd].
    simpl. rewrite Hq. unfold with_store. run_M.
    pose proof (run_reaction_preserves r x n _ Hpop) as Hr.
    rewrite promises_set in Hr. specialize (Hr Hd).
    destruct (run_reaction run r x _) as [[] w'|e w']; simpl in *; [|done].
    by apply IH.
Qed.

End invariant.

(** ** Promises only their holder settles

    [P] says that the promises of [D] are dormant in the store, and speaks
    of the client's state in a way that does not depend on the store.  When
    the client's callbacks keep [P], the microtask checkpoint keeps it: the
    runtime settles derived promises only. *)
Section untouched.
Variable run : K → settlement → M W result.
Variable D : gset promise.
Variable P : W → Prop.
Hypothesis P_dormant : ∀ w, P w → dormant D (promises w).
Hypothesis P_store : ∀ w s, P w → dormant D s → P (set_promises s w).
Hypothesis P_run : ∀ k x w, P w → wp (run k x) (λ _, P) (λ _, P) w.

Lemma P_with_store (f : store K → store K) w :
  P w → (dormant D (promises w) → dormant D (f (promises w))) →
  P (final (with_store f w)).
Proof. intros Hw Hf. simpl. apply P_store; [done|]. by apply Hf, P_dormant. Qed.

Lemma run_reaction_untouched r x w :
  P w → derived r ∉ D → P (final (run_reaction run r x w)).
Proof.
  intros Hw Hd. unfold run_reaction. destruct (callback_of r x) as [k|].
  - specialize (P_run k x w Hw). unfold wp, catch in *. run_M.
    destruct (run k x w) as [[v|q] w'|e w'];
      apply P_with_store; try done; intros Ho;
      by first [apply dormant_settle | apply dormant_register].
  - apply P_with_store; [done|]. intros Ho. by apply dormant_settle.
Qed.

(** The checkpoint leaves a dormant set dormant. *)
Theorem drain_untouched fuel : ∀ w, P w → P (final (drain run fuel w)).
Proof.
  induction fuel as [|fuel IH]; intros w Hw.
  - simpl. destruct (microtasks (promises w)) as [|[r x] q]; done.
  - destruct (microtasks (promises w)) as [|[r x] q] eqn:Hq.
    { by rewrite drain_empty. }
    destruct (dormant_pop D r x q _ (P_dormant w Hw) Hq) as [Hpop Hd].
    simpl. rewrite Hq. unfold with_store. run_M.
    pose proof (run_reaction_untouched r x _ (P_store w _ Hw Hpop) Hd) as Hr.
    destruct (run_reaction run r x _) as [[] w'|e w']; simpl in *; [|done].
    by apply IH.
Qed.

End untouched.

End runtime_lemmas.

End Promise.
