(* ===== verification/Path.v ===== *)
(** * Path: the path functions the activator calls

    [purgeLinks] decides whether a link target lies inside the install
    directory with [path.relative(installPath, target).startsWith('..')].
    The activator is verified against the interface [PathLib]; [posix] is
    an instance for normalised absolute paths with [/] as separator, after
    the documented behaviour of Node's [path.relative]. *)

From stdpp Require Import base list strings.
From Stdlib Require Import Ascii.
From S2P Require Import Prelude.

#[local] Open Scope nat_scope.

Module Path.

(** What the activator needs of the path library. *)
Class PathLib : Type := {
  relative : string → string → string;
}.

(** [s.startsWith(prefix)] *)
Definition startsWith (s prefix : string) : bool := String.prefix prefix s.

(** [s.split(c)] for a one-character separator. *)
Fixpoint split_on (c : ascii) (s : string) : list string :=
  match s with
  | EmptyString => [EmptyString]
  | String a s' =>
      if decide (a = c) then EmptyString :: split_on c s'
      else match split_on c s' with
           | [] => [String a EmptyString]
           | x :: xs => String a x :: xs
           end
  end.

(** [l.join(sep)] *)
Definition join (sep : string) (l : list string) : string := String.concat sep l.

(** The segments of a normalised absolute path. *)
Definition segments (p : string) : list string :=
  filter (λ s, s ≠ EmptyString) (split_on "/"%char p).

(** The longest common prefix of two segment lists is dropped. *)
Fixpoint drop_common (from to : list string) : list string * list string :=
  match from, to with
  | f :: from', t :: to' =>
      if decide (f = t) then drop_common from' to' else (from, to)
  | _, _ => (from, to)
  end.

(** [path.relative(from, to)] on normalised absolute paths: one [..] for
    every segment of [from] past the common prefix, then the rest of [to]. *)
Definition posix_relative (from to : string) : string :=
  let '(up, down) := drop_common (segments from) (segments to) in
  join "/" (((λ _, "..") <$> up) ++ down).

Definition posix : PathLib := {| relative := posix_relative |}.

(** ** Lemmas *)

Lemma split_on_nonempty c s : split_on c s ≠ [].
Proof. destruct s as [|a s]; simpl; [done|]. case_decide; [done|]. by case_match. Qed.

Lemma drop_common_same l : drop_common l l = ([], []).
Proof. induction l as [|x l IH]; simpl; [done|]. by rewrite decide_True. Qed.

(** Below the common prefix nothing climbs: the first component is empty. *)
Lemma drop_common_prefix l k : drop_common l (l ++ k) = ([], k).
Proof.
  induction l as [|x l IH]; simpl; [by destruct k|]. by rewrite decide_True.
Qed.

(** A path is at distance [""] from itself. *)
Lemma posix_relative_self p : posix_relative p p = "".
Proof. unfold posix_relative. by rewrite drop_common_same. Qed.

Lemma startsWith_app s t : startsWith (s +:+ t) s = true.
Proof. unfold startsWith. induction s as [|a s IH]; simpl; [by destruct t|].
  destruct (Ascii.ascii_dec a a); [done|congruence]. Qed.

End Path.
