(* ===== verification/Elevate.v ===== *)
(** * Elevate: the elevated symlink activator

    The model of [src/src/extensions/symlink_activator_elevate/index.ts].
    Module [Activator] has the class [ModActivator]: its fields as a record,
    the world it runs in, and one definition per method, per event handler
    and per callback handed to a promise.  [handle] runs the code an event
    triggers and [react] adds the microtask checkpoint that follows it.
    Module [Run] has the step relation over events and the reachable
    worlds. *)

From stdpp Require Import base list strings gmap.
From Stdlib Require Import ZArith Lia.
From S2P Require Import Prelude Promise Path.

#[local] Open Scope nat_scope.

Module Activator.
Import Promise Path.

(** The worker's connection as node-ipc hands it over. *)
Definition socket := nat.

(** What [ipc.server.emit(client, type, payload)] sends. *)
Inductive message : Type :=
| LinkFileMsg (source destination : string)
| RemoveLinkMsg (destination : string)
| QuitMsg.

(** The payload of a log event. *)
Record log_data : Type := LogData {
  level : string;
  log_message : string;
  meta : string;
}.

(** The calls the activator makes into code that is not its own, in the
    order it makes them.  A call that returns a promise carries the
    promise's identity. *)
Inductive effect : Type :=
| IpcServe (path : string)
| IpcServerStart
| IpcServerStop
| IpcEmit (client : slot socket) (m : message)
| RunElevated (path : string)
| LogCall (data : log_data)
| SuperPrepare (p : promise) (dataPath : string) (clean : bool)
| SuperFinalize (p : promise) (dataPath : string)
| WalkCall (p : promise) (dataPath : string)
| Readlink (p : promise) (path : string).

#[global] Instance message_eq_dec : EqDecision message.
Proof. solve_decision. Defined.
#[global] Instance log_data_eq_dec : EqDecision log_data.
Proof. solve_decision. Defined.
#[global] Instance effect_eq_dec : EqDecision effect.
Proof. solve_decision. Defined.

(** The fields of the class. *)
Record ModActivator : Type := {
  id : string;
  name : string;
  description : string;
  mElevatedClient : slot socket;
  mOutstanding : slot (list string);
  mDone : slot promise;
}.

(** The callbacks the methods hand to [then] and [catch]. *)
Inductive cont : Type :=
| KSuperPrepare (dataPath : string) (clean : bool)
| KStopElevated
| KWalk (installPath dataPath : string)
| KRemoveIfInside (installPath iterPath : string)
| KSameTarget (sourcePath : string)
| KFalse.

(** The activator and what surrounds it. [serve_callback] is the callback
    given to [ipc.serve] and [handlers] the handlers it has registered on
    the server, each named by the promise its initialised handler resolves;
    [walks] maps a running walk to the install path its callback closes
    over. *)
Record world : Type := World {
  this : ModActivator;
  trace : list effect;
  pstore : store cont;
  serve_callback : option promise;
  handlers : option promise;
  walks : gmap promise string;
}.

#[global] Instance world_promises : HasPromises cont world.
Proof.
  refine {| promises := pstore;
            set_promises s w := World (this w) (trace w) s (serve_callback w)
                                      (handlers w) (walks w) |};
    [done|done|by intros []].
Defined.

(** ** Field updates *)

Definition with_client (c : slot socket) (a : ModActivator) : ModActivator :=
  {| id := id a; name := name a; description := description a;
     mElevatedClient := c; mOutstanding := mOutstanding a; mDone := mDone a |}.
Definition with_outstanding (l : slot (list string)) (a : ModActivator) : ModActivator :=
  {| id := id a; name := name a; description := description a;
     mElevatedClient := mElevatedClient a; mOutstanding := l; mDone := mDone a |}.
Definition with_done (d : slot promise) (a : ModActivator) : ModActivator :=
  {| id := id a; name := name a; description := description a;
     mElevatedClient := mElevatedClient a; mOutstanding := mOutstanding a;
     mDone := d |}.

Definition with_this (f : ModActivator → ModActivator) (w : world) : world :=
  World (f (this w)) (trace w) (pstore w) (serve_callback w) (handlers w) (walks w).
Definition with_effect (e : effect) (w : world) : world :=
  World (this w) (trace w ++ [e]) (pstore w) (serve_callback w) (handlers w) (walks w).
Definition with_serve_callback (p : option promise) (w : world) : world :=
  World (this w) (trace w) (pstore w) p (handlers w) (walks w).
Definition with_handlers (p : option promise) (w : world) : world :=
  World (this w) (trace w) (pstore w) (serve_callback w) p (walks w).
Definition with_walk (p : promise) (installPath : string) (w : world) : world :=
  World (this w) (trace w) (pstore w) (serve_callback w) (handlers w)
        (<[p := installPath]> (walks w)).

Definition set_mElevatedClient (c : slot socket) : M world unit :=
  modify (with_this (with_client c)).
Definition set_mOutstanding (l : slot (list string)) : M world unit :=
  modify (with_this (with_outstanding l)).
Definition set_mDone (d : slot promise) : M world unit :=
  modify (with_this (with_done d)).
Definition perform (e : effect) : M world unit := modify (with_effect e).
Definition set_serve_callback (p : option promise) : M world unit :=
  modify (with_serve_callback p).
Definition set_handlers (p : option promise) : M world unit :=
  modify (with_handlers p).
Definition add_walk (p : promise) (installPath : string) : M world unit :=
  modify (with_walk p installPath).

(** ** The class *)

(** The constructor. *)
Definition new_ModActivator : ModActivator := {|
  id := "symlink_activator_elevated";
  name := "Symlink activator (Elevated)";
  description :=
    "Installs the mods by setting symlinks in the destination directory. " +:+
    "This implementation will create the symlinks using a separate process " +:+
    "with elevated permissions and therefore works even if NMM2 isn't run " +:+
    "as administrator.";
  mElevatedClient := Null;
  mOutstanding := Undefined;
  mDone := Undefined;
|}.

(** The world in which [init] has registered a new activator. *)
Definition init_world : world :=
  World new_ModActivator [] empty_store None None ∅.

Definition isGamebryoGame (gameId : string) : bool :=
  bool_decide (indexOf ["skyrim"; "skyrimse"; "fallout4"; "falloutnv"; "oblivion"] gameId ≠ (-1)%Z).

(** [isSupported(state)], given [process.platform] and the active game
    of the state; [None] is [undefined]. *)
Definition isSupported (platform gameId : string) : option string :=
  if decide (platform ≠ "win32") then Some "Not required on non-windows systems"
  else if isGamebryoGame gameId then Some "Doesn't work wtih the gamebryo engine."
  else None.

(** [ipc.server.emit(this.mElevatedClient, ...)] *)
Definition emit (m : message) : M world unit :=
  w ← get; perform (IpcEmit (mElevatedClient (this w)) m).

(** [this.mOutstanding.push(x)] *)
Definition push_outstanding (x : string) : M world unit :=
  w ← get;
  match mOutstanding (this w) with
  | Val l => set_mOutstanding (Val (l ++ [x]))
  | _ => throw (TypeError "Cannot read property 'push' of undefined")
  end.

Definition finish : M world unit :=
  emit QuitMsg;;
  perform IpcServerStop;;
  w ← get;
  match mDone (this w) with
  | Val p => resolve p VUndefined
  | _ => throw (TypeError "this.mDone is not a function")
  end.

Definition linkFile (linkPath sourcePath : string) : M world promise :=
  new_promise (λ p,
    push_outstanding sourcePath;;
    emit (LinkFileMsg sourcePath linkPath);;
    resolve p VUndefined).

Definition unlinkFile (linkPath : string) : M world promise :=
  new_promise (λ p,
    push_outstanding linkPath;;
    emit (RemoveLinkMsg linkPath);;
    resolve p VUndefined).

Definition ipcPath : string := "nmm_elevate_symlink".

Definition startElevated : M world promise :=
  set_mOutstanding (Val []);;
  set_mDone Null;;
  new_promise (λ p,
    perform (IpcServe ipcPath);;
    set_serve_callback (Some p);;
    perform IpcServerStart).

Definition stopElevated : M world promise :=
  new_promise (λ p,
    set_mDone (Val p);;
    w ← get;
    match mOutstanding (this w) with
    | Val l => if decide (length l = 0) then finish else mret ()
    | _ => throw (TypeError "Cannot read property 'length' of undefined")
    end).

Definition prepare (dataPath : string) (clean : bool) : M world promise :=
  p ← startElevated;
  then_ p (Some (KSuperPrepare dataPath clean)) None.

Definition finalize (dataPath : string) : M world promise :=
  q ← fresh;
  perform (SuperFinalize q dataPath);;
  then_ q (Some KStopElevated) None.

Definition purgeLinks (installPath dataPath : string) : M world promise :=
  p ← startElevated;
  d ← then_ p (Some (KWalk installPath dataPath)) None;
  then_ d (Some KStopElevated) None.

Definition isLink (linkPath sourcePath : string) : M world promise :=
  q ← fresh;
  perform (Readlink q linkPath);;
  d ← then_ q (Some (KSameTarget sourcePath)) None;
  then_ d None (Some KFalse).

(** ** The callback given to [ipc.serve] and the handlers it registers *)

Definition serve_cb (p : promise) : M world unit :=
  set_handlers (Some p);;
  perform (RunElevated ipcPath).

Definition on_initialised (p : promise) (sock : socket) : M world unit :=
  set_mElevatedClient (Val sock);;
  resolve p VUndefined.

Definition on_finished (modPath : string) : M world unit :=
  w ← get;
  match mOutstanding (this w) with
  | Val l =>
      let l' := splice (indexOf l modPath) 1 l in
      set_mOutstanding (Val l');;
      if bool_decide (length l' = 0) && not_null (mDone (this w)) then finish
      else mret ()
  | _ => throw (TypeError "Cannot read property 'splice' of undefined")
  end.

Definition on_disconnected : M world unit :=
  perform IpcServerStop;;
  set_mElevatedClient Null.

Definition on_log (data : log_data) : M world unit :=
  perform (LogCall data).

(** ** The callback given to [walk] *)

Definition walk_cb (installPath iterPath : string) (isSymbolicLink : bool)
    : M world promise :=
  if negb isSymbolicLink then resolved VUndefined
  else
    q ← fresh;
    perform (Readlink q iterPath);;
    then_ q (Some (KRemoveIfInside installPath iterPath)) None.

Section with_path.
Context `{!PathLib}.

(** [symlinkPath => { if (!relative(...).startsWith('..')) emit(...) }] *)
Definition remove_if_inside (installPath iterPath symlinkPath : string)
    : M world unit :=
  if negb (startsWith (relative installPath symlinkPath) "..")
  then emit (RemoveLinkMsg iterPath)
  else mret ().

(** How a callback runs when the promise it waits for settles. *)
Definition run_cont (k : cont) (x : settlement) : M world result :=
  match k with
  | KSuperPrepare dataPath clean =>
      q ← fresh; perform (SuperPrepare q dataPath clean);; mret (RPromise q)
  | KStopElevated =>
      p ← stopElevated; mret (RPromise p)
  | KWalk installPath dataPath =>
      q ← fresh; perform (WalkCall q dataPath);; add_walk q installPath;;
      mret (RPromise q)
  | KRemoveIfInside installPath iterPath =>
      match x with
      | Fulfilled (VString symlinkPath) =>
          remove_if_inside installPath iterPath symlinkPath;;
          mret (RValue VUndefined)
      | _ => throw (TypeError "The 'to' argument must be of type string")
      end
  | KSameTarget sourcePath =>
      mret (RValue (VBool (bool_decide (x = Fulfilled (VString sourcePath)))))
  | KFalse => mret (RValue (VBool false))
  end.

(** ** Events *)

Inductive event : Type :=
| Prepare (dataPath : string) (clean : bool)
| Finalize (dataPath : string)
| LinkFile (linkPath sourcePath : string)
| UnlinkFile (linkPath : string)
| PurgeLinks (installPath dataPath : string)
| IsLink (linkPath sourcePath : string)
| ServerStarted
| Initialised (sock : socket)
| Finished (modPath : string)
| SocketDisconnected
| LogEvent (data : log_data)
| Settled (p : promise) (x : settlement)
| WalkEntry (walk : promise) (iterPath : string) (isSymbolicLink : bool).

(** The promise an effect hands to the outside, which the outside settles. *)
Definition announced (e : effect) : option promise :=
  match e with
  | SuperPrepare p _ _ | SuperFinalize p _ | WalkCall p _ | Readlink p _ => Some p
  | _ => None
  end.
Definition external (p : promise) (w : world) : bool :=
  bool_decide (p ∈ omap announced (trace w)).

(** Run [m] when handlers are registered on the server. *)
Definition when_listening (m : promise → M world unit) : M world unit :=
  w ← get;
  match handlers w with
  | Some p => m p
  | None => mret ()
  end.

(** The code an event triggers. *)
Definition handle (e : event) : M world unit :=
  match e with
  | Prepare dataPath clean => prepare dataPath clean;; mret ()
  | Finalize dataPath => finalize dataPath;; mret ()
  | LinkFile linkPath sourcePath => linkFile linkPath sourcePath;; mret ()
  | UnlinkFile linkPath => unlinkFile linkPath;; mret ()
  | PurgeLinks installPath dataPath => purgeLinks installPath dataPath;; mret ()
  | IsLink linkPath sourcePath => isLink linkPath sourcePath;; mret ()
  | ServerStarted =>
      w ← get;
      match serve_callback w with
      | Some p => serve_cb p
      | None => mret ()
      end
  | Initialised sock => when_listening (λ p, on_initialised p sock)
  | Finished modPath => when_listening (λ _, on_finished modPath)
  | SocketDisconnected => when_listening (λ _, on_disconnected)
  | LogEvent data => when_listening (λ _, on_log data)
  | Settled p x =>
      w ← get;
      if external p w then settle p x else mret ()
  | WalkEntry q iterPath isSymbolicLink =>
      w ← get;
      match walks w !! q with
      | Some installPath => walk_cb installPath iterPath isSymbolicLink;; mret ()
      | None => mret ()
      end
  end.

(** The fuel of the checkpoint: a callback leaves at most one reaction
    behind, and a reaction without callback leaves none. *)
Definition budget (w : world) : nat :=
  2 * (length (reactions (pstore w)) + length (microtasks (pstore w))).

(** An event: its handler, then the microtasks. *)
Definition react (e : event) : M world bool :=
  handle e;;
  w ← get;
  drain run_cont (budget w).

End with_path.
End Activator.

Module Run.
Import Promise Path Activator.

Section with_path.
Context `{!PathLib}.

(** One event, handled without an uncaught exception. *)
Definition step (w : world) (e : event) (w' : world) : Prop :=
  ∃ b, react e w = Ret b w'.

(** The worlds a sequence of events leads to. *)
Inductive reachable : world → Prop :=
| reachable_init : reachable init_world
| reachable_step w e w' : reachable w → step w e w' → reachable w'.

(** Running a list of events, stopping at the first uncaught exception. *)
Fixpoint run_events (es : list event) : M world unit :=
  match es with
  | [] => mret ()
  | e :: es' => react e;; run_events es'
  end.

End with_path.
End Run.
