(* ===== verification/ElevateProps.v ===== *)
(** * ElevateProps: what the activator's methods and handlers do

    The functional behaviour of [finish], [stopElevated], [startElevated],
    [linkFile], [unlinkFile] and of the handlers of the worker's events, on
    every branch; the counting law of the finished handler and the drain
    theorem that follows from it; and the places where the code does
    something else than the specification says, each stated for every world
    the code can be in. *)

From stdpp Require Import base list strings gmap.
From Stdlib Require Import ZArith Lia.
From S2P Require Import Prelude Promise Path Elevate.
Import Promise Path Activator.

#[local] Open Scope nat_scope.

(** The handler of the finished event, run once per path of [ps]. *)
Definition completions (ps : list string) : M world unit :=
  foldr (λ p m, on_finished p;; m) (mret ()) ps.

(** The effects of [finish]. *)
Definition quit_effects (w : world) : list effect :=
  [IpcEmit (mElevatedClient (this w)) QuitMsg; IpcServerStop].

(** The worlds of a short session, for the examples: the server asked for,
    the worker connected on socket 7, two links requested, a stop waiting. *)
Definition w_started : world := exec startElevated init_world.
Definition w_active : world :=
  exec (on_initialised 0 7) (exec (serve_cb 0) w_started).
Definition w_two : world :=
  exec (linkFile "/data/b" "/inst/b") (exec (linkFile "/data/a" "/inst/a") w_active).
Definition w_stopping : world := exec stopElevated w_two.
Definition w_stopped : world :=
  exec (completions ["/inst/b"; "/inst/a"]) w_stopping.

(** Unfold the methods down to the operations of the monad. *)
Ltac unfold_act :=
  unfold prepare, finalize, purgeLinks, isLink, walk_cb, serve_cb,
    on_finished, on_initialised, on_disconnected, on_log,
    stopElevated, startElevated, linkFile, unlinkFile in *;
  unfold finish, remove_if_inside, push_outstanding in *;
  unfold emit, new_promise, resolved, then_, adopt in *;
  unfold resolve, reject, fresh in *;
  unfold settle, set_mElevatedClient, set_mOutstanding, set_mDone, perform,
    set_serve_callback, set_handlers, add_walk in *;
  unfold with_store in *.
Ltac wp_act := unfold_act; wp_go.

(** ** [finish] *)

Lemma finish_Val w d :
  mDone (this w) = Val d →
  finish w = Ret () (set_promises
    (settle_store d (Fulfilled VUndefined) (pstore w))
    (with_effect IpcServerStop
       (with_effect (IpcEmit (mElevatedClient (this w)) QuitMsg) w))).
Proof. intros Hd. unfold_act. run_M. by rewrite Hd. Qed.

Lemma finish_this w : this (final (finish w)) = this w.
Proof. apply (wp_final _ (λ w', this w' = this w)). by wp_act. Qed.

Lemma finish_trace w : trace (final (finish w)) = trace w ++ quit_effects w.
Proof.
  apply (wp_final _ (λ w', trace w' = _)). wp_act; by rewrite <-app_assoc.
Qed.

(** [finish] throws exactly when [mDone] holds no function; the quit
    message is out and the server stopped by then. *)
Lemma finish_returns w : returns (finish w) = true ↔ ∃ d, mDone (this w) = Val d.
Proof.
  unfold_act. run_M. destruct (mDone (this w)); simpl; split; try done.
  - by intros [? [=]].
  - by intros [? [=]].
  - by eauto.
Qed.

(** ** The finished handler *)

Lemma on_finished_more w l p :
  mOutstanding (this w) = Val l → 1 < length l →
  on_finished p w =
  Ret () (with_this (with_outstanding (Val (splice (indexOf l p) 1 l))) w).
Proof.
  intros Hl Hlen. unfold_act. run_M. rewrite Hl. simpl.
  rewrite bool_decide_eq_false_2; [done|].
  rewrite length_splice_indexOf. lia.
Qed.

Lemma on_finished_last w l p d :
  mOutstanding (this w) = Val l → length l ≤ 1 → mDone (this w) = Val d →
  on_finished p w =
  finish (with_this (with_outstanding (Val (splice (indexOf l p) 1 l))) w).
Proof.
  intros Hl Hlen Hd. unfold on_finished, set_mOutstanding. run_M.
  rewrite Hl, Hd. simpl.
  rewrite bool_decide_eq_true_2; [done|].
  rewrite length_splice_indexOf. lia.
Qed.

Lemma on_finished_not_stopping w l p :
  mOutstanding (this w) = Val l → mDone (this w) = Null →
  on_finished p w =
  Ret () (with_this (with_outstanding (Val (splice (indexOf l p) 1 l))) w).
Proof.
  intros Hl Hd. unfold_act. run_M. rewrite Hl, Hd. simpl.
  by rewrite andb_false_r.
Qed.

Lemma on_finished_outstanding w l p :
  mOutstanding (this w) = Val l →
  mOutstanding (this (final (on_finished p w)))
  = Val (splice (indexOf l p) 1 l).
Proof.
  intros Hl. apply (wp_final _ (λ w', mOutstanding (this w') = _)).
  wp_act; by simplify_eq.
Qed.

(** C10. Every finished event removes exactly one entry of [mOutstanding],
    whatever path it names: the array is shorter by one, or stays empty. *)
Theorem on_finished_length w l p :
  mOutstanding (this w) = Val l →
  ∃ l', mOutstanding (this (final (on_finished p w))) = Val l' ∧
        length l' = pred (length l).
Proof.
  intros Hl. eexists. split; [by apply on_finished_outstanding|].
  apply length_splice_indexOf.
Qed.

(** C13. A finished event for a path that is not outstanding removes the
    last entry of [mOutstanding], which belongs to another operation. *)
Theorem on_finished_unknown_path w l p :
  mOutstanding (this w) = Val l → p ∉ l →
  mOutstanding (this (final (on_finished p w))) = Val (removelast l).
Proof.
  intros Hl Hp. rewrite (on_finished_outstanding w l) by done.
  by rewrite splice_indexOf_absent.
Qed.

(** A finished event for an outstanding path removes its first occurrence. *)
Theorem on_finished_known_path w l p :
  mOutstanding (this w) = Val l → p ∈ l →
  mOutstanding (this (final (on_finished p w))) = Val (remove_first p l).
Proof.
  intros Hl Hp. rewrite (on_finished_outstanding w l) by done.
  by rewrite splice_indexOf_present.
Qed.

(** Before [startElevated] has run there is no array: the handler throws. *)
Theorem on_finished_undefined w p :
  mOutstanding (this w) = Undefined →
  on_finished p w
  = Throw (TypeError "Cannot read property 'splice' of undefined") w.
Proof. intros Hl. unfold_act. run_M. by rewrite Hl. Qed.

(** ** Draining *)

Lemma completions_cons p ps w :
  completions (p :: ps) w = (on_finished p;; completions ps) w.
Proof. done. Qed.

(** While more entries are outstanding than events arrive, the events only
    shorten the array. *)
Lemma completions_before_last ps : ∀ w l d,
  mOutstanding (this w) = Val l → mDone (this w) = Val d →
  length ps < length l →
  ∃ l', completions ps w = Ret () (with_this (with_outstanding (Val l')) w) ∧
        length l' = length l - length ps.
Proof.
  induction ps as [|p ps IH]; intros w l d Hl Hd Hlen.
  - exists l. split; [|simpl; lia]. destruct w as [[]]; simpl in *. by subst.
  - simpl in Hlen. rewrite completions_cons. run_M.
    rewrite (on_finished_more w l) by (done || lia).
    edestruct (IH (with_this (with_outstanding (Val (splice (indexOf l p) 1 l))) w))
      as (l' & -> & Hl'); [done|done|rewrite length_splice_indexOf; lia|].
    exists l'. split; [done|]. rewrite Hl', length_splice_indexOf. simpl. lia.
Qed.

(** C1. A stop that waits for [n] outstanding operations is completed by
    the [n]-th finished event and by none before it, in whatever order the
    events arrive and whatever paths they name: the first [n - 1] events
    leave the trace and the promises as they are, the [n]-th sends quit,
    stops the server and fulfils the promise of the stop. *)
Theorem drain_after_all_completions w l d ps p :
  mOutstanding (this w) = Val l → mDone (this w) = Val d →
  length (ps ++ [p]) = length l →
  (∀ k, k ≤ length ps →
     trace (final (completions (take k ps) w)) = trace w ∧
     pstore (final (completions (take k ps) w)) = pstore w) ∧
  completions (ps ++ [p]) w =
  Ret () (set_promises (settle_store d (Fulfilled VUndefined) (pstore w))
            (with_effect IpcServerStop
               (with_effect (IpcEmit (mElevatedClient (this w)) QuitMsg)
                  (with_this (with_outstanding (Val [])) w)))).
Proof.
  intros Hl Hd Hlen. rewrite length_app in Hlen. simpl in Hlen. split.
  - intros k Hk.
    destruct (completions_before_last (take k ps) w l d) as (l' & -> & _);
      [done|done|rewrite length_take; lia|]. done.
  - unfold completions. rewrite foldr_app. simpl.
    fold (completions ps).
    destruct (completions_before_last ps w l d) as (l' & Hps & Hl');
      [done|done|lia|].
    assert (Hfold : ∀ (m : M world unit) qs w0,
      foldr (λ p m, on_finished p;; m) m qs w0 = (completions qs;; m) w0).
    { intros m qs. induction qs as [|q qs IH]; intros w0; [done|].
      simpl. run_M. destruct (on_finished q w0); [apply IH|done]. }
    rewrite Hfold. run_M. rewrite Hps.
    rewrite (on_finished_last _ l' p d) by (done || lia).
    rewrite (finish_Val _ d) by done.
    assert (splice (indexOf l' p) 1 l' = []) as ->.
    { apply nil_length_inv. rewrite length_splice_indexOf. lia. }
    by destruct w as [[]].
Qed.

(** ** [stopElevated] *)

(** C11. With nothing outstanding [stopElevated] finishes at once: quit is
    sent, the server stopped and the promise it returns fulfilled. *)
Theorem stopElevated_empty w :
  mOutstanding (this w) = Val [] →
  wp stopElevated (λ p w',
      p = next_id (pstore w) ∧
      trace w' = trace w ++ quit_effects w ∧
      this w' = with_done (Val p) (this w) ∧
      (settled (pstore w) !! p = None →
       settled (pstore w') !! p = Some (Fulfilled VUndefined)))
    (λ _ _, False) w.
Proof.
  intros Hl. wp_act; simplify_eq/=.
  split_and!; [done|by rewrite <-app_assoc|done|].
  intros Hp. by apply settle_store_pending.
Qed.

(** With operations outstanding [stopElevated] only records its
    continuation: nothing is sent and the promise it returns stays pending. *)
Theorem stopElevated_waits w l :
  mOutstanding (this w) = Val l → l ≠ [] →
  wp stopElevated (λ p w',
      p = next_id (pstore w) ∧
      trace w' = trace w ∧
      this w' = with_done (Val p) (this w) ∧
      settled (pstore w') = settled (pstore w))
    (λ _ _, False) w.
Proof.
  intros Hl Hne. wp_act; simplify_eq/=; [|done].
  by destruct l.
Qed.

(** Before [startElevated] has run [stopElevated] returns a rejected
    promise: reading the length of [mOutstanding] throws in the executor. *)
Theorem stopElevated_undefined w :
  mOutstanding (this w) = Undefined →
  wp stopElevated (λ p w',
      p = next_id (pstore w) ∧ trace w' = trace w ∧
      (settled (pstore w) !! p = None →
       ∃ e, settled (pstore w') !! p = Some (Rejected (TypeError e))))
    (λ _ _, False) w.
Proof.
  intros Hl. wp_act; simplify_eq/=. split_and!; [done..|].
  intros Hp. eexists. by apply settle_store_pending.
Qed.

(** ** [startElevated] *)

(** [startElevated] starts from scratch whatever the state: it empties
    [mOutstanding], clears [mDone], asks for a new server and keeps the
    client it had; the promise it returns is left to the initialised
    handler. *)
Theorem startElevated_resets w :
  wp startElevated (λ p w',
      p = next_id (pstore w) ∧
      this w' = with_done Null (with_outstanding (Val []) (this w)) ∧
      trace w' = trace w ++ [IpcServe ipcPath; IpcServerStart] ∧
      serve_callback w' = Some p ∧
      handlers w' = handlers w ∧
      settled (pstore w') = settled (pstore w))
    (λ _ _, False) w.
Proof. wp_act. split_and!; try done. by rewrite <-app_assoc. Qed.

(** ** [linkFile] and [unlinkFile] *)

(** C12. [linkFile] appends the source path to [mOutstanding], sends
    link-file to whatever [mElevatedClient] holds, null included, and
    returns a fulfilled promise. *)
Theorem linkFile_spec w l linkPath sourcePath :
  mOutstanding (this w) = Val l →
  wp (linkFile linkPath sourcePath) (λ p w',
      p = next_id (pstore w) ∧
      this w' = with_outstanding (Val (l ++ [sourcePath])) (this w) ∧
      trace w' = trace w ++
        [IpcEmit (mElevatedClient (this w)) (LinkFileMsg sourcePath linkPath)] ∧
      (settled (pstore w) !! p = None →
       settled (pstore w') !! p = Some (Fulfilled VUndefined)))
    (λ _ _, False) w.
Proof.
  intros Hl. wp_act; simplify_eq/=. split_and!; try done.
  intros Hp. by apply settle_store_pending.
Qed.

Theorem unlinkFile_spec w l linkPath :
  mOutstanding (this w) = Val l →
  wp (unlinkFile linkPath) (λ p w',
      p = next_id (pstore w) ∧
      this w' = with_outstanding (Val (l ++ [linkPath])) (this w) ∧
      trace w' = trace w ++
        [IpcEmit (mElevatedClient (this w)) (RemoveLinkMsg linkPath)] ∧
      (settled (pstore w) !! p = None →
       settled (pstore w') !! p = Some (Fulfilled VUndefined)))
    (λ _ _, False) w.
Proof.
  intros Hl. wp_act; simplify_eq/=. split_and!; try done.
  intros Hp. by apply settle_store_pending.
Qed.

(** Before [startElevated] has run [linkFile] sends nothing and returns
    a promise rejected with a type error: there is no array to push to. *)
Theorem linkFile_before_start w linkPath sourcePath :
  mOutstanding (this w) = Undefined →
  wp (linkFile linkPath sourcePath) (λ p w',
      p = next_id (pstore w) ∧ this w' = this w ∧ trace w' = trace w ∧
      (settled (pstore w) !! p = None →
       ∃ e, settled (pstore w') !! p = Some (Rejected (TypeError e))))
    (λ _ _, False) w.
Proof.
  intros Hl. wp_act; simplify_eq/=. split_and!; try done.
  intros Hp. eexists. by apply settle_store_pending.
Qed.

(** ** The other handlers *)

(** The initialised handler stores the socket and resolves the promise of
    the [startElevated] call that registered it. *)
Theorem on_initialised_spec w p sock :
  on_initialised p sock w =
  Ret () (set_promises (settle_store p (Fulfilled VUndefined) (pstore w))
            (with_this (with_client (Val sock)) w)).
Proof. done. Qed.

(** When the worker disconnects the handler stops the server and
    forgets the client, and that is all: the outstanding entries stay, a
    waiting stop is not told, and no promise is settled. *)
Theorem on_disconnected_spec w :
  on_disconnected w =
  Ret () (with_this (with_client Null) (with_effect IpcServerStop w)).
Proof. done. Qed.

Theorem on_log_spec w data :
  on_log data w = Ret () (with_effect (LogCall data) w).
Proof. done. Qed.

(** C33. A finished event that arrives when nothing is outstanding and the
    continuation of an earlier stop is still in [mDone] runs [finish] once
    more: a second quit and a second stop of the server. *)
Theorem on_finished_after_finish w d p :
  mOutstanding (this w) = Val [] → mDone (this w) = Val d →
  wp (on_finished p) (λ _ w',
      trace w' = trace w ++ quit_effects w ∧ this w' = this w)
    (λ _ _, False) w.
Proof.
  intros Hl Hd. unfold wp.
  rewrite (on_finished_last w [] p d), splice_nil by (done || simpl; lia).
  rewrite (finish_Val _ d) by done. simpl.
  split; [by rewrite <-app_assoc|]. destruct w as [[]]; simpl in *. by subst.
Qed.

(** ** [isSupported] *)

Lemma isGamebryoGame_spec gameId :
  isGamebryoGame gameId = true ↔
  gameId ∈ ["skyrim"; "skyrimse"; "fallout4"; "falloutnv"; "oblivion"].
Proof.
  unfold isGamebryoGame. rewrite bool_decide_eq_true, indexOf_absent.
  split; [apply dec_stable|by auto].
Qed.

(** [isSupported] has no objection exactly on windows with a game that
    is not one of the five gamebryo games. *)
Theorem isSupported_undefined platform gameId :
  isSupported platform gameId = None ↔
  platform = "win32" ∧
  gameId ∉ ["skyrim"; "skyrimse"; "fallout4"; "falloutnv"; "oblivion"].
Proof.
  unfold isSupported. rewrite <-isGamebryoGame_spec.
  destruct (decide (platform ≠ "win32")) as [Hp|Hp%dec_stable];
    destruct (isGamebryoGame gameId); naive_solver.
Qed.

(** ** The callback of the purge *)

Section with_path.
Context `{!PathLib}.

(** For a link found by the walk the purge sends remove-link exactly
    when the relative path from the install directory to the target does
    not start with two dots, and it does not record the request in
    [mOutstanding]. *)
Theorem remove_if_inside_spec w installPath iterPath symlinkPath :
  remove_if_inside installPath iterPath symlinkPath w =
  Ret () (if startsWith (relative installPath symlinkPath) ".." then w
          else with_effect (IpcEmit (mElevatedClient (this w))
                                    (RemoveLinkMsg iterPath)) w).
Proof. unfold remove_if_inside. by destruct (startsWith _ _). Qed.

End with_path.

(** ** The theorems at work on a short session *)

Lemma drain_after_all_completions_witness :
  (∀ k, k ≤ 1 →
     trace (final (completions (take k ["/inst/b"]) w_stopping)) = trace w_stopping ∧
     pstore (final (completions (take k ["/inst/b"]) w_stopping)) = pstore w_stopping) ∧
  completions (["/inst/b"] ++ ["/inst/a"]) w_stopping =
  Ret () (set_promises (settle_store 3 (Fulfilled VUndefined) (pstore w_stopping))
            (with_effect IpcServerStop
               (with_effect (IpcEmit (Val 7) QuitMsg)
                  (with_this (with_outstanding (Val [])) w_stopping)))).
Proof.
  exact (drain_after_all_completions w_stopping ["/inst/a"; "/inst/b"] 3
           ["/inst/b"] "/inst/a" eq_refl eq_refl eq_refl).
Defined.

Lemma on_finished_length_witness :
  ∃ l', mOutstanding (this (final (on_finished "/inst/zzz" w_two))) = Val l' ∧
        length l' = 1.
Proof. exact (on_finished_length w_two ["/inst/a"; "/inst/b"] "/inst/zzz" eq_refl). Defined.

Lemma on_finished_unknown_path_witness :
  mOutstanding (this (final (on_finished "/data/a" w_two))) = Val ["/inst/a"].
Proof.
  apply (on_finished_unknown_path w_two ["/inst/a"; "/inst/b"] "/data/a");
    [reflexivity|apply (bool_decide_unpack _); exact I].
Defined.

Lemma stopElevated_empty_witness :
  wp stopElevated (λ p w',
      p = 1 ∧
      trace w' = trace w_active ++ quit_effects w_active ∧
      this w' = with_done (Val p) (this w_active) ∧
      (settled (pstore w_active) !! p = None →
       settled (pstore w') !! p = Some (Fulfilled VUndefined)))
    (λ _ _, False) w_active.
Proof. exact (stopElevated_empty w_active eq_refl). Defined.

Lemma stopElevated_waits_witness :
  wp stopElevated (λ p w',
      p = 3 ∧ trace w' = trace w_two ∧
      this w' = with_done (Val p) (this w_two) ∧
      settled (pstore w') = settled (pstore w_two))
    (λ _ _, False) w_two.
Proof.
  apply (stopElevated_waits w_two ["/inst/a"; "/inst/b"]); [reflexivity|done].
Defined.

Lemma linkFile_spec_witness :
  wp (linkFile "/data/c" "/inst/c") (λ p w',
      p = 3 ∧
      this w' = with_outstanding (Val (["/inst/a"; "/inst/b"] ++ ["/inst/c"])) (this w_two) ∧
      trace w' = trace w_two ++ [IpcEmit (Val 7) (LinkFileMsg "/inst/c" "/data/c")] ∧
      (settled (pstore w_two) !! p = None →
       settled (pstore w') !! p = Some (Fulfilled VUndefined)))
    (λ _ _, False) w_two.
Proof. exact (linkFile_spec w_two ["/inst/a"; "/inst/b"] "/data/c" "/inst/c" eq_refl). Defined.

Lemma linkFile_before_start_witness :
  wp (linkFile "/data/c" "/inst/c") (λ p w',
      p = 0 ∧ this w' = this init_world ∧ trace w' = trace init_world ∧
      (settled (pstore init_world) !! p = None →
       ∃ e, settled (pstore w') !! p = Some (Rejected (TypeError e))))
    (λ _ _, False) init_world.
Proof. exact (linkFile_before_start init_world "/data/c" "/inst/c" eq_refl). Defined.

Lemma on_finished_after_finish_witness :
  wp (on_finished "/inst/late") (λ _ w',
      trace w' = trace w_stopped ++ quit_effects w_stopped ∧ this w' = this w_stopped)
    (λ _ _, False) w_stopped.
Proof. exact (on_finished_after_finish w_stopped 3 "/inst/late" eq_refl eq_refl). Defined.
