(* ===== verification/ElevateInv.v ===== *)
(** * ElevateInv: what holds in every world the activator can reach

    The invariant [Inv] of the worlds reachable from [init_world]: every
    promise the world mentions has been allocated, the fields of the
    activator hold values of their types, and the handlers are registered
    only after [startElevated] has initialised [mOutstanding] and [mDone].
    Every method and handler keeps it; so does the microtask checkpoint,
    by the runtime's theorem [drain_preserves].  From it: the checkpoint
    always empties the queue, and no event ever ends in an uncaught
    exception. *)

From stdpp Require Import base list strings gmap.
From Stdlib Require Import ZArith Lia.
From S2P Require Import Prelude Promise Path Elevate ElevateProps.
Import Promise Path Activator Run.

#[local] Open Scope nat_scope.

(** The promise an effect announces, if any, is below [n]. *)
Definition below (n : nat) (e : effect) : Prop :=
  ∀ p, announced e = Some p → p < n.

Record Inv (w : world) : Prop := {
  inv_store : store_wf (pstore w);
  inv_done : ∀ d, mDone (this w) = Val d → d < next_id (pstore w);
  inv_serve : ∀ p, serve_callback w = Some p → p < next_id (pstore w);
  inv_handlers : ∀ p, handlers w = Some p → p < next_id (pstore w);
  inv_trace : Forall (below (next_id (pstore w))) (trace w);
  inv_client : mElevatedClient (this w) ≠ Undefined;
  inv_outstanding : mOutstanding (this w) ≠ Null;
  inv_started : is_Some (serve_callback w) →
    (∃ l, mOutstanding (this w) = Val l) ∧ mDone (this w) ≠ Undefined;
  inv_listening : is_Some (handlers w) → is_Some (serve_callback w);
}.

(** The invariant with the allocator not below [n]. *)
Definition Inv_from (n : nat) (w : world) : Prop :=
  Inv w ∧ n ≤ next_id (pstore w).

(** A deployment, as the events of one run.

    [prepare] starts the server; the helper process connects and the
    [initialised] handler resolves the start; the super class's prepare
    (promise 2) completes; one link is requested; [finalize] waits for the
    super class (promise 4), then for the worker's [finished]. *)
Definition session_events : list event :=
  [Prepare "/data" true; ServerStarted; Initialised 7;
   Settled 2 (Fulfilled VUndefined); LinkFile "/data/a" "/inst/a";
   Finalize "/data"; Settled 4 (Fulfilled VUndefined); Finished "/inst/a"].

Definition w_session : world := final (run_events (H:=posix) session_events init_world).

(** ** Automation for the invariant *)

Lemma below_mono n m e : n ≤ m → below n e → below m e.
Proof. intros Hnm He p Hp. specialize (He p Hp). lia. Qed.

Ltac next_simpl :=
  repeat (rewrite ?settle_store_next, ?register_store_next in *; simpl in * ).

Ltac bound_auto :=
  next_simpl;
  first [ lia | by eauto
        | (eapply Nat.lt_le_trans; [by eauto|lia])
        | (simplify_eq;
           first [lia | by eauto | (eapply Nat.lt_le_trans; [by eauto|lia])]) ].

Ltac wf_auto :=
  repeat first [ assumption | apply wf_settle | apply wf_register
               | apply wf_bump | apply wf_pop ];
  try bound_auto.

Ltac trace_auto :=
  rewrite ?Forall_app, ?Forall_cons, ?Forall_singleton, ?Forall_nil;
  repeat split;
  first [ done
        | (eapply Forall_impl; [eassumption|]; intros ? ?;
           eapply below_mono; [|eassumption]; next_simpl; lia)
        | (unfold below; simpl; intros; simplify_eq; next_simpl; lia) ].

Ltac inv_leaf :=
  intros; next_simpl;
  lazymatch goal with
  | |- store_wf _ => wf_auto
  | |- Forall (below _) _ => trace_auto
  | |- _ < _ => bound_auto
  | |- _ ≤ _ => lia
  | |- _ ≠ _ => first [done | by eauto]
  | |- _ ∧ _ => naive_solver eauto
  | _ => by eauto
  end.

Ltac inv_split :=
  lazymatch goal with
  | |- Inv_from _ _ ∧ _ => split; [inv_split|]
  | |- Inv_from _ _ => split; [split|]
  | _ => idtac
  end.
Ltac inv_auto := inv_split; simpl; inv_leaf.

(** The fields of the world and of the invariant as hypotheses. *)
Ltac flatten_Inv :=
  match goal with
  | H : Inv_from _ ?w |- _ =>
      destruct H as [[?Hs ?Hd ?Hsv ?Hh ?Ht ?Hc ?Ho ?Hst ?Hl] ?Hn];
      destruct w as [[? ? ? ? ? ?] ? ? ? ? ?]; simpl in *
  end.

(** Run the method on a flattened world and prove the invariant of what
    comes out. *)
Ltac inv_method := intros; flatten_Inv; wp_act; inv_auto.

(** ** The invariant *)

Lemma Inv_init : Inv init_world.
Proof.
  split; simpl;
    first [ done | apply wf_empty | by intros [? [=]] | by apply Forall_nil ].
Qed.

Lemma Inv_store w s :
  Inv w → store_wf s → next_id (pstore w) ≤ next_id s → Inv (set_promises s w).
Proof.
  intros [] Hs Hn. split; simpl; try done; intros.
  - eapply Nat.lt_le_trans; [|done]. eauto.
  - eapply Nat.lt_le_trans; [|done]. eauto.
  - eapply Nat.lt_le_trans; [|done]. eauto.
  - eapply Forall_impl; [done|]. intros e. by apply below_mono.
Qed.

(** A promise that the trace has announced has been allocated. *)
Lemma external_below p w :
  Inv w → external p w = true → p < next_id (pstore w).
Proof.
  intros [_ _ _ _ Ht _ _ _ _] Hp.
  apply bool_decide_eq_true, list_elem_of_omap in Hp as (e & He & Hp).
  rewrite Forall_forall in Ht. by apply (Ht e).
Qed.

(** ** The methods and handlers keep the invariant *)

Section methods.
Implicit Types (n : nat) (w : world).

Lemma finish_Inv n w :
  Inv_from n w → wp finish (λ _, Inv_from n) (λ _, Inv_from n) w.
Proof. inv_method. Qed.

Lemma stopElevated_Inv n w :
  Inv_from n w →
  wp stopElevated (λ p w', Inv_from n w' ∧ p < next_id (pstore w'))
     (λ _, Inv_from n) w.
Proof. inv_method. Qed.

Lemma startElevated_Inv n w :
  Inv_from n w →
  wp startElevated (λ p w', Inv_from n w' ∧ p < next_id (pstore w'))
     (λ _, Inv_from n) w.
Proof. inv_method. Qed.

Lemma linkFile_Inv n w linkPath sourcePath :
  Inv_from n w →
  wp (linkFile linkPath sourcePath) (λ _, Inv_from n) (λ _, Inv_from n) w.
Proof. inv_method. Qed.

Lemma unlinkFile_Inv n w linkPath :
  Inv_from n w →
  wp (unlinkFile linkPath) (λ _, Inv_from n) (λ _, Inv_from n) w.
Proof. inv_method. Qed.

Lemma prepare_Inv n w dataPath clean :
  Inv_from n w →
  wp (prepare dataPath clean) (λ _, Inv_from n) (λ _, Inv_from n) w.
Proof. inv_method. Qed.

Lemma finalize_Inv n w dataPath :
  Inv_from n w →
  wp (finalize dataPath) (λ _, Inv_from n) (λ _, Inv_from n) w.
Proof. inv_method. Qed.

Lemma purgeLinks_Inv n w installPath dataPath :
  Inv_from n w →
  wp (purgeLinks installPath dataPath) (λ _, Inv_from n) (λ _, Inv_from n) w.
Proof. inv_method. Qed.

Lemma isLink_Inv n w linkPath sourcePath :
  Inv_from n w →
  wp (isLink linkPath sourcePath) (λ _, Inv_from n) (λ _, Inv_from n) w.
Proof. inv_method. Qed.

Lemma serve_cb_Inv n w p :
  Inv_from n w → serve_callback w = Some p →
  wp (serve_cb p) (λ _, Inv_from n) (λ _, Inv_from n) w.
Proof. inv_method. Qed.

Lemma on_initialised_Inv n w p sock :
  Inv_from n w → handlers w = Some p →
  wp (on_initialised p sock) (λ _, Inv_from n) (λ _, Inv_from n) w.
Proof. inv_method. Qed.

Lemma on_finished_Inv n w modPath :
  Inv_from n w →
  wp (on_finished modPath) (λ _, Inv_from n) (λ _, Inv_from n) w.
Proof. inv_method. Qed.

Lemma on_disconnected_Inv n w :
  Inv_from n w → wp on_disconnected (λ _, Inv_from n) (λ _, Inv_from n) w.
Proof. inv_method. Qed.

Lemma on_log_Inv n w data :
  Inv_from n w → wp (on_log data) (λ _, Inv_from n) (λ _, Inv_from n) w.
Proof. inv_method. Qed.

Lemma walk_cb_Inv n w installPath iterPath isSymbolicLink :
  Inv_from n w →
  wp (walk_cb installPath iterPath isSymbolicLink)
     (λ _, Inv_from n) (λ _, Inv_from n) w.
Proof. inv_method. Qed.

Lemma settle_Inv n w p x :
  Inv_from n w → p < next_id (pstore w) →
  wp (settle p x) (λ _, Inv_from n) (λ _, Inv_from n) w.
Proof. inv_method. Qed.

End methods.

Section with_path.
Context `{!PathLib}.
Implicit Types (n : nat) (w : world).

(** A callback keeps the invariant and hands back only a promise that
    exists. *)
Lemma run_cont_Inv n k x w :
  Inv_from n w →
  wp (run_cont k x)
     (λ res w', Inv_from n w' ∧ ∀ p, res = RPromise p → p < next_id (pstore w'))
     (λ _, Inv_from n) w.
Proof.
  intros Hw. flatten_Inv. destruct k; simpl; wp_act; inv_auto.
Qed.

(** The two shapes of the event dispatch: a method whose result is
    dropped, and a handler that runs only once registered. *)
Lemma then_unit_Inv {A} (m : M world A) n w :
  wp m (λ _, Inv_from n) (λ _, Inv_from n) w →
  wp (m;; mret ()) (λ _, Inv_from n) (λ _, Inv_from n) w.
Proof.
  intros Hm. apply wp_bind. eapply wp_mono; [exact Hm| |done].
  intros ? ? ?. by apply wp_ret.
Qed.

Lemma when_listening_Inv (m : promise → M world unit) n w :
  Inv_from n w →
  (∀ p, handlers w = Some p → wp (m p) (λ _, Inv_from n) (λ _, Inv_from n) w) →
  wp (when_listening m) (λ _, Inv_from n) (λ _, Inv_from n) w.
Proof.
  intros Hw Hm. unfold when_listening. apply wp_bind, wp_get.
  destruct (handlers w) as [p|] eqn:Hp; [by apply Hm|by apply wp_ret].
Qed.

Lemma handle_Inv n e w :
  Inv_from n w → wp (handle e) (λ _, Inv_from n) (λ _, Inv_from n) w.
Proof.
  intros Hw. destruct e; simpl.
  - by apply then_unit_Inv, prepare_Inv.
  - by apply then_unit_Inv, finalize_Inv.
  - by apply then_unit_Inv, linkFile_Inv.
  - by apply then_unit_Inv, unlinkFile_Inv.
  - by apply then_unit_Inv, purgeLinks_Inv.
  - by apply then_unit_Inv, isLink_Inv.
  - apply wp_bind, wp_get. destruct (serve_callback w) eqn:?;
      [by apply serve_cb_Inv|by apply wp_ret].
  - apply when_listening_Inv; [done|]. intros. by apply on_initialised_Inv.
  - apply when_listening_Inv; [done|]. intros. by apply on_finished_Inv.
  - apply when_listening_Inv; [done|]. intros. by apply on_disconnected_Inv.
  - apply when_listening_Inv; [done|]. intros. by apply on_log_Inv.
  - apply wp_bind, wp_get. destruct (external p w) eqn:Hp; [|by apply wp_ret].
    apply settle_Inv; [done|]. apply external_below; [by destruct Hw|done].
  - apply wp_bind, wp_get. destruct (walks w !! walk) eqn:?; [|by apply wp_ret].
    by apply then_unit_Inv, walk_cb_Inv.
Qed.

(** Handling an event, microtasks included, keeps the invariant, whether
    the handler returns or throws. *)
Lemma react_Inv_from n e w : Inv_from n w → Inv_from n (final (react e w)).
Proof.
  intros Hw. apply (wp_final (react e) (Inv_from n)).
  unfold react. apply wp_bind.
  eapply wp_mono; [by apply handle_Inv| |done].
  intros [] w1 Hw1. apply wp_bind, wp_get. apply wp_final.
  apply (drain_preserves (HasPromises0:=world_promises) run_cont Inv);
    [by intros ? []|apply Inv_store| |done].
  intros k x w2 Hw2.
  eapply wp_mono; [apply (run_cont_Inv (next_id (pstore w2)) k x w2); by split|..].
  - by intros res w' [[? ?] ?].
  - by intros e' w' [? ?].
Qed.

(** C5. The invariant holds in every reachable world. *)
Theorem reachable_Inv w : reachable w → Inv w.
Proof.
  induction 1 as [|w e w' _ IH [b Hstep]]; [apply Inv_init|].
  destruct (react_Inv_from 0 e w) as [Hw' _]; [split; [done|lia]|].
  by rewrite Hstep in Hw'.
Qed.

(** ** The checkpoint terminates *)

Lemma run_cont_quiet c k x :
  preserves (λ w, potential (pstore w) = c) (run_cont k x).
Proof.
  destruct k; simpl; unfold_act; preserves_go;
    try (destruct x as [[]|]; preserves_go);
    intros [] ?; simpl in *; by rewrite ?potential_settle, ?potential_bump.
Qed.

(** The callbacks of the activator leave the waiting work as it is. *)
Lemma run_cont_keeps k x w :
  potential (pstore (final (run_cont k x w))) = potential (pstore w).
Proof. by apply (run_cont_quiet (potential (pstore w)) k x w). Qed.

(** C4. After any event in any world, if the handler does not throw, the
    checkpoint runs within its fuel and leaves no microtask behind. *)
Theorem react_terminates e w :
  wp (react e) (λ b w', b = true ∧ microtasks (pstore w') = [])
     (λ _ _, True) w.
Proof.
  unfold react. apply wp_bind. unfold wp at 1.
  destruct (handle e w) as [[] w1|]; [|done].
  apply wp_bind, wp_get.
  destruct (drain_terminates (HasPromises0:=world_promises) run_cont
              run_cont_keeps (budget w1) w1) as (w' & Hd & Hq).
  { apply potential_le. }
  unfold wp. simpl in *. by rewrite Hd.
Qed.

(** ** No uncaught exception *)

(** In a world that satisfies the invariant the handlers do not throw. *)
Lemma handle_returns e w : Inv w → returns (handle e w) = true.
Proof.
  intros [Hs Hd Hsv Hh Ht Hc Ho Hst Hl].
  destruct w as [[? ? ? c o d] tr s sc h wk]; simpl in *.
  destruct e; simpl; unfold when_listening; unfold_act; run_M;
    repeat case_match; simplify_eq/=; try done.
  all: destruct Hst as [[l ?] ?]; [by eauto|]; simplify_eq.
  all: match goal with H : _ && false = true |- _ =>
         by rewrite andb_false_r in H end.
Qed.

(** An event in a world that satisfies the invariant is handled to the
    end. *)
Lemma react_returns e w :
  Inv w → ∃ w', react e w = Ret true w' ∧ Inv w' ∧ microtasks (pstore w') = [].
Proof.
  intros Hinv. pose proof (handle_returns e w Hinv) as Hh.
  destruct (react_Inv_from 0 e w) as [Hw' _]; [split; [done|lia]|].
  revert Hw'. unfold react. run_M.
  destruct (handle e w) as [[] w1|]; [|done].
  destruct (drain_terminates (HasPromises0:=world_promises) run_cont
              run_cont_keeps (budget w1) w1) as (w2 & Hd & Hq).
  { apply potential_le. }
  simpl in *. rewrite Hd. eauto.
Qed.

Lemma run_events_Inv es w w' : Inv w → run_events es w = Ret () w' → Inv w'.
Proof.
  revert w. induction es as [|e es IH]; intros w Hw; simpl; run_M.
  - by intros [= <-].
  - destruct (react_returns e w Hw) as (w1 & -> & Hw1 & _). by apply IH.
Qed.

(** C3. From a world that satisfies the invariant every sequence of
    events runs to its end: no handler and no callback throws, every
    checkpoint empties the microtask queue, and the invariant holds in the
    world reached. *)
Theorem run_events_total es w :
  Inv w → ∃ w', run_events es w = Ret () w' ∧ Inv w'.
Proof.
  revert w. induction es as [|e es IH]; intros w Hw; [by exists w|].
  destruct (react_returns e w Hw) as (w1 & He & Hw1 & _).
  destruct (IH w1 Hw1) as (w' & Hes & Hw'). exists w'.
  split; [|done]. simpl. run_M. by rewrite He.
Qed.

End with_path.

(** ** A deployment, as the events of one run *)

Lemma run_events_reachable `{!PathLib} es w w' :
  reachable w → run_events es w = Ret () w' → reachable w'.
Proof.
  revert w. induction es as [|e es IH]; intros w Hw; simpl; run_M.
  - by intros [= <-].
  - destruct (react e w) as [b w1|] eqn:He; [|done].
    apply IH. eapply reachable_step; [done|]. by exists b.
Qed.

Lemma w_session_reachable : reachable (H:=posix) w_session.
Proof.
  apply (run_events_reachable session_events init_world);
    [apply reachable_init|by vm_compute].
Qed.

Lemma reachable_Inv_witness : Inv w_session.
Proof. apply (reachable_Inv (H:=posix)), w_session_reachable. Defined.

Lemma run_events_total_witness :
  ∃ w', run_events (H:=posix) session_events init_world = Ret () w' ∧ Inv w'.
Proof. apply run_events_total, Inv_init. Defined.
