(* ===== verification/ElevateFacade.v ===== *)
(** * ElevateFacade: the methods of the facade, from the call to the answer

    What the caller of [isLink] gets back once the file system has
    answered: the method, the settlement of the read by the environment
    and the two promise callbacks, run as events. *)

From stdpp Require Import base list strings gmap.
From Stdlib Require Import ZArith Lia.
From S2P Require Import Prelude Promise Path Elevate ElevateProps ElevateInv.
Import Promise Path Activator Run.

#[local] Open Scope nat_scope.

(** A deployment under way: the worker is connected and two links have
    been requested. *)
Definition linked_events : list event :=
  [Prepare "/data" true; ServerStarted; Initialised 7;
   Settled 2 (Fulfilled VUndefined); LinkFile "/data/a" "/inst/a";
   LinkFile "/data/b" "/inst/b"].
Definition w_linked : world :=
  final (run_events (H:=posix) linked_events init_world).

(** The world [isLink] leaves: the read of the link is announced and two
    reactions wait, the comparison for its result and the handler of its
    failure. *)
Definition linking (linkPath sourcePath : string) (w : world) : world :=
  let q := next_id (pstore w) in
  World (this w) (trace w ++ [Readlink q linkPath])
    (Store (S (S (S q))) (settled (pstore w))
       (reactions (pstore w) ++
          [(q, Reaction (Some (KSameTarget sourcePath)) None (S q));
           (S q, Reaction None (Some KFalse) (S (S q)))])
       (microtasks (pstore w)))
    (serve_callback w) (handlers w) (walks w).

(** The world [finalize] leaves: the finalize of the super class is
    announced and [stopElevated] waits for it. *)
Definition finalizing (dataPath : string) (w : world) : world :=
  let q := next_id (pstore w) in
  World (this w) (trace w ++ [SuperFinalize q dataPath])
    (Store (S (S q)) (settled (pstore w))
       (reactions (pstore w) ++ [(q, Reaction (Some KStopElevated) None (S q))])
       (microtasks (pstore w)))
    (serve_callback w) (handlers w) (walks w).

(** Filters on the reactions that the methods register. *)
Ltac filter_auto :=
  repeat (rewrite ?filter_cons, ?filter_nil; simpl);
  repeat first [ rewrite decide_True by (simpl; first [done|lia])
               | rewrite decide_False by (simpl; first [done|lia]) ];
  simpl.

(** One microtask of the checkpoint, on a queue that is known. *)
Ltac drain_one :=
  simpl; unfold with_store, run_reaction, pop_microtask; run_M; unfold_act; run_M;
  unfold bump; simpl;
  rewrite ?settle_store_split
    by (simpl; rewrite ?lookup_insert_ne by lia; auto);
  rewrite ?(register_store_settled_eq _ _ _ (Fulfilled VUndefined))
    by (simpl; by rewrite lookup_insert_eq);
  rewrite ?register_store_pending
    by (simpl; rewrite ?lookup_insert_ne by lia; auto);
  filter_auto.

Section with_path.
Context `{!PathLib}.

Lemma isLink_run linkPath sourcePath w :
  Inv w →
  isLink linkPath sourcePath w
  = Ret (S (S (next_id (pstore w)))) (linking linkPath sourcePath w).
Proof.
  intros [Hwf _ _ _ _ _ _ _ _].
  destruct w as [a tr [n st rs ms] sc h wk]; simpl in *.
  pose proof (wf_pending_ge _ n Hwf) as Hn.
  pose proof (wf_pending_ge _ (S n) Hwf) as Hn1. simpl in *.
  unfold_act. run_M. rewrite !register_store_pending; simpl; [|auto..].
  by rewrite <-(assoc_L (++)).
Qed.

Lemma external_last p a tr e s sc h wk :
  announced e = Some p → external p (World a (tr ++ [e]) s sc h wk) = true.
Proof.
  intros He. apply bool_decide_eq_true, list_elem_of_omap. exists e.
  split; [|done]. apply elem_of_app. right. by left.
Qed.

(** The answer of the file system reaches the comparison, then the
    handler of the failure; what comes out settles the promise [isLink]
    returned. *)
Lemma linking_drain linkPath sourcePath w x :
  Inv w → microtasks (pstore w) = [] →
  ∃ w', react (Settled (next_id (pstore w)) x) (linking linkPath sourcePath w)
        = Ret true w' ∧
    settled (pstore w') !! S (S (next_id (pstore w)))
    = Some (Fulfilled (VBool (bool_decide (x = Fulfilled (VString sourcePath))))) ∧
    this w' = this w ∧ trace w' = trace (linking linkPath sourcePath w).
Proof.
  intros [Hwf _ _ _ _ _ _ _ _] Hms.
  destruct w as [a tr [n st rs ms] sc h wk]; simpl in *. subst ms.
  pose proof (wf_pending_ge _ n Hwf (le_n _)) as Hn.
  pose proof (wf_pending_ge _ (S n) Hwf (le_S _ _ (le_n _))) as Hn1.
  pose proof (wf_pending_ge _ (S (S n)) Hwf (le_S _ _ (le_S _ _ (le_n _)))) as Hn2.
  pose proof (wf_not_waiting _ n Hwf (le_n _)) as Hr.
  pose proof (wf_not_waiting _ (S n) Hwf (le_S _ _ (le_n _))) as Hr1.
  pose proof (wf_not_waiting _ (S (S n)) Hwf (le_S _ _ (le_S _ _ (le_n _)))) as Hr2.
  simpl in *.
  unfold react, linking. simpl. run_M. rewrite external_last by done.
  unfold settle, with_store. run_M. rewrite settle_store_split by auto.
  filter_auto.
  destruct x as [v|e]; (eexists; split;
    [eapply (drain_mono _ 3); [|unfold budget; simpl; rewrite length_app; simpl; lia];
     do 3 drain_one; reflexivity|]);
    simpl; by rewrite lookup_insert_eq.
Qed.

(** C14. [isLink] asks the file system for the target of the link and
    returns a promise that no failure of the read rejects: once the read
    has settled, the promise is fulfilled with whether the target is the
    source path, and with false when the read failed, as it does for a
    path that is no link.  No field of the activator changes and nothing
    is sent to the worker. *)
Theorem isLink_settles linkPath sourcePath w x :
  Inv w → microtasks (pstore w) = [] →
  ∃ w1 w2,
    isLink linkPath sourcePath w = Ret (S (S (next_id (pstore w)))) w1 ∧
    trace w1 = trace w ++ [Readlink (next_id (pstore w)) linkPath] ∧
    react (Settled (next_id (pstore w)) x) w1 = Ret true w2 ∧
    settled (pstore w2) !! S (S (next_id (pstore w)))
    = Some (Fulfilled (VBool (bool_decide (x = Fulfilled (VString sourcePath))))) ∧
    this w2 = this w ∧ trace w2 = trace w1.
Proof.
  intros Hinv Hms.
  destruct (linking_drain linkPath sourcePath w x Hinv Hms) as (w2 & ? & ? & ? & ?).
  exists (linking linkPath sourcePath w), w2.
  split_and!; [by apply isLink_run|done..].
Qed.

Lemma finalize_run dataPath w :
  Inv w → finalize dataPath w = Ret (S (next_id (pstore w))) (finalizing dataPath w).
Proof.
  intros [Hwf _ _ _ _ _ _ _ _].
  destruct w as [a tr [n st rs ms] sc h wk]; simpl in *.
  pose proof (wf_pending_ge _ n Hwf (le_n _)) as Hn. simpl in *.
  unfold_act. run_M. by rewrite !register_store_pending.
Qed.

Lemma finalizing_drain dataPath w l x :
  Inv w → microtasks (pstore w) = [] → mOutstanding (this w) = Val l →
  let q := next_id (pstore w) in
  ∃ w', react (Settled q x) (finalizing dataPath w) = Ret true w' ∧
    match x, l with
    | Fulfilled _, [] =>
        this w' = with_done (Val (S (S q))) (this w) ∧
        trace w' = trace (finalizing dataPath w) ++ quit_effects w ∧
        settled (pstore w') !! S q = Some (Fulfilled VUndefined)
    | Fulfilled _, _ :: _ =>
        this w' = with_done (Val (S (S q))) (this w) ∧
        trace w' = trace (finalizing dataPath w) ∧
        settled (pstore w') !! S q = None ∧ settled (pstore w') !! S (S q) = None
    | Rejected e, _ =>
        this w' = this w ∧ trace w' = trace (finalizing dataPath w) ∧
        settled (pstore w') !! S q = Some (Rejected e)
    end.
Proof.
  intros [Hwf _ _ _ _ _ _ _ _] Hms Hl.
  destruct w as [[i nm ds cl o d] tr [n st rs ms] sc h wk]; simpl in *. subst ms o.
  pose proof (wf_pending_ge _ n Hwf (le_n _)) as Hn.
  pose proof (wf_pending_ge _ (S n) Hwf (le_S _ _ (le_n _))) as Hn1.
  pose proof (wf_pending_ge _ (S (S n)) Hwf (le_S _ _ (le_S _ _ (le_n _)))) as Hn2.
  pose proof (wf_not_waiting _ n Hwf (le_n _)) as Hr.
  pose proof (wf_not_waiting _ (S n) Hwf (le_S _ _ (le_n _))) as Hr1.
  pose proof (wf_not_waiting _ (S (S n)) Hwf (le_S _ _ (le_S _ _ (le_n _)))) as Hr2.
  simpl in *.
  unfold react, finalizing. simpl. run_M. rewrite external_last by done.
  unfold settle, with_store. run_M. rewrite settle_store_split by auto.
  filter_auto.
  destruct x as [v|e], l as [|y l]; (eexists; split;
    [eapply (drain_mono _ 2); [|unfold budget; simpl; lia];
     do 3 drain_one; reflexivity|]);
    simpl; unfold quit_effects; simpl;
    rewrite ?lookup_insert_eq, ?lookup_insert_ne, ?lookup_insert_eq by lia;
    by rewrite <-?(assoc_L (++)).
Qed.

(** C6. [finalize] first runs the finalize of the super class.  When
    that has succeeded it stops the session: with nothing outstanding quit
    is sent, the server stopped and the promise [finalize] returned is
    fulfilled in the same turn; with operations outstanding nothing is
    sent and the promise stays pending, for the finished handler to
    complete.  When the finalize of the super class fails the promise is
    rejected with its error and [stopElevated] is never called: no quit is
    sent and the server is not stopped. *)
Theorem finalize_settles dataPath w l x :
  Inv w → microtasks (pstore w) = [] → mOutstanding (this w) = Val l →
  let q := next_id (pstore w) in
  ∃ w1 w2,
    finalize dataPath w = Ret (S q) w1 ∧
    trace w1 = trace w ++ [SuperFinalize q dataPath] ∧
    react (Settled q x) w1 = Ret true w2 ∧
    match x, l with
    | Fulfilled _, [] =>
        this w2 = with_done (Val (S (S q))) (this w) ∧
        trace w2 = trace w1 ++ quit_effects w ∧
        settled (pstore w2) !! S q = Some (Fulfilled VUndefined)
    | Fulfilled _, _ :: _ =>
        this w2 = with_done (Val (S (S q))) (this w) ∧
        trace w2 = trace w1 ∧
        settled (pstore w2) !! S q = None ∧ settled (pstore w2) !! S (S q) = None
    | Rejected e, _ =>
        this w2 = this w ∧ trace w2 = trace w1 ∧
        settled (pstore w2) !! S q = Some (Rejected e)
    end.
Proof.
  intros Hinv Hms Hl q.
  destruct (finalizing_drain dataPath w l x Hinv Hms Hl) as (w2 & ? & ?).
  exists (finalizing dataPath w), w2. split_and!; [by apply finalize_run|done..].
Qed.

End with_path.

Lemma Inv_w_linked : Inv w_linked.
Proof.
  apply (run_events_Inv (H:=posix) linked_events init_world);
    [apply Inv_init|by vm_compute].
Qed.

Lemma finalize_settles_witness :
  ∃ w1 w2,
    finalize "/data" w_linked = Ret 6 w1 ∧
    trace w1 = trace w_linked ++ [SuperFinalize 5 "/data"] ∧
    react (H:=posix) (Settled 5 (Rejected (TypeError "EPERM"))) w1 = Ret true w2 ∧
    this w2 = this w_linked ∧ trace w2 = trace w1 ∧
    settled (pstore w2) !! 6 = Some (Rejected (TypeError "EPERM")).
Proof.
  apply (finalize_settles (H:=posix) "/data" w_linked ["/inst/a"; "/inst/b"]
           (Rejected (TypeError "EPERM"))); [apply Inv_w_linked|done..].
Defined.

Lemma isLink_settles_witness :
  ∃ w1 w2,
    isLink "/data/a" "/inst/a" init_world = Ret 2 w1 ∧
    trace w1 = [Readlink 0 "/data/a"] ∧
    react (H:=posix) (Settled 0 (Rejected (TypeError "EUNKNOWN"))) w1 = Ret true w2 ∧
    settled (pstore w2) !! 2 = Some (Fulfilled (VBool false)) ∧
    this w2 = this init_world ∧ trace w2 = trace w1.
Proof. apply (isLink_settles (H:=posix)); [apply Inv_init|done]. Defined.
