(* ===== verification/ElevatePurge.v ===== *)
(** * ElevatePurge: a purge, from the call to the answer

    [purgeLinks] starts the worker, walks the data directory and stops the
    worker.  This file follows one purge through its events: the start of
    the server, the connection of the worker, the entries the walk finds
    with the targets the file system reports for the links among them, and
    the end of the walk.  The result is the sequence of calls the purge has
    made, in order, and the settlement of the promise it returned. *)

From stdpp Require Import base list strings gmap.
From Stdlib Require Import ZArith Lia.
From S2P Require Import Prelude Promise Path Elevate ElevateProps ElevateInv.
From S2P Require Import ElevateFacade.
Import Promise Path Activator Run.

#[local] Open Scope nat_scope.

(** An entry the walk finds: its path and, for a symbolic link, the target
    the file system reports. *)
Definition entry : Type := (string * option string)%type.

Section with_path.
Context `{!PathLib}.

(** The test of the walk's callback. *)
Definition inside (installPath target : string) : bool :=
  negb (startsWith (relative installPath target) "..").

(** What the environment does for the entries of walk [q], when [m] is
    the next promise: it calls the callback of the walk for each entry and
    answers the read of each link. *)
Fixpoint walk_events (q m : promise) (es : list entry) : list event :=
  match es with
  | [] => []
  | (x, None) :: es => WalkEntry q x false :: walk_events q (S m) es
  | (x, Some t) :: es =>
      WalkEntry q x true :: Settled m (Fulfilled (VString t))
      :: walk_events q (S (S m)) es
  end.

(** The calls the callback of the walk makes for the entries. *)
Fixpoint walk_trace (c : slot socket) (installPath : string) (m : promise)
    (es : list entry) : list effect :=
  match es with
  | [] => []
  | (x, None) :: es => walk_trace c installPath (S m) es
  | (x, Some t) :: es =>
      Readlink m x
      :: (if inside installPath t then [IpcEmit c (RemoveLinkMsg x)] else [])
      ++ walk_trace c installPath (S (S m)) es
  end.

(** The world in which the purge walks: the server runs, the worker is
    connected on [sock], the walk is announced as promise [n + 3], and the
    stop waits for promise [n + 1], which follows the walk. *)
Definition purging (installPath dataPath : string) (sock : socket) (w : world)
    : world :=
  let n := next_id (pstore w) in
  World (with_client (Val sock) (with_done Null (with_outstanding (Val []) (this w))))
    (trace w ++ [IpcServe ipcPath; IpcServerStart; RunElevated ipcPath;
                 WalkCall (S (S (S n))) dataPath])
    (Store (S (S (S (S n)))) (<[n := Fulfilled VUndefined]> (settled (pstore w)))
       (reactions (pstore w) ++
          [(S n, Reaction (Some KStopElevated) None (S (S n)));
           (S (S (S n)), Reaction None None (S n))])
       [])
    (Some n) (Some n) (<[S (S (S n)) := installPath]> (walks w)).

(** The world after an entry. *)
Definition entered (installPath : string) (w : world) (e : entry) : world :=
  let m := next_id (pstore w) in
  match e with
  | (x, None) =>
      set_promises
        (Store (S m) (<[m := Fulfilled VUndefined]> (settled (pstore w)))
           (reactions (pstore w)) []) w
  | (x, Some t) =>
      World (this w)
        (trace w ++ Readlink m x ::
           (if inside installPath t
            then [IpcEmit (mElevatedClient (this w)) (RemoveLinkMsg x)] else []))
        (Store (S (S m))
           (<[S m := Fulfilled VUndefined]>
              (<[m := Fulfilled (VString t)]> (settled (pstore w))))
           (reactions (pstore w)) [])
        (serve_callback w) (handlers w) (walks w)
  end.

Definition walked (installPath : string) (es : list entry) (w : world) : world :=
  foldl (entered installPath) w es.

(** ** Runs *)

Lemma run_events_then es1 es2 w w1 :
  run_events es1 w = Ret () w1 → run_events (es1 ++ es2) w = run_events es2 w1.
Proof.
  revert w. induction es1 as [|e es1 IH]; intros w; simpl.
  - by intros [= ->].
  - run_M. destruct (react e w) as [b w2|]; [|done]. apply IH.
Qed.

(** The facts about new promises a well-formed store gives. *)
Ltac fresh_facts Hwf n :=
  pose proof (wf_pending_ge _ n Hwf (le_n _));
  pose proof (wf_pending_ge _ (S n) Hwf (le_S _ _ (le_n _)));
  pose proof (wf_pending_ge _ (S (S n)) Hwf (le_S _ _ (le_S _ _ (le_n _))));
  pose proof (wf_pending_ge _ (S (S (S n))) Hwf
                (le_S _ _ (le_S _ _ (le_S _ _ (le_n _)))));
  pose proof (wf_not_waiting _ n Hwf (le_n _));
  pose proof (wf_not_waiting _ (S n) Hwf (le_S _ _ (le_n _)));
  pose proof (wf_not_waiting _ (S (S n)) Hwf (le_S _ _ (le_S _ _ (le_n _))));
  pose proof (wf_not_waiting _ (S (S (S n))) Hwf
                (le_S _ _ (le_S _ _ (le_S _ _ (le_n _)))));
  simpl in *.

(** An event whose handler returns, with the checkpoint that follows. *)
Lemma react_drain e w w1 w2 fuel :
  handle e w = Ret () w1 → drain run_cont fuel w1 = Ret true w2 →
  fuel ≤ budget w1 → react e w = Ret true w2.
Proof.
  intros He Hd Hf. unfold react. run_M. rewrite He. simpl.
  by apply (drain_mono _ fuel).
Qed.

Lemma react_quiet e w w1 :
  handle e w = Ret () w1 → microtasks (pstore w1) = [] → react e w = Ret true w1.
Proof.
  intros He Hq. apply (react_drain e w w1 w1 0); [done| |lia].
  by apply drain_empty.
Qed.

(** The call, the start of the server and the connection of the worker. *)
Lemma purge_start installPath dataPath sock w :
  Inv w → microtasks (pstore w) = [] →
  run_events [PurgeLinks installPath dataPath; ServerStarted; Initialised sock] w
  = Ret () (purging installPath dataPath sock w).
Proof.
  intros [Hwf _ _ _ _ _ _ _ _] Hms.
  destruct w as [[i nm ds cl o d] tr [n st rs ms] sc h wk]; simpl in *. subst ms.
  fresh_facts Hwf n. unfold run_events. run_M.
  erewrite react_quiet; cycle 1.
  { simpl. unfold_act. run_M.
    rewrite (register_store_pending n) by (simpl; auto).
    rewrite (register_store_pending (S n)) by (simpl; auto). simpl.
    rewrite <-!(assoc_L (++)). reflexivity. }
  { done. }
  simpl. erewrite react_quiet; cycle 1.
  { simpl. unfold_act. run_M. reflexivity. }
  { done. }
  simpl. erewrite react_drain; cycle 1.
  { simpl. unfold when_listening. unfold_act. run_M.
    rewrite settle_store_split by auto. filter_auto. reflexivity. }
  { instantiate (2 := 1). do 2 drain_one. reflexivity. }
  { unfold budget. simpl. rewrite !length_app. simpl. lia. }
  simpl. unfold purging. simpl. by rewrite <-!(assoc_L (++)).
Qed.

(** One entry of the walk: the callback of the walk and, for a link, the
    answer of the file system with the callback that tests the target. *)
Lemma entry_step q installPath e w :
  Inv w → microtasks (pstore w) = [] → walks w !! q = Some installPath →
  run_events (walk_events q (next_id (pstore w)) [e]) w
  = Ret () (entered installPath w e).
Proof.
  intros [Hwf _ _ _ _ _ _ _ _] Hms Hq.
  destruct w as [[i nm ds cl o d] tr [n st rs ms] sc h wk]; simpl in *. subst ms.
  fresh_facts Hwf n. destruct e as [x [t|]]; simpl; run_M.
  - unfold inside.
    destruct (startsWith (relative installPath t) "..") eqn:Hin;
      (erewrite react_quiet; cycle 1;
       [simpl; run_M; rewrite Hq; unfold_act; run_M;
        rewrite (register_store_pending n) by (simpl; auto); reflexivity
       |done|]);
      simpl;
      (erewrite react_drain; cycle 1;
       [simpl; run_M; rewrite external_last by done; unfold_act; run_M;
        rewrite settle_store_split by auto; filter_auto; reflexivity
       |instantiate (2 := 1); drain_one; rewrite Hin; do 2 drain_one; reflexivity
       |unfold budget; simpl; rewrite !length_app; simpl; lia|]);
      simpl; by rewrite <-?(assoc_L (++)), ?app_nil_r.
  - erewrite react_quiet; cycle 1.
    { simpl. run_M. rewrite Hq. unfold_act. run_M. unfold bump. simpl.
      rewrite settle_store_unobserved by auto. reflexivity. }
    { done. }
    done.
Qed.

Lemma walk_events_cons q installPath e es w :
  walk_events q (next_id (pstore w)) (e :: es)
  = walk_events q (next_id (pstore w)) [e]
    ++ walk_events q (next_id (pstore (entered installPath w e))) es.
Proof. by destruct e as [x [t|]]. Qed.

Lemma entered_quiet installPath e w : microtasks (pstore (entered installPath w e)) = [].
Proof. by destruct e as [x [t|]]. Qed.

Lemma entered_walks installPath e w : walks (entered installPath w e) = walks w.
Proof. by destruct e as [x [t|]]. Qed.

(** The entries of a walk, one after the other. *)
Lemma walk_run q installPath es : ∀ w,
  Inv w → microtasks (pstore w) = [] → walks w !! q = Some installPath →
  run_events (walk_events q (next_id (pstore w)) es) w
  = Ret () (walked installPath es w).
Proof.
  induction es as [|e es IH]; intros w Hw Hms Hq; [done|].
  pose proof (entry_step q installPath e w Hw Hms Hq) as He.
  rewrite (walk_events_cons q installPath), (run_events_then _ _ _ _ He).
  apply IH; [by eapply run_events_Inv|apply entered_quiet|].
  by rewrite entered_walks.
Qed.

(** What a walk leaves as it was, and what it adds. *)
Record walk_of (installPath : string) (es : list entry) (w w' : world) : Prop := {
  walk_this : this w' = this w;
  walk_effects :
    trace w' = trace w ++ walk_trace (mElevatedClient (this w)) installPath
                            (next_id (pstore w)) es;
  walk_reactions : reactions (pstore w') = reactions (pstore w);
  walk_next : next_id (pstore w) ≤ next_id (pstore w');
  walk_settled p : p < next_id (pstore w) →
    settled (pstore w') !! p = settled (pstore w) !! p;
}.

Lemma walk_of_entered installPath e w :
  walk_of installPath [e] w (entered installPath w e).
Proof.
  destruct e as [x [t|]]; split; simpl; rewrite ?app_nil_r; try done; try lia;
    intros p Hp; by rewrite !lookup_insert_ne by lia.
Qed.

Lemma walked_spec installPath es : ∀ w,
  walk_of installPath es w (walked installPath es w).
Proof.
  induction es as [|e es IH]; intros w.
  { split; simpl; rewrite ?app_nil_r; done. }
  destruct (walk_of_entered installPath e w) as [Ht Htr Hr Hn Hs].
  destruct (IH (entered installPath w e)) as [Ht' Htr' Hr' Hn' Hs'].
  split; simpl.
  - by rewrite Ht', Ht.
  - rewrite Htr', Htr, Ht, <-(assoc_L (++)). f_equal.
    destruct e as [x [t|]]; simpl; by rewrite ?app_nil_r, <-?(assoc_L (++)).
  - by rewrite Hr', Hr.
  - lia.
  - intros p Hp. rewrite Hs' by lia. by apply Hs.
Qed.

(** The end of the walk: the promise of the walk's callback follows, the
    stop runs with nothing outstanding and finishes at once. *)
Lemma purge_end q p1 p2 v rs w :
  Inv w → microtasks (pstore w) = [] → mOutstanding (this w) = Val [] →
  external q w = true →
  reactions (pstore w)
  = rs ++ [(p1, Reaction (Some KStopElevated) None p2); (q, Reaction None None p1)] →
  Forall (λ pr, pr.1 ≠ q) rs → Forall (λ pr, pr.1 ≠ p1) rs →
  Forall (λ pr, pr.1 ≠ p2) rs → q ≠ p1 → p1 ≠ p2 → q ≠ p2 →
  settled (pstore w) !! q = None → settled (pstore w) !! p1 = None →
  settled (pstore w) !! p2 = None →
  ∃ w', react (Settled q (Fulfilled v)) w = Ret true w' ∧
    this w' = with_done (Val (next_id (pstore w))) (this w) ∧
    trace w' = trace w ++ quit_effects w ∧
    settled (pstore w') !! p2 = Some (Fulfilled VUndefined).
Proof.
  intros [Hwf _ _ _ _ _ _ _ _] Hms Ho Hext Hrs Hq Hp1 Hp2 ? ? ? Hsq Hs1 Hs2.
  destruct w as [[i nm ds cl o d] tr [n st rs' ms] sc h wk]; simpl in *. subst.
  pose proof (wf_pending_ge _ n Hwf (le_n _)) as Hn.
  pose proof (wf_not_waiting _ n Hwf (le_n _)) as [Hrn _]%Forall_app.
  destruct Hwf as [_ [_ Hl]%Forall_app _].
  apply Forall_cons in Hl as [[? ?] [[? ?] _]%Forall_cons]. simpl in *.
  eexists. split.
  - eapply (react_drain _ _ _ _ 3).
    + simpl. run_M. rewrite Hext. unfold_act. run_M.
      rewrite settle_store_split by auto. filter_auto. reflexivity.
    + do 4 drain_one. reflexivity.
    + unfold budget. simpl. rewrite !length_app. simpl. lia.
  - simpl. unfold quit_effects. simpl.
    by rewrite lookup_insert_eq, <-?(assoc_L (++)).
Qed.

Lemma walked_quiet installPath es w :
  microtasks (pstore w) = [] → microtasks (pstore (walked installPath es w)) = [].
Proof.
  destruct es as [|e es _] using rev_ind; [done|]. intros _.
  unfold walked. rewrite foldl_app. apply entered_quiet.
Qed.

Lemma external_app p w w' tr :
  trace w' = trace w ++ tr → external p w = true → external p w' = true.
Proof.
  intros Htr [e [He Hp]]%bool_decide_eq_true%list_elem_of_omap.
  apply bool_decide_eq_true, list_elem_of_omap. exists e.
  rewrite Htr, elem_of_app. auto.
Qed.

(** The events of a purge called when [n] is the next promise: the call,
    the start of the server, the connection of the worker, the entries of
    the walk and its end. *)
Definition purge_events (installPath dataPath : string) (sock : socket)
    (n : promise) (es : list entry) (v : value) : list event :=
  [PurgeLinks installPath dataPath; ServerStarted; Initialised sock]
  ++ walk_events (n + 3) (n + 4) es
  ++ [Settled (n + 3) (Fulfilled v)].

(** The walk of a purge and its end, from the world [purge_start] leaves. *)
Lemma purge_walk installPath dataPath sock es v w :
  Inv w → microtasks (pstore w) = [] →
  let n := next_id (pstore w) in
  ∃ w', run_events (walk_events (n + 3) (n + 4) es ++ [Settled (n + 3) (Fulfilled v)])
          (purging installPath dataPath sock w) = Ret () w' ∧
    trace w' = trace (purging installPath dataPath sock w)
               ++ walk_trace (Val sock) installPath (n + 4) es
               ++ [IpcEmit (Val sock) QuitMsg; IpcServerStop] ∧
    settled (pstore w') !! (n + 2) = Some (Fulfilled VUndefined) ∧
    mOutstanding (this w') = Val [].
Proof.
  intros Hw Hms n. pose proof (purge_start installPath dataPath sock w Hw Hms) as H1.
  pose proof (run_events_Inv _ _ _ Hw H1) as Hw1.
  set (w1 := purging installPath dataPath sock w) in *.
  replace (n + 4) with (next_id (pstore w1)) by (simpl; lia).
  replace (n + 3) with (S (S (S n))) by lia. replace (n + 2) with (S (S n)) by lia.
  pose proof (walk_run (S (S (S n))) installPath es w1 Hw1 eq_refl
                (lookup_insert_eq _ _ _)) as H2.
  pose proof (run_events_Inv _ _ _ Hw1 H2) as Hw2.
  destruct (walked_spec installPath es w1) as [Ht Htr Hr Hn Hs].
  destruct Hw as [Hwf _ _ _ _ _ _ _ _].
  destruct (purge_end (S (S (S n))) (S n) (S (S n)) v (reactions (pstore w)) _ Hw2)
    as (w' & He & Ht' & Htr' & Hp2); try lia.
  - by apply walked_quiet.
  - by rewrite Ht.
  - eapply external_app; [done|]. apply bool_decide_eq_true, list_elem_of_omap.
    exists (WalkCall (S (S (S n))) dataPath). split; [|done]. simpl. set_solver.
  - by rewrite Hr.
  - apply wf_not_waiting; [done|]. fold n. lia.
  - apply wf_not_waiting; [done|]. fold n. lia.
  - apply wf_not_waiting; [done|]. fold n. lia.
  - rewrite Hs by (simpl; lia). simpl. rewrite lookup_insert_ne by lia.
    apply wf_pending_ge; [done|]. fold n. lia.
  - rewrite Hs by (simpl; lia). simpl. rewrite lookup_insert_ne by lia.
    apply wf_pending_ge; [done|]. fold n. lia.
  - rewrite Hs by (simpl; lia). simpl. rewrite lookup_insert_ne by lia.
    apply wf_pending_ge; [done|]. fold n. lia.
  - exists w'. rewrite (run_events_then _ _ _ _ H2). simpl. run_M. rewrite He.
    split_and!; [done| |done|by rewrite Ht', Ht].
    rewrite Htr', Htr. unfold quit_effects. rewrite Ht.
    by rewrite <-!(assoc_L (++)).
Qed.

(** C9. A purge from the call to the answer.  [purgeLinks] returns the
    promise [n + 2].  Once the server has started and the worker is
    connected the walk is called; for every link the walk finds, its
    target is read and remove-link is sent exactly when the target lies
    inside the install path; the entries that are no links cause no call.
    When the walk ends, quit is sent and the server stopped in the same
    turn and the promise is fulfilled: remove-link is not recorded in
    [mOutstanding], so the purge waits for no finished message of the
    worker. *)
Theorem purgeLinks_settles installPath dataPath sock es v w :
  Inv w → microtasks (pstore w) = [] →
  let n := next_id (pstore w) in
  (∃ w0, purgeLinks installPath dataPath w = Ret (n + 2) w0) ∧
  ∃ w', run_events (purge_events installPath dataPath sock n es v) w = Ret () w' ∧
    trace w' = trace w
               ++ [IpcServe ipcPath; IpcServerStart; RunElevated ipcPath;
                   WalkCall (n + 3) dataPath]
               ++ walk_trace (Val sock) installPath (n + 4) es
               ++ [IpcEmit (Val sock) QuitMsg; IpcServerStop] ∧
    settled (pstore w') !! (n + 2) = Some (Fulfilled VUndefined) ∧
    mOutstanding (this w') = Val [].
Proof.
  intros Hw Hms n. split.
  { replace (n + 2) with (S (S n)) by lia. eexists. unfold_act. run_M.
    by rewrite register_store_next. }
  destruct (purge_walk installPath dataPath sock es v w Hw Hms)
    as (w' & He & Htr & Hp & Ho).
  exists w'. unfold purge_events.
  rewrite (run_events_then _ _ _ _ (purge_start installPath dataPath sock w Hw Hms)).
  split_and!; [done| |done..]. rewrite Htr. simpl.
  replace (n + 3) with (S (S (S n))) by lia. by rewrite <-!(assoc_L (++)).
Qed.

End with_path.

(** ** A purge of three entries *)

Lemma purgeLinks_settles_witness :
  (∃ w0, purgeLinks "/inst" "/data" init_world = Ret 2 w0) ∧
  ∃ w',
    run_events (H:=posix)
      (purge_events "/inst" "/data" 7 0
         [("/data/a", Some "/inst/a"); ("/data/readme", None);
          ("/data/b", Some "/other/b")] VUndefined) init_world = Ret () w' ∧
    trace w' = [IpcServe ipcPath; IpcServerStart; RunElevated ipcPath;
                WalkCall 3 "/data"; Readlink 4 "/data/a";
                IpcEmit (Val 7) (RemoveLinkMsg "/data/a"); Readlink 7 "/data/b";
                IpcEmit (Val 7) QuitMsg; IpcServerStop] ∧
    settled (pstore w') !! 2 = Some (Fulfilled VUndefined) ∧
    mOutstanding (this w') = Val [].
Proof.
  apply (purgeLinks_settles (H:=posix) "/inst" "/data" 7
           [("/data/a", Some "/inst/a"); ("/data/readme", None);
            ("/data/b", Some "/other/b")] VUndefined init_world);
    [apply Inv_init|done].
Defined.
