(* ===== verification/ElevateDormant.v ===== *)
(** * ElevateDormant: what can complete a stop that waits

    [stopElevated] stores the continuation of its promise in [mDone] and,
    with operations outstanding, returns.  This file shows who can call the
    continuation afterwards: the handler of [finished] and nobody else.  The
    promises of a set [D] are [Dormant] in a world when they are dormant in
    the promise store and none of them is held by code that settles what it
    holds: the environment (the promises announced to it) and the
    [initialised] handler (the promise of the start).  Every method, every
    handler but the one of [finished], every callback and the microtask
    checkpoint keep a dormant set dormant. *)

From stdpp Require Import base list strings gmap.
From Stdlib Require Import ZArith Lia.
From S2P Require Import Prelude Promise Path Elevate ElevateProps ElevateInv.
From S2P Require Import ElevateFacade.
Import Promise Path Activator Run.

#[local] Open Scope nat_scope.

(** The promises that code other than the [finished] handler settles. *)
Definition held (w : world) : list promise :=
  omap announced (trace w) ++ option_list (serve_callback w)
  ++ option_list (handlers w).

Definition Dormant (D : gset promise) (w : world) : Prop :=
  dormant D (pstore w) ∧ Forall (.∉ D) (held w).

#[global] Instance Dormant_dec D w : Decision (Dormant D w).
Proof. unfold Dormant. apply _. Defined.

(** The continuation [finished] calls, and the worlds in which it is not
    one of [D]: there nothing holds a promise of [D] any more. *)
Definition continuation (w : world) : list promise :=
  match mDone (this w) with Val p => [p] | _ => [] end.

Definition Lost (D : gset promise) (w : world) : Prop :=
  Dormant D w ∧ Forall (.∉ D) (continuation w).

#[global] Instance Lost_dec D w : Decision (Lost D w).
Proof. unfold Lost. apply _. Defined.

Definition is_finished (e : event) : bool :=
  match e with Finished _ => true | _ => false end.

(** The events that call [startElevated]. *)
Definition starts (e : event) : bool :=
  match e with Prepare _ _ | PurgeLinks _ _ => true | _ => false end.

(** ** Automation *)

(** [q ∉ D] for a promise that is new, or held. *)
Ltac notin_auto :=
  first [ assumption
        | (eapply dormant_fresh; [eassumption|next_simpl; lia])
        | match goal with
          | H : Forall _ _ |- ?p ∉ _ => exact (Forall_inv H)
          end
        | match goal with
          | Hx : external ?p _ = true, Ht : Forall _ (omap announced _) |- ?p ∉ _ =>
              apply bool_decide_eq_true in Hx;
              exact (proj1 (Forall_forall _ _) Ht _ Hx)
          end ].

Ltac dormant_store :=
  repeat first
    [ assumption
    | apply dormant_bump
    | apply dormant_settle; [|notin_auto]
    | apply dormant_register;
        [|let H := fresh in intros H; exfalso; revert H; simpl; notin_auto] ].

Ltac dormant_held :=
  unfold held; simpl;
  rewrite ?omap_app, ?Forall_app; simpl; rewrite ?Forall_cons, ?Forall_nil;
  repeat split; try done; notin_auto.

Ltac dormant_auto :=
  lazymatch goal with
  | |- Dormant _ _ => split; simpl; [dormant_store|dormant_held]
  | |- Lost _ _ =>
      split; [dormant_auto|];
      unfold continuation; simpl; rewrite ?Forall_cons, ?Forall_nil;
      repeat split; try done; notin_auto
  | _ => idtac
  end.

Ltac flatten_Dormant :=
  match goal with
  | H : Lost _ ?w |- _ =>
      destruct H as [[?Hs ?Hh] ?Hc];
      destruct w as [[? ? ? ? ? ?] ? ? ? ? ?];
      unfold held in Hh; unfold continuation in Hc; simpl in *;
      rewrite !Forall_app in Hh; destruct_and?
  | H : Dormant _ ?w |- _ =>
      destruct H as [?Hs ?Hh];
      destruct w as [[? ? ? ? ? ?] ? ? ? ? ?];
      unfold held in Hh; simpl in *;
      rewrite !Forall_app in Hh; destruct_and?
  end.

Ltac dormant_method := intros; flatten_Dormant; wp_act; dormant_auto.

(** ** From the handlers to the runs

    What the handlers and the callbacks keep, the microtasks included, a
    run of events keeps. *)

Section runs.
Context `{!PathLib}.
Variable D : gset promise.
Variable P : world → Prop.
Variable allowed : event → bool.
Hypothesis P_dormant : ∀ w, P w → dormant D (pstore w).
Hypothesis P_store : ∀ w s, P w → dormant D s → P (set_promises s w).
Hypothesis P_handle : ∀ e w,
  allowed e = true → P w → wp (handle e) (λ _, P) (λ _, P) w.
Hypothesis P_run_cont : ∀ k x w, P w → wp (run_cont k x) (λ _, P) (λ _, P) w.

Lemma react_after_handle e w :
  wp (handle e) (λ _, P) (λ _, P) w → wp (react e) (λ _, P) (λ _, P) w.
Proof.
  intros He. unfold react. apply wp_bind. eapply wp_mono; [exact He| |done].
  intros [] w1 Hw1. apply wp_bind, wp_get. apply wp_final.
  by apply (drain_untouched (HasPromises0:=world_promises) run_cont D P).
Qed.

Lemma run_events_keep es w :
  Forall (λ e, allowed e = true) es → P w → P (final (run_events es w)).
Proof.
  intros Hes Hw. apply (wp_final (run_events es) P).
  revert w Hw. induction Hes as [|e es He _ IH]; intros w Hw; simpl.
  - by apply wp_ret.
  - apply wp_bind.
    eapply wp_mono; [by apply react_after_handle, P_handle| |done].
    intros b w1 Hw1. by apply IH.
Qed.

End runs.

(** ** Methods, handlers and callbacks keep a dormant set dormant *)

Section methods.
Context `{!PathLib}.
Implicit Types (D : gset promise) (w : world).

Lemma Dormant_store D w s :
  Dormant D w → dormant D s → Dormant D (set_promises s w).
Proof. by intros [_ Hh] Hs. Qed.

Lemma Lost_store D w s : Lost D w → dormant D s → Lost D (set_promises s w).
Proof. by intros [[_ Hh] Hc] Hs. Qed.

(** Every handler but the one of [finished] keeps a dormant set. *)
Lemma handle_Dormant D e w :
  negb (is_finished e) = true → Dormant D w →
  wp (handle e) (λ _, Dormant D) (λ _, Dormant D) w.
Proof.
  intros He Hw. destruct e; try done; simpl; unfold when_listening;
    flatten_Dormant; wp_act; dormant_auto.
Qed.

Lemma run_cont_Dormant D k x w :
  Dormant D w → wp (run_cont k x) (λ _, Dormant D) (λ _, Dormant D) w.
Proof. intros Hw. flatten_Dormant; destruct k; simpl; wp_act; dormant_auto. Qed.

(** Every handler keeps a set nothing holds. *)
Lemma handle_Lost D e w :
  Lost D w → wp (handle e) (λ _, Lost D) (λ _, Lost D) w.
Proof.
  intros Hw. destruct e; simpl; unfold when_listening;
    flatten_Dormant; wp_act; dormant_auto.
Qed.

Lemma run_cont_Lost D k x w :
  Lost D w → wp (run_cont k x) (λ _, Lost D) (λ _, Lost D) w.
Proof. intros Hw. flatten_Dormant; destruct k; simpl; wp_act; dormant_auto. Qed.

(** [startElevated] forgets the continuation. *)
Lemma handle_starts D e w :
  starts e = true → Dormant D w →
  wp (handle e) (λ _, Lost D) (λ _, Lost D) w.
Proof.
  intros He Hw. destruct e; try done; simpl;
    flatten_Dormant; wp_act; dormant_auto.
Qed.

Lemma run_events_Dormant D es w :
  Forall (λ e, negb (is_finished e) = true) es → Dormant D w →
  Dormant D (final (run_events es w)).
Proof.
  apply (run_events_keep D (Dormant D) (negb ∘ is_finished));
    [by intros ? []|apply Dormant_store|apply handle_Dormant|apply run_cont_Dormant].
Qed.

Lemma run_events_Lost D es w : Lost D w → Lost D (final (run_events es w)).
Proof.
  apply (run_events_keep D (Lost D) (λ _, true));
    [by intros ? [[] ?]|apply Lost_store|by intros; apply handle_Lost
    |apply run_cont_Lost|by apply Forall_true].
Qed.

(** What is held has been allocated. *)
Lemma held_below w : Inv w → Forall (λ q, q < next_id (pstore w)) (held w).
Proof.
  intros [_ _ Hsv Hh Ht _ _ _ _]. unfold held. rewrite !Forall_app. split_and!.
  - apply Forall_forall. intros q (e & He & Hq)%list_elem_of_omap.
    rewrite Forall_forall in Ht. by apply (Ht e).
  - destruct (serve_callback w); [|done]. apply Forall_singleton. by apply Hsv.
  - destruct (handlers w); [|done]. apply Forall_singleton. by apply Hh.
Qed.

(** A stop that waits leaves its promise dormant. *)
Lemma stopElevated_Dormant w l :
  Inv w → mOutstanding (this w) = Val l → l ≠ [] →
  wp stopElevated (λ p w', Dormant {[p]} w' ∧ mDone (this w') = Val p)
     (λ _ _, False) w.
Proof.
  intros Hw Hl Hne. pose proof (held_below w Hw) as Hheld.
  destruct Hw as [Hwf _ _ _ _ _ _ _ _]. destruct l as [|a l]; [done|].
  destruct w as [[] ? ? ? ? ?]. simpl in *. subst. wp_act; simplify_eq/=.
  split; [split|done]; simpl; [by apply dormant_new|].
  eapply Forall_impl; [exact Hheld|]. intros q Hq ?%elem_of_singleton.
  simpl in *. lia.
Qed.

(** A start forgets the continuation, and the callbacks it leaves behind
    do not bring it back. *)
Lemma react_starts D e w :
  starts e = true → Dormant D w → wp (react e) (λ _, Lost D) (λ _, Lost D) w.
Proof.
  intros He Hw.
  apply (react_after_handle D (Lost D));
    [by intros ? [[] ?]|apply Lost_store|apply run_cont_Lost|by apply handle_starts].
Qed.

Lemma Dormant_pending D p w : Dormant D w → p ∈ D → settled (pstore w) !! p = None.
Proof. intros [Hd _]. by apply dormant_pending. Qed.

Lemma react_Dormant D e w :
  negb (is_finished e) = true → Dormant D w →
  wp (react e) (λ _, Dormant D) (λ _, Dormant D) w.
Proof.
  intros He Hw.
  apply (react_after_handle D (Dormant D));
    [by intros ? []|apply Dormant_store|apply run_cont_Dormant
    |by apply handle_Dormant].
Qed.

(** After events without [finished], a start and any events at all, a
    dormant set is dormant still. *)
Lemma run_events_restart D es e es' w :
  Forall (λ e, negb (is_finished e) = true) es → starts e = true →
  Dormant D w → Dormant D (final (run_events (es ++ e :: es') w)).
Proof.
  intros Hes He Hw. apply (wp_final (run_events (es ++ e :: es')) (Dormant D)).
  revert w Hw. induction Hes as [|e1 es H1 _ IH]; intros w Hw; simpl.
  - apply wp_bind. eapply wp_mono; [by apply react_starts|..].
    + intros b w1 Hw1. apply wp_final. by apply run_events_Lost.
    + by intros ? ? [].
  - apply wp_bind. eapply wp_mono; [by apply react_Dormant| |done].
    intros b w1 Hw1. by apply IH.
Qed.

End methods.

(** ** A stop that waits *)

Section theorems.
Context `{!PathLib}.

Lemma not_finished es :
  Forall (λ e, is_finished e = false) es →
  Forall (λ e, negb (is_finished e) = true) es.
Proof. intros Hes. eapply Forall_impl; [done|]. by intros e ->. Qed.

(** C7. A stop that waits for outstanding operations is completed by a
    finished message and by nothing else: whatever is called and whatever
    the environment answers afterwards, the disconnect of the worker
    included, the promise of the stop is pending as long as no finished
    message arrives. *)
Theorem stop_needs_finished w l es :
  Inv w → mOutstanding (this w) = Val l → l ≠ [] →
  Forall (λ e, is_finished e = false) es →
  wp stopElevated
     (λ p w1, settled (pstore (final (run_events es w1))) !! p = None)
     (λ _ _, False) w.
Proof.
  intros Hw Hl Hne Hes%not_finished.
  eapply wp_mono; [by eapply stopElevated_Dormant| |done].
  intros p w1 [Hd _]. simpl.
  apply (Dormant_pending {[p]}); [by apply run_events_Dormant|set_solver].
Qed.

(** C8. A start while a stop waits loses the stop: [startElevated] sets
    [mDone] to null, so that after it no message of the worker and no
    answer of the environment settles the promise of the stop, the
    finished messages of its operations included. *)
Theorem restart_loses_stop w l es e es' :
  Inv w → mOutstanding (this w) = Val l → l ≠ [] →
  Forall (λ e, is_finished e = false) es → starts e = true →
  wp stopElevated
     (λ p w1,
        settled (pstore (final (run_events (es ++ e :: es') w1))) !! p = None)
     (λ _ _, False) w.
Proof.
  intros Hw Hl Hne Hes%not_finished He.
  eapply wp_mono; [by eapply stopElevated_Dormant| |done].
  intros p w1 [Hd _]. simpl.
  apply (Dormant_pending {[p]}); [by apply run_events_restart|set_solver].
Qed.

End theorems.

(** ** A deployment in which the worker goes away *)

(** From the deployment under way of [ElevateFacade]: [finalize] has run,
    the super class has answered and the stop waits for the two links.
    Promise 7 is the one of the stop, promise 6 the one [finalize]
    returned. *)
Definition w_waiting : world :=
  final (run_events (H:=posix)
           [Finalize "/data"; Settled 5 (Fulfilled VUndefined)] w_linked).

Lemma Dormant_waiting : Dormant {[6; 7]} w_waiting.
Proof. apply (bool_decide_unpack _). by vm_compute. Qed.

(** The promise of [finalize] is never settled when the worker goes away
    without its finished messages. *)
Example finalize_waits_forever es :
  Forall (λ e, is_finished e = false) es →
  settled (pstore (final (run_events (H:=posix) (SocketDisconnected :: es)
                            w_waiting))) !! 6 = None.
Proof.
  intros Hes%not_finished.
  apply (Dormant_pending {[6; 7]}); [|set_solver].
  apply run_events_Dormant; [by constructor|apply Dormant_waiting].
Qed.

Lemma stop_needs_finished_witness :
  wp stopElevated
     (λ p w1, settled (pstore (final (run_events (H:=posix)
        [SocketDisconnected; LogEvent (LogData "info" "bye" "{}");
         Settled 2 (Fulfilled VUndefined); IsLink "/data/a" "/inst/a"] w1)))
        !! p = None)
     (λ _ _, False) w_linked.
Proof.
  apply (stop_needs_finished (H:=posix) w_linked ["/inst/a"; "/inst/b"]);
    [apply Inv_w_linked|by vm_compute|done|by repeat constructor].
Defined.

Lemma restart_loses_stop_witness :
  wp stopElevated
     (λ p w1, settled (pstore (final (run_events (H:=posix)
        ([SocketDisconnected] ++ Prepare "/data" false ::
         [ServerStarted; Initialised 8; Finished "/inst/a"; Finalize "/data";
          Settled 10 (Fulfilled VUndefined)]) w1))) !! p = None)
     (λ _ _, False) w_linked.
Proof.
  apply (restart_loses_stop (H:=posix) w_linked ["/inst/a"; "/inst/b"]);
    [apply Inv_w_linked|by vm_compute|done|by repeat constructor|done].
Defined.
