(* ===== verification/Session.v ===== *)
(** * Session: the elevation session as the specification describes it

    The abstract state machine of the specification (spec.md, sections 3
    and 4.1): a session is Idle, Starting, Active, Draining or Stopped; it
    tracks the paths of the requests that wait for their completion in a
    set; a stop that finds paths pending records a continuation and
    drains.  Nothing here is taken from the sources: this is what the
    activator is compared with in Refinement.v.

    The specification identifies a request by its destination
    ([destination_of]); the machine is parametric in the key so that the
    same machine can be instantiated with the key the sources use.  The
    log [continued] of the continuations invoked is ghost state: it lets
    the invariant say that a continuation is invoked once. *)

From stdpp Require Import base list strings gmap.
From S2P Require Import Prelude.

Module Session.

Inductive state : Type := Idle | Starting | Active | Draining | Stopped.

#[global] Instance state_eq_dec : EqDecision state.
Proof. solve_decision. Defined.

Inductive request : Type :=
| LinkRequest (source destination : string)
| UnlinkRequest (destination : string).

#[global] Instance request_eq_dec : EqDecision request.
Proof. solve_decision. Defined.

(** What the session does to the channel and to the worker. *)
Inductive output : Type :=
| Listen
| Spawn
| Send (r : request)
| Quit
| Close.

#[global] Instance output_eq_dec : EqDecision output.
Proof. solve_decision. Defined.

(** The key of the specification: a request is tracked by its destination. *)
Definition destination_of (r : request) : string :=
  match r with
  | LinkRequest _ destination | UnlinkRequest destination => destination
  end.

Section session.
Context {H K : Type}.
Context (key : request → string).

Record session : Type := Session {
  state_of : state;
  clientHandle : option H;
  pendingPaths : gset string;
  drainContinuation : option K;
  continued : list K;
}.

Inductive action : Type :=
| Start
| Initialised (h : H)
| Dispatch (r : request)
| Completion (path : string)
| Stop (k : K)
| Disconnect.

Definition init : session := Session Idle None ∅ None [].

Definition with_pending (p : gset string) (s : session) : session :=
  Session (state_of s) (clientHandle s) p (drainContinuation s) (continued s).

(** Draining to Stopped: terminate the worker, close the channel, invoke
    the continuation. *)
Definition drained (s : session) (k : K) : session * list output :=
  (Session Stopped None ∅ None (continued s ++ [k]), [Quit; Close]).

(** One transition; [None] is the NotActiveError of a dispatch outside
    Active.  A call the specification gives no transition for leaves the
    session as it is. *)
Definition step (s : session) (a : action) : option (session * list output) :=
  match a with
  | Start =>
      match state_of s with
      | Idle | Stopped => Some (Session Starting None ∅ None (continued s), [Listen; Spawn])
      | _ => Some (s, [])
      end
  | Initialised h =>
      match state_of s with
      | Starting =>
          Some (Session Active (Some h) (pendingPaths s) None (continued s), [])
      | _ => Some (s, [])
      end
  | Dispatch r =>
      match state_of s with
      | Active => Some (with_pending (pendingPaths s ∪ {[key r]}) s, [Send r])
      | _ => None
      end
  | Completion path =>
      let pending := pendingPaths s ∖ {[path]} in
      match state_of s, drainContinuation s with
      | Draining, Some k =>
          if decide (pending = ∅) then Some (drained s k)
          else Some (with_pending pending s, [])
      | _, _ => Some (with_pending pending s, [])
      end
  | Stop k =>
      match state_of s with
      | Active =>
          if decide (pendingPaths s = ∅) then Some (drained s k)
          else Some (Session Draining (clientHandle s) (pendingPaths s) (Some k)
                       (continued s), [])
      | _ => Some (s, [])
      end
  | Disconnect =>
      match state_of s with
      | Active | Draining =>
          Some (Session Stopped None (pendingPaths s) None
                  (continued s ++ option_list (drainContinuation s)), [Close])
      | _ => Some (s, [])
      end
  end.

(** A sequence of actions, stopped by the first NotActiveError. *)
Fixpoint run (s : session) (acts : list action) : option (session * list output) :=
  match acts with
  | [] => Some (s, [])
  | a :: acts' =>
      '(s1, out1) ← step s a;
      '(s2, out2) ← run s1 acts';
      Some (s2, out1 ++ out2)
  end.

(** The invariants of section 3. *)
Record wf (s : session) : Prop := {
  wf_client : is_Some (clientHandle s) ↔ state_of s = Active ∨ state_of s = Draining;
  wf_continuation : is_Some (drainContinuation s) ↔ state_of s = Draining;
  wf_draining : state_of s = Draining → pendingPaths s ≠ ∅;
}.

Lemma wf_init : wf init.
Proof. split; simpl; [split; [by intros [? [=]]|by intros [|]]|split; [by intros [? [=]]|done]|done]. Qed.

Lemma step_wf s a s' out : wf s → step s a = Some (s', out) → wf s'.
Proof.
  intros [Hc Hk Hd]. unfold step, drained, with_pending.
  destruct a, (state_of s) eqn:Hs, (drainContinuation s) eqn:Hdc; simpl;
    repeat case_decide; intros; simplify_eq;
    split; simpl; rewrite ?Hs, ?Hdc, <-?not_eq_None_Some in *;
    try (destruct Hc, Hk; naive_solver).
Qed.

(** A stop is never answered before the pending set is empty. *)
Lemma step_continued s a s' out k :
  step s a = Some (s', out) → k ∈ continued s' → k ∉ continued s →
  a ≠ Disconnect → pendingPaths s' = ∅ ∧ state_of s' = Stopped.
Proof.
  unfold step, drained, with_pending.
  destruct a, (state_of s) eqn:Hs, (drainContinuation s) eqn:Hdc; simpl;
    repeat case_decide; intros; simplify_eq; try done.
Qed.

End session.

Arguments session : clear implicits.
Arguments action : clear implicits.
Arguments init {H K}.

End Session.
