(* ===== verification/Refinement.v ===== *)
(** * Refinement: the activator implements the session of the specification

    The calls that drive the session ([call]), the abstract action each
    stands for ([abs_of]) and what of the effects of the activator the
    session of Session.v speaks about ([observe]).  The relation [R] ties
    a session to a world of the activator; [refinement] shows that a call
    the protocol allows takes related states to related states with the
    same outputs, and [refinement_run] extends this to sequences of calls.
    The session is instantiated with the key of the sources ([key_code]):
    a link is tracked by its source, not by its destination.

    The protocol ([allowed]) is what the proof needs of the caller and of
    the worker: start only when idle or stopped, the worker reports only
    paths that are pending and no path is in flight twice, stop only when
    active, no disconnect while draining.  Outside of it the sources and
    the specification differ; ElevateProps.v proves how. *)

From stdpp Require Import base list strings gmap.
From Stdlib Require Import ZArith Lia.
From S2P Require Import Prelude Promise Path Elevate ElevateProps ElevateInv Session.
Import Promise Activator Session.

#[local] Open Scope nat_scope.

(** ** Calls, actions, observations *)

Inductive call : Type :=
| CStart
| CInitialised (sock : socket)
| CLinkFile (linkPath sourcePath : string)
| CUnlinkFile (linkPath : string)
| CFinished (modPath : string)
| CStop
| CDisconnected.

(** The code a call runs.  The server is taken to listen as soon as it has
    been started: the callback given to [ipc.serve] runs with the start. *)
Definition run_call (c : call) : M world unit :=
  match c with
  | CStart => p ← startElevated; serve_cb p
  | CInitialised sock => when_listening (λ p, on_initialised p sock)
  | CLinkFile linkPath sourcePath => linkFile linkPath sourcePath;; mret ()
  | CUnlinkFile linkPath => unlinkFile linkPath;; mret ()
  | CFinished modPath => when_listening (λ _, on_finished modPath)
  | CStop => stopElevated;; mret ()
  | CDisconnected => when_listening (λ _, on_disconnected)
  end.

Fixpoint run_calls (cs : list call) : M world unit :=
  match cs with
  | [] => mret ()
  | c :: cs' => run_call c;; run_calls cs'
  end.

(** The key under which the sources track a request. *)
Definition key_code (r : request) : string :=
  match r with
  | LinkRequest source _ => source
  | UnlinkRequest destination => destination
  end.

(** The action of the session a call stands for; the continuation of a
    stop is the promise [stopElevated] is about to return. *)
Definition abs_of (w : world) (c : call) : action socket promise :=
  match c with
  | CStart => Start
  | CInitialised sock => Initialised sock
  | CLinkFile linkPath sourcePath => Dispatch (LinkRequest sourcePath linkPath)
  | CUnlinkFile linkPath => Dispatch (UnlinkRequest linkPath)
  | CFinished modPath => Completion modPath
  | CStop => Stop (next_id (pstore w))
  | CDisconnected => Disconnect
  end.

(** What an effect of the activator is to the session. *)
Definition observe (e : effect) : option output :=
  match e with
  | IpcServe _ => Some Listen
  | RunElevated _ => Some Spawn
  | IpcEmit _ (LinkFileMsg source destination) =>
      Some (Send (LinkRequest source destination))
  | IpcEmit _ (RemoveLinkMsg destination) => Some (Send (UnlinkRequest destination))
  | IpcEmit _ QuitMsg => Some Quit
  | IpcServerStop => Some Close
  | _ => None
  end.

(** From [w] to [w'] the activator has done what the session sees as
    [out]. *)
Definition emits (w w' : world) (out : list output) : Prop :=
  ∃ es, trace w' = trace w ++ es ∧ omap observe es = out.

(** The protocol: the actions for which the sources follow the
    specification. *)
Definition allowed (s : session socket promise) (a : action socket promise) : Prop :=
  match a with
  | Start => state_of s = Idle ∨ state_of s = Stopped
  | Initialised _ => state_of s = Starting
  | Dispatch r => state_of s = Active ∧ key_code r ∉ pendingPaths s
  | Completion path =>
      (state_of s = Active ∨ state_of s = Draining) ∧ path ∈ pendingPaths s
  | Stop _ => state_of s = Active
  | Disconnect => state_of s = Active
  end.

#[global] Instance allowed_dec s a : Decision (allowed s a).
Proof. destruct a; simpl; apply _. Defined.

(** The session and the fields of the activator agree. *)
Record agree (s : session socket promise) (w : world) : Prop := {
  R_pending : state_of s ≠ Idle →
    ∃ l, mOutstanding (this w) = Val l ∧ NoDup l ∧ list_to_set l = pendingPaths s;
  R_client : ∀ h, clientHandle s = Some h → mElevatedClient (this w) = Val h;
  R_done :
    match state_of s with
    | Starting | Active => drainContinuation s = None ∧ mDone (this w) = Null
    | Draining =>
        ∃ k, drainContinuation s = Some k ∧ mDone (this w) = Val k
             ∧ settled (pstore w) !! k = None
    | Idle | Stopped => True
    end;
  R_start :
    match state_of s with
    | Starting => ∃ p, handlers w = Some p ∧ settled (pstore w) !! p = None
    | Active | Draining =>
        ∃ p, handlers w = Some p
             ∧ settled (pstore w) !! p = Some (Fulfilled VUndefined)
    | Idle | Stopped => True
    end;
  R_continued : ∀ k, k ∈ continued s →
    settled (pstore w) !! k = Some (Fulfilled VUndefined);
}.

(** The simulation relation: the world satisfies the invariant of the
    activator and agrees with the session. *)
Definition R (s : session socket promise) (w : world) : Prop := Inv w ∧ agree s w.

(** Running the session and the activator side by side: the session
    decides whether the protocol allows the next call. *)
Fixpoint abs_run (s : session socket promise) (w : world) (cs : list call)
    : option (session socket promise * list output) :=
  match cs with
  | [] => Some (s, [])
  | c :: cs' =>
      if decide (allowed s (abs_of w c)) then
        '(s1, out1) ← step key_code s (abs_of w c);
        '(s2, out2) ← abs_run s1 (final (run_call c w)) cs';
        Some (s2, out1 ++ out2)
      else None
  end.

(** A deployment of two links, as calls: start, the worker connects, two
    links, stop, the two completions in the other order. *)
Definition session_calls : list call :=
  [CStart; CInitialised 7; CLinkFile "/data/a" "/inst/a";
   CLinkFile "/data/b" "/inst/b"; CStop; CFinished "/inst/b"; CFinished "/inst/a"].


(** ** Lemmas *)

Lemma list_to_set_snoc (l : list string) x :
  list_to_set (C:=gset string) (l ++ [x]) = list_to_set l ∪ {[x]}.
Proof. rewrite list_to_set_app_L. simpl. set_solver. Qed.

Lemma NoDup_snoc_set (l : list string) x :
  NoDup l → x ∉ list_to_set (C:=gset string) l → NoDup (l ++ [x]).
Proof.
  intros Hl Hx. apply NoDup_app. split_and!; [done| |apply NoDup_singleton].
  intros y Hy ->%list_elem_of_singleton. apply Hx. by apply elem_of_list_to_set.
Qed.

Lemma list_to_set_remove_first (l : list string) x :
  NoDup l →
  list_to_set (C:=gset string) (remove_first x l) = list_to_set l ∖ {[x]}.
Proof.
  induction 1 as [|y l Hy Hl IH]; simpl; [set_solver|].
  case_decide as Hxy; [subst; set_solver|]. simpl. rewrite IH. set_solver.
Qed.

(** Removing a pending path as the finished handler does. *)
Lemma splice_pending (l : list string) x :
  NoDup l → x ∈ list_to_set (C:=gset string) l →
  NoDup (splice (indexOf l x) 1 l) ∧
  list_to_set (C:=gset string) (splice (indexOf l x) 1 l) = list_to_set l ∖ {[x]}.
Proof.
  intros Hl Hx%elem_of_list_to_set. rewrite splice_indexOf_present by done.
  split; [by apply remove_first_NoDup_pres|by apply list_to_set_remove_first].
Qed.

Lemma list_to_set_empty_nil (l : list string) :
  list_to_set (C:=gset string) l = ∅ ↔ l = [].
Proof.
  split; [|by intros ->]. destruct l as [|x l]; [done|]. simpl. set_solver.
Qed.

Lemma emits_refl w : emits w w [].
Proof. exists []. by rewrite app_nil_r. Qed.

Lemma emits_trans w1 w2 w3 out1 out2 :
  emits w1 w2 out1 → emits w2 w3 out2 → emits w1 w3 (out1 ++ out2).
Proof.
  intros (es1 & Ht1 & <-) (es2 & Ht2 & <-). exists (es1 ++ es2).
  split; [by rewrite Ht2, Ht1, (assoc_L (++))|apply omap_app].
Qed.

Lemma startElevated_serve n w :
  Inv_from n w →
  wp startElevated (λ p w', Inv_from n w' ∧ serve_callback w' = Some p)
     (λ _, Inv_from n) w.
Proof. inv_method. Qed.

Lemma run_call_Inv n c w :
  Inv_from n w → wp (run_call c) (λ _, Inv_from n) (λ _, Inv_from n) w.
Proof.
  intros Hw. destruct c; simpl.
  - apply wp_bind. eapply wp_mono; [by apply startElevated_serve| |done].
    intros p w1 [Hw1 Hp]. by apply serve_cb_Inv.
  - apply when_listening_Inv; [done|]. intros. by apply on_initialised_Inv.
  - by apply then_unit_Inv, linkFile_Inv.
  - by apply then_unit_Inv, unlinkFile_Inv.
  - apply when_listening_Inv; [done|]. intros. by apply on_finished_Inv.
  - apply then_unit_Inv. eapply wp_mono; [by apply stopElevated_Inv| |done].
    by intros ? ? [? ?].
  - apply when_listening_Inv; [done|]. intros. by apply on_disconnected_Inv.
Qed.

(** A call keeps the invariant of the world it returns. *)
Lemma run_call_Inv_Ret c w b w' : Inv w → run_call c w = Ret b w' → Inv w'.
Proof.
  intros Hw Hrun. pose proof (run_call_Inv 0 c w) as Hwp.
  unfold wp in Hwp. rewrite Hrun in Hwp. apply Hwp. split; [done|lia].
Qed.

(** ** The simulation *)

Lemma settled_bump (s : store cont) : settled (bump s) = settled s.
Proof. done. Qed.

Lemma settle_store_fresh (s : store cont) p x q y :
  settled s !! q = Some y → settled s !! p = None →
  settled (settle_store p x s) !! q = Some y.
Proof. intros Hq _. by apply settle_store_mono. Qed.

Lemma settle_store_None (s : store cont) p x q :
  settled s !! q = None → p ≠ q → settled (settle_store p x s) !! q = None.
Proof. intros Hq Hne. by rewrite settle_store_other. Qed.

(** Facts about what is settled after the stores of a call. *)
Ltac settled_auto :=
  repeat first
    [ rewrite settled_bump
    | rewrite register_store_settled
    | (apply settle_store_pending; rewrite ?settled_bump)
    | (apply settle_store_mono; rewrite ?settled_bump)
    | (apply settle_store_None; rewrite ?settled_bump) ];
  try first [ done | by eauto | congruence ].

(** One field of [agree] after a call. *)
Ltac agree_leaf :=
  unfold with_pending, drained; simpl; intros;
  lazymatch goal with
  | |- ∃ l, Val _ = Val l ∧ _ =>
      eexists; split; [reflexivity|];
      first [ by split; [apply NoDup_snoc_set|rewrite list_to_set_snoc]
            | by apply splice_pending
            | by split; [apply NoDup_nil_2|]
            | done ]
  | |- ∃ p, Some _ = Some p ∧ _ => eexists; split; [reflexivity|]; settled_auto
  | |- ∃ k, Some _ = Some k ∧ _ =>
      eexists; split_and!; [reflexivity..|]; settled_auto
  | |- _ !! _ = _ =>
      try match goal with
          | H : _ ∈ _ ++ [] |- _ => rewrite app_nil_r in H
          | H : _ ∈ _ ++ [_] |- _ =>
              apply elem_of_app in H as [H| ->%list_elem_of_singleton]
          end;
      settled_auto
  | _ => first [ done | by eauto | congruence ]
  end.

(** The world and the session opened up, with what the invariant says of
    the next promise. *)
Ltac sim_open s w :=
  intros Hinv [Hpend Hcl Hdone Hstart Hcont] Hallow Hstep;
  pose proof (wf_fresh_pending _ (inv_store _ Hinv)) as Hfresh;
  pose proof (inv_done _ Hinv) as Hdlt;
  pose proof (inv_handlers _ Hinv) as Hhlt;
  pose proof (wf_settled _ (inv_store _ Hinv)) as Hslt;
  clear Hinv;
  destruct s as [st ch pp dc cs]; destruct w as [[i nm ds cl o d] tr ps sc h wk];
  simpl in *.

(** The fields of [agree] and the outputs, for a world that is known. *)
Ltac sim_check :=
  split;
  [split; agree_leaf
  |first [ by exists []; split; [simpl; rewrite app_nil_r|]
         | by eexists; split; [simpl; rewrite <-?(assoc_L (++)); reflexivity|] ]].

Ltac sim_prepare :=
  repeat match goal with H : ∃ _, _ |- _ => destruct H as [? H] end;
  unfold drained, with_pending in *; destruct_and?; simplify_eq/=.

(** Run the call, then check. *)
Ltac sim_run :=
  sim_prepare; unfold when_listening; unfold_act; run_M;
  eexists; split; [reflexivity|]; sim_check.

Lemma when_listening_Some (m : promise → M world unit) w p :
  handlers w = Some p → when_listening m w = m p w.
Proof. intros Hp. unfold when_listening. run_M. by rewrite Hp. Qed.

Lemma sim_link s w linkPath sourcePath s' out :
  Inv w → agree s w → allowed s (abs_of w (CLinkFile linkPath sourcePath)) →
  step key_code s (abs_of w (CLinkFile linkPath sourcePath)) = Some (s', out) →
  ∃ w', run_call (CLinkFile linkPath sourcePath) w = Ret () w' ∧ agree s' w'
        ∧ emits w w' out.
Proof.
  sim_open s w. destruct Hallow as [-> Hnew]. simplify_eq/=.
  destruct Hpend as (l & Ho & Hnd & Hset); [done|]. simplify_eq.
  sim_run.
Qed.

Lemma sim_unlink s w linkPath s' out :
  Inv w → agree s w → allowed s (abs_of w (CUnlinkFile linkPath)) →
  step key_code s (abs_of w (CUnlinkFile linkPath)) = Some (s', out) →
  ∃ w', run_call (CUnlinkFile linkPath) w = Ret () w' ∧ agree s' w'
        ∧ emits w w' out.
Proof.
  sim_open s w. destruct Hallow as [-> Hnew]. simplify_eq/=.
  destruct Hpend as (l & Ho & Hnd & Hset); [done|]. simplify_eq.
  sim_run.
Qed.

Lemma sim_start s w s' out :
  Inv w → agree s w → allowed s (abs_of w CStart) →
  step key_code s (abs_of w CStart) = Some (s', out) →
  ∃ w', run_call CStart w = Ret () w' ∧ agree s' w' ∧ emits w w' out.
Proof.
  sim_open s w. destruct Hallow as [->| ->]; simplify_eq/=; sim_run.
Qed.

Lemma sim_initialised s w sock s' out :
  Inv w → agree s w → allowed s (abs_of w (CInitialised sock)) →
  step key_code s (abs_of w (CInitialised sock)) = Some (s', out) →
  ∃ w', run_call (CInitialised sock) w = Ret () w' ∧ agree s' w'
        ∧ emits w w' out.
Proof.
  sim_open s w. subst st. simplify_eq/=.
  destruct Hpend as (l & Ho & Hnd & Hset); [done|]. simplify_eq.
  sim_run.
Qed.

Lemma sim_disconnected s w s' out :
  Inv w → agree s w → allowed s (abs_of w CDisconnected) →
  step key_code s (abs_of w CDisconnected) = Some (s', out) →
  ∃ w', run_call CDisconnected w = Ret () w' ∧ agree s' w'
        ∧ emits w w' out.
Proof.
  sim_open s w. subst st. simplify_eq/=.
  destruct Hpend as (l & Ho & Hnd & Hset); [done|]. simplify_eq.
  sim_run.
Qed.

Lemma sim_stop s w s' out :
  Inv w → agree s w → allowed s (abs_of w CStop) →
  step key_code s (abs_of w CStop) = Some (s', out) →
  ∃ w', run_call CStop w = Ret () w' ∧ agree s' w' ∧ emits w w' out.
Proof.
  sim_open s w. subst st.
  destruct Hpend as (l & Ho & Hnd & Hset); [done|]. simplify_eq.
  case_decide as Hl; simplify_eq/=.
  - apply list_to_set_empty_nil in Hl as ->. sim_run.
  - destruct l as [|y l]; [done|]. sim_run.
Qed.

Lemma sim_finished s w modPath s' out :
  Inv w → agree s w → allowed s (abs_of w (CFinished modPath)) →
  step key_code s (abs_of w (CFinished modPath)) = Some (s', out) →
  ∃ w', run_call (CFinished modPath) w = Ret () w' ∧ agree s' w'
        ∧ emits w w' out.
Proof.
  sim_open s w. destruct Hallow as [Hst Hin].
  destruct Hpend as (l & Ho & Hnd & Hset); [by destruct Hst as [->| ->]|].
  simplify_eq. destruct (splice_pending l modPath Hnd Hin) as [Hnd' Hset'].
  pose proof (length_splice_indexOf l modPath) as Hlen.
  rewrite <-Hset' in Hstep.
  destruct Hst as [->| ->]; simpl in *; sim_prepare;
    erewrite when_listening_Some by done.
  - eexists. split; [by apply on_finished_not_stopping|]. sim_check.
  - case_decide as Hl; simplify_eq/=; eexists.
    + apply list_to_set_empty_nil in Hl. rewrite Hl in Hlen. simpl in Hlen.
      split; [erewrite on_finished_last by (simpl; done || lia);
              by apply finish_Val|].
      simpl. rewrite Hl. sim_check.
    + rewrite list_to_set_empty_nil in Hl.
      split; [apply on_finished_more; [done|];
              destruct (splice _ _ _); simpl in *; [done|lia]|].
      sim_check.
Qed.

(** One call that the protocol allows: the activator returns, in a world
    that is related to the session after its step, having done what the
    session does. *)
Lemma sim_step s w c s' out :
  R s w → allowed s (abs_of w c) → step key_code s (abs_of w c) = Some (s', out) →
  ∃ w', run_call c w = Ret () w' ∧ R s' w' ∧ emits w w' out.
Proof.
  intros [Hinv Hag] Hallow Hstep.
  assert (∃ w', run_call c w = Ret () w' ∧ agree s' w' ∧ emits w w' out)
    as (w' & Hrun & Hag' & Hout).
  { destruct c; [by apply (sim_start s)|by apply (sim_initialised s)
                |by apply (sim_link s)|by apply (sim_unlink s)
                |by apply (sim_finished s)|by apply (sim_stop s)
                |by apply (sim_disconnected s)]. }
  exists w'. split_and!; [done| |done]. split; [|done].
  by eapply run_call_Inv_Ret.
Qed.

Lemma R_init : R init init_world.
Proof.
  split; [apply Inv_init|].
  split; simpl; [by intros []|done..|by intros ? ?%elem_of_nil].
Qed.

(** C2. Refinement.  Along every sequence of calls that the protocol
    allows, the activator implements the session of the specification: no
    call throws, the world stays related to the session, and the messages
    sent to the worker, the start and the stop of the server are the
    outputs of the session, in order. *)
Theorem refinement_run cs s w s' out :
  R s w → abs_run s w cs = Some (s', out) →
  ∃ w', run_calls cs w = Ret () w' ∧ R s' w' ∧ emits w w' out.
Proof.
  revert s w out. induction cs as [|c cs IH]; intros s w out HR Hrun; simpl in *.
  { simplify_eq. exists w. split_and!; [done..|apply emits_refl]. }
  case_decide as Hallow; [|done].
  destruct (step key_code s (abs_of w c)) as [[s1 out1]|] eqn:Hstep; [|done].
  destruct (sim_step s w c s1 out1 HR Hallow Hstep) as (w1 & Hc & HR1 & Hout1).
  simpl in Hrun. rewrite Hc in Hrun. simpl in Hrun.
  destruct (abs_run s1 w1 cs) as [[s2 out2]|] eqn:Hrest; simplify_eq/=.
  destruct (IH s1 w1 out2 HR1 Hrest) as (w' & Hcs & HR' & Hout2).
  exists w'. split_and!; [|done|by eapply emits_trans].
  run_M. by rewrite Hc.
Qed.

Lemma refinement_run_witness :
  ∃ w', run_calls session_calls init_world = Ret () w'
        ∧ R (Session Stopped None ∅ None [3]) w'
        ∧ emits init_world w'
            [Listen; Spawn; Send (LinkRequest "/inst/a" "/data/a");
             Send (LinkRequest "/inst/b" "/data/b"); Quit; Close].
Proof. apply (refinement_run _ init); [apply R_init|by vm_compute]. Defined.

