(* ===== verification/ModVersion.v ===== *)
(** * ModVersion: is there a newer file of a mod on the server

    Model of src/extensions/nexus_integration/util/checkModsVersion.ts.
    The records are the fields of the nexus-api types that the file reads.
    [findLatestUpdate] follows the chain of file updates; the source
    recurses without a bound, here the depth of the recursion is the fuel
    and running out of it is the [RangeError] of an exhausted call stack.
    What the functions dispatch to the Redux store and what they log is
    appended to a trace.  The two exported functions ask the server and
    continue when it answers: they are modelled as the request they make
    together with the callback that runs on the answer. *)

From stdpp Require Import base list strings gmap pretty.
From Stdlib Require Import ZArith Lia.
From S2P Require Import Prelude JsValue.

#[local] Open Scope Z_scope.

Module CheckModsVersion.

(** ** Data *)

(** nexus-api [IFileUpdate].  The update that [updateFileAttributes]
    builds takes its old id and old name from the attributes of the mod,
    which are untyped. *)
Record IFileUpdate : Type := {
  old_file_id : jsval;
  old_file_name : jsval;
  new_file_id : Z;
  new_file_name : string;
  fu_uploaded_time : string;
  fu_uploaded_timestamp : Z;
}.

(** nexus-api [IFileInfo] *)
Record IFileInfo : Type := {
  file_id : Z;
  category_id : Z;
  category_name : slot string;
  changelog_html : slot string;
  file_name : string;
  mod_version : string;
  version : string;
  uploaded_time : string;
  uploaded_timestamp : Z;
}.

(** nexus-api [IModFiles] *)
Record IModFiles : Type := {
  files : list IFileInfo;
  file_updates : list IFileUpdate;
}.

(** nexus-api [IModInfo]; [endorsement] holds the [endorse_status]. *)
Record IModInfo : Type := {
  summary : string;
  description : string;
  picture_url : string;
  author : string;
  endorsement : option string;
  info_category_id : Z;
}.

(** nexus-api [NexusError]; an error of another class has no status code
    and no request. *)
Record NexusError : Type := {
  statusCode : option Z;
  request : option string;
  message : string;
}.

(** [IMod]: its id and its attributes, which may be missing. *)
Record IMod : Type := {
  mod_id : string;
  attributes : option (gmap string jsval);
}.

(** The actions of mod_management/actions/mods that are dispatched. *)
Inductive action : Type :=
| setModAttributes (gameId modId : string) (attributes : list (string * jsval))
| setModAttribute (gameId modId key : string) (value : jsval).

Inductive effect : Type :=
| Dispatch (a : action)
| Log (level text error : string) (gameId modId : jsval).

Definition trace : Type := list effect.

(** [semvish.eq(a, b)]; [None] when it throws. *)
Class Semvish := { semvish_eq : string → jsval → option bool }.

(** ** Helpers of util/ *)

(** [getSafe(attributes, [key], fallback)] *)
Definition getSafe (attributes : option (gmap string jsval)) (key : string)
    (fallback : jsval) : jsval :=
  match attributes with
  | Some m => default fallback (m !! key)
  | None => fallback
  end.

Definition dispatch (a : action) : M trace unit := modify (λ t, t ++ [Dispatch a]).

Definition log (level text error : string) (gameId modId : jsval) : M trace unit :=
  modify (λ t, t ++ [Log level text error gameId modId]).

(** ** findLatestUpdate *)

Fixpoint findLatestUpdate (fuel : nat) (fileUpdates updateChain : list IFileUpdate)
    (fileId : jsval) : option (list IFileUpdate) :=
  match fuel with
  | O => None
  | S fuel' =>
      match find (λ file, strict_eq (old_file_id file) fileId) fileUpdates with
      | Some updatedFile =>
          findLatestUpdate fuel' fileUpdates (updateChain ++ [updatedFile])
            (JNum (new_file_id updatedFile))
      | None => Some updateChain
      end
  end.

(** ** updateModAttributes *)

Definition updateModAttributes (gameId : string) (md : IMod) (modInfo : IModInfo)
    : M trace unit :=
  let attributes0 :=
    [("shortDescription", JStr (summary modInfo));
     ("description", JStr (description modInfo));
     ("pictureUrl", JStr (picture_url modInfo));
     ("author", JStr (author modInfo))] in
  let attributes1 :=
    match endorsement modInfo with
    | Some endorse_status => attributes0 ++ [("endorsed", JStr endorse_status)]
    | None => attributes0
    end in
  let attributes2 :=
    if strict_eq (getSafe (attributes md) "category" JUndefined) JUndefined
    then attributes1 ++ [("category", JNum (info_category_id modInfo))]
    else attributes1 in
  dispatch (setModAttributes gameId (mod_id md) attributes2).

(** ** updateLatestFileAttributes *)

Definition updateLatestFileAttributes (gameId : string) (md : IMod)
    (file : IFileInfo) (changelog : string) : M trace unit :=
  let attributes :=
    [("newestVersion", JStr (version file));
     ("newestFileId",
      if bool_decide (category_name file = Val "OLD_VERSION")
         || negb (truthy (of_slot (category_name file)))
      then JStr "unknown"
      else JNum (file_id file));
     ("newestChangelog",
      if bool_decide (0 < String.length changelog)%nat
      then JObj [("format", JStr "html"); ("content", JStr changelog)]
      else JUndefined)] in
  dispatch (setModAttributes gameId (mod_id md) attributes).

(** ** updateFileAttributes *)

(** [file => (file.category_id !== 4) && (file.category_id !== 6)] *)
Definition not_old (file : IFileInfo) : bool :=
  negb (bool_decide (category_id file = 4)) && negb (bool_decide (category_id file = 6)).

(** The update assumed when the chain gives none: to the only file that
    is not old, unless that is the installed one. *)
Definition assumed_update (md : IMod) (fileId : jsval) (modFiles : IModFiles)
    (fileUpdates : list IFileUpdate) : list IFileUpdate :=
  match List.filter not_old (files modFiles) with
  | [notOld0] =>
      if negb (strict_eq (JNum (file_id notOld0)) fileId)
      then [{| old_file_id := fileId;
               old_file_name := getSafe (attributes md) "logicalFileName" JUndefined;
               new_file_id := file_id notOld0;
               new_file_name := file_name notOld0;
               fu_uploaded_time := uploaded_time notOld0;
               fu_uploaded_timestamp := uploaded_timestamp notOld0 |}]
      else fileUpdates
  | _ => fileUpdates
  end.

(** The change logs of the files the updates lead to, joined. *)
Definition collect_changelog (modFiles : IModFiles) (fileUpdates : list IFileUpdate)
    : string :=
  join "</br>"
    (List.filter (λ change, negb (bool_decide (change = Undefined)))
       ((λ fileUpdate,
           match find (λ iter, bool_decide (file_id iter = new_file_id fileUpdate))
                      (files modFiles) with
           | Some file => changelog_html file
           | None => Undefined
           end) <$> fileUpdates)).

(** [mod.attributes.version] *)
Definition attributes_version (md : IMod) : M trace jsval :=
  match attributes md with
  | Some m => mret (default JUndefined (m !! "version"))
  | None => throw (TypeError "Cannot read property 'version' of undefined")
  end.

Section with_semvish.
Context `{!Semvish}.

Definition updateFileAttributes (gameId : string) (md : IMod) (modFiles : IModFiles)
    : M trace unit :=
  let fileId := getSafe (attributes md) "fileId" JUndefined in
  let latestFileId := fileId in
  match findLatestUpdate (S (length (file_updates modFiles))) (file_updates modFiles) []
          latestFileId with
  | None => throw (RangeError "Maximum call stack size exceeded")
  | Some fileUpdates0 =>
      let fileUpdates :=
        if bool_decide (length fileUpdates0 = 0%nat)
        then assumed_update md fileId modFiles fileUpdates0
        else fileUpdates0 in
      let changelog := collect_changelog modFiles fileUpdates in
      let updatedFile0 :=
        match last fileUpdates with
        | Some newest =>
            find (λ file, bool_decide (file_id file = new_file_id newest))
              (files modFiles)
        | None =>
            find (λ file, strict_eq (JNum (file_id file)) fileId)
              (files modFiles)
        end in
      updatedFile ←
        match updatedFile0 with
        | Some file => mret (Some file)
        | None =>
            v ← attributes_version md;
            if truthy v
            then mret (default None
                   (find_throwing (λ file, semvish_eq (mod_version file) v)
                      (files modFiles)))
            else mret None
        end;
      match updatedFile with
      | Some file => updateLatestFileAttributes gameId md file changelog
      | None => mret ()
      end
  end.

End with_semvish.

(** ** errorFromNexus *)

Definition show_num (x : option Z) : string :=
  match x with Some n => pretty n | None => "undefined" end.
Definition show_str (x : option string) : string := default "undefined" x.

(** [x >= n] of a status code that may be undefined. *)
Definition at_least (x : option Z) (n : Z) : bool :=
  match x with Some c => bool_decide (n ≤ c) | None => false end.

Definition errorFromNexus (err : NexusError) : string :=
  if at_least (statusCode err) 500 then
    "Internal server error (" +:+ show_num (statusCode err) +:+ ", "
      +:+ show_str (request err) +:+ "):" +:+ message err
  else if at_least (statusCode err) 400 then
    "Not found (" +:+ show_num (statusCode err) +:+ ", "
      +:+ show_str (request err) +:+ "): " +:+ message err
  else
    message err +:+ " (" +:+ show_num (statusCode err) +:+ ", "
      +:+ show_str (request err) +:+ ")".

(** ** The exported functions *)

(** A call of the server that has been made: its arguments, and what runs
    when the answer [R] arrives.  An exception of [on_answer] rejects the
    promise the function returned. *)
Record pending (R : Type) : Type := Pending {
  request_mod : option Z;
  request_game : string;
  on_answer : R → M trace unit;
}.
Arguments Pending {R} _ _ _.
Arguments request_mod {R} _.
Arguments request_game {R} _.
Arguments on_answer {R} _.

(** How [getModInfo] settles. *)
Inductive info_answer : Type :=
| InfoFulfilled (modInfo : option IModInfo)
| InfoRejected (err : NexusError).

(** An exception, seen by a handler that expects a [NexusError]. *)
Definition as_NexusError (e : js_error) : NexusError :=
  {| statusCode := None; request := None;
     message := match e with TypeError s | RangeError s => s end |}.

Section api.
Context {State Game : Type}.
Context (gameById : State → jsval → Game) (nexusGameId : Game → string).
Context `{!Semvish}.

(** [None]: resolved at once, the server is not asked.  A rejection of
    [getModFiles] has no handler and rejects the returned promise. *)
Definition checkModVersion (state : State) (gameMode : string) (md : IMod)
    : option (pending IModFiles) :=
  match parseInt10 (getSafe (attributes md) "modId" JUndefined) with
  | None => None
  | Some nexusModId =>
      let gameId :=
        js_or (getSafe (attributes md) "downloadGame" JUndefined) (JStr gameMode) in
      let game := gameById state gameId in
      Some (Pending (Some nexusModId) (nexusGameId game)
              (λ result, updateFileAttributes gameMode md result))
  end.

(** The catch handler of [retrieveModInfo]. *)
Definition on_lookup_error (gameMode : string) (md : IMod) (gameId nexusModId : jsval)
    (err : NexusError) : M trace unit :=
  if bool_decide (statusCode err = Some 404) then mret ()
  else
    log "warn" "An error occurred looking up a mod" (errorFromNexus err)
      gameId nexusModId;;
    dispatch (setModAttribute gameMode (mod_id md) "endorsed" (JStr "Undecided")).

(** [(nexusModId === undefined) || (nexusModId.length === 0)] *)
Definition no_mod_id (nexusModId : jsval) : M trace bool :=
  if strict_eq nexusModId JUndefined then mret true
  else match get_length nexusModId with
       | Some n => mret (strict_eq n (JNum 0))
       | None => throw (TypeError "Cannot read property 'length' of null")
       end.

Definition retrieveModInfo (state : State) (gameMode : string) (md : IMod)
    : M trace (option (pending info_answer)) :=
  let nexusModId := getSafe (attributes md) "modId" JUndefined in
  none ← no_mod_id nexusModId;
  if none : bool then mret None
  else
    let gameId := getSafe (attributes md) "downloadGame" (JStr gameMode) in
    let nexusIdNum := parseInt10 nexusModId in
    mret (Some (Pending nexusIdNum (nexusGameId (gameById state gameId))
      (λ answer,
         match answer with
         | InfoFulfilled modInfo =>
             catch
               match modInfo with
               | Some info => updateModAttributes gameMode md info
               | None => mret ()
               end
               (λ e, on_lookup_error gameMode md gameId nexusModId (as_NexusError e))
         | InfoRejected err => on_lookup_error gameMode md gameId nexusModId err
         end))).

End api.

End CheckModsVersion.
