(* ===== verification/ModVersionProps.v ===== *)
(** * ModVersionProps: what checkModsVersion.ts computes

    The update chain as a relation ([path_from]) and [findLatestUpdate]
    against it: the recursion returns exactly when the chain is finite, a
    finite chain never visits an update twice, so a depth of one more than
    the number of updates is enough, and a chain that needs more never
    ends.  Then the attributes that the functions dispatch, branch by
    branch, and the exceptions they can end in. *)

From stdpp Require Import base list strings gmap pretty.
From Stdlib Require Import ZArith Lia.
From S2P Require Import Prelude JsValue ModVersion.
Import CheckModsVersion.

#[local] Open Scope Z_scope.

(** The update that replaces the file [fileId], as the source looks it up. *)
Definition successor (fileUpdates : list IFileUpdate) (fileId : jsval)
    : option IFileUpdate :=
  find (λ file, strict_eq (old_file_id file) fileId) fileUpdates.

(** The chain of updates that starts at [fileId] and ends at a file
    nothing replaces. *)
Inductive path_from (fileUpdates : list IFileUpdate)
    : jsval → list IFileUpdate → Prop :=
| path_end fileId :
    successor fileUpdates fileId = None → path_from fileUpdates fileId []
| path_step fileId u p :
    successor fileUpdates fileId = Some u →
    path_from fileUpdates (JNum (new_file_id u)) p →
    path_from fileUpdates fileId (u :: p).

(** The updates whose old file is a number not below [i]. *)
Definition ahead (i : Z) (fileUpdates : list IFileUpdate) : list IFileUpdate :=
  List.filter
    (λ u, match old_file_id u with JNum o => bool_decide (i ≤ o) | _ => false end)
    fileUpdates.

(** Every update leads to a file with a greater id. *)
Definition increasing (fileUpdates : list IFileUpdate) : Prop :=
  ∀ u, u ∈ fileUpdates → ∃ o, old_file_id u = JNum o ∧ o < new_file_id u.

(** The id of the installed file, as [updateFileAttributes] reads it. *)
Definition installed (md : IMod) : jsval :=
  getSafe (attributes md) "fileId" JUndefined.

(** The file called current by its category: neither old nor removed. *)
Definition is_current (file : IFileInfo) : Prop :=
  ∃ s, category_name file = Val s ∧ s ≠ EmptyString ∧ s ≠ "OLD_VERSION".

(** ** Data of the examples *)

(** A version comparison that never throws: equality of the strings. *)
Definition exact_version : Semvish :=
  {| semvish_eq a b := Some (strict_eq (JStr a) b) |}.

Definition update (old new : Z) : IFileUpdate :=
  {| old_file_id := JNum old; old_file_name := JStr "old.7z";
     new_file_id := new; new_file_name := "new.7z";
     fu_uploaded_time := "2017-06-01"; fu_uploaded_timestamp := 1496275200 |}.

Definition file (id category : Z) (name log : slot string) : IFileInfo :=
  {| file_id := id; category_id := category; category_name := name;
     changelog_html := log; file_name := "file.7z"; mod_version := "1.0";
     version := "1.0"; uploaded_time := "2017-06-01";
     uploaded_timestamp := 1496275200 |}.

(** File 1 was replaced by 2 and 2 by 5; 3 was replaced by 4. *)
Definition sample_updates : list IFileUpdate := [update 1 2; update 2 5; update 3 4].

(** Two files that replace each other. *)
Definition cyclic_updates : list IFileUpdate := [update 1 2; update 2 1].

Definition sample_files : IModFiles :=
  {| files := [file 1 4 (Val "OLD_VERSION") Null;
               file 2 4 (Val "OLD_VERSION") (Val "second");
               file 5 1 (Val "MAIN") (Val "fifth")];
     file_updates := sample_updates |}.

(** The answer for a mod without update chain: one main file. *)
Definition plain_files : IModFiles :=
  {| files := [file 1 4 (Val "OLD_VERSION") Null; file 7 1 (Val "MAIN") (Val "seventh")];
     file_updates := [] |}.

(** An answer in which every file is old. *)
Definition old_files : IModFiles :=
  {| files := [file 1 4 (Val "OLD_VERSION") Null; file 2 6 Null Null];
     file_updates := sample_updates |}.

Definition sample_mod (modId fileId : jsval) : IMod :=
  {| mod_id := "mod1";
     attributes := Some (<["modId" := modId]> (<["fileId" := fileId]> ∅)) |}.

(** The request [checkModVersion] makes for the mod 42. *)
Definition sample_request : pending IModFiles :=
  Pending (Some 42) "skyrim"
    (updateFileAttributes (H:=exact_version) "skyrim" (sample_mod (JStr "42") (JNum 1))).

(** The request [retrieveModInfo] makes for the mod 42. *)
Definition sample_lookup : pending info_answer :=
  match retrieveModInfo (λ (_ : unit) (_ : jsval), "skyrim") (λ g : string, g) ()
          "skyrim" (sample_mod (JStr "42") (JNum 1)) [] with
  | Ret (Some pnd) _ => pnd
  | _ => Pending None EmptyString (λ _, mret ())
  end.

Definition no_such_mod : NexusError :=
  {| statusCode := Some 404; request := Some "mods/42"; message := "no such mod" |}.

Definition bare_mod : IMod := {| mod_id := "mod2"; attributes := None |}.

Section chain.
Context (fileUpdates : list IFileUpdate).
Implicit Types (fileId : jsval) (u : IFileUpdate) (p q chain : list IFileUpdate).

Lemma successor_Some fileId u :
  successor fileUpdates fileId = Some u → u ∈ fileUpdates ∧ old_file_id u = fileId.
Proof.
  intros [Hin Heq]%find_some. split; [by apply list_elem_of_In|].
  by apply strict_eq_true.
Qed.

Lemma findLatestUpdate_S n chain fileId :
  findLatestUpdate (S n) fileUpdates chain fileId =
  match successor fileUpdates fileId with
  | Some u => findLatestUpdate n fileUpdates (chain ++ [u]) (JNum (new_file_id u))
  | None => Some chain
  end.
Proof. done. Qed.

Lemma path_det fileId p q : path_from fileUpdates fileId p → path_from fileUpdates fileId q → p = q.
Proof.
  intros Hp. revert q. induction Hp as [id Hn|id u p Hs _ IH]; intros q Hq.
  - destruct Hq; [done|congruence].
  - destruct Hq as [|id u' q Hs' Hq]; [congruence|].
    simplify_eq. f_equal. by apply IH.
Qed.

(** From an update on the chain the chain goes on as it did. *)
Lemma path_suffix fileId p u :
  path_from fileUpdates fileId p → u ∈ p →
  ∃ q, path_from fileUpdates (old_file_id u) (u :: q) ∧ (length q < length p)%nat.
Proof.
  induction 1 as [|id v p Hs Hp IH]; intros Hu; [by apply elem_of_nil in Hu|].
  apply elem_of_cons in Hu as [->|Hu].
  - exists p. destruct (successor_Some _ _ Hs) as [_ ->].
    split; [by eapply path_step|simpl; lia].
  - destruct (IH Hu) as (q & Hq & Hlen). exists q. split; [done|simpl; lia].
Qed.

Lemma path_NoDup fileId p : path_from fileUpdates fileId p → NoDup p.
Proof.
  induction 1 as [|id u p Hs Hp IH]; [apply NoDup_nil_2|].
  apply NoDup_cons_2; [|done]. intros Hu.
  destruct (path_suffix _ _ _ Hp Hu) as (q & Hq & Hlen).
  destruct (successor_Some _ _ Hs) as [_ Hid]. rewrite Hid in Hq.
  pose proof (path_det _ _ _ Hq (path_step _ _ _ _ Hs Hp)). simplify_eq. lia.
Qed.

Lemma path_subseteq fileId p u : path_from fileUpdates fileId p → u ∈ p → u ∈ fileUpdates.
Proof.
  induction 1 as [|id v p Hs Hp IH]; intros Hu; [by apply elem_of_nil in Hu|].
  apply elem_of_cons in Hu as [->|Hu]; [|by apply IH].
  by destruct (successor_Some _ _ Hs).
Qed.

(** A chain is no longer than the list of updates. *)
Lemma path_length fileId p : path_from fileUpdates fileId p → (length p ≤ length fileUpdates)%nat.
Proof.
  intros Hp. apply submseteq_length, NoDup_submseteq; [by eapply path_NoDup|].
  intros u. by eapply path_subseteq.
Qed.

Lemma path_findLatestUpdate n chain fileId p :
  path_from fileUpdates fileId p → (length p < n)%nat →
  findLatestUpdate n fileUpdates chain fileId = Some (chain ++ p).
Proof.
  intros Hp. revert n chain.
  induction Hp as [id Hn|id u p Hs _ IH]; intros [|n] chain Hlen; simpl in *; try lia.
  - fold (successor fileUpdates id). rewrite Hn. by rewrite app_nil_r.
  - fold (successor fileUpdates id). rewrite Hs, IH by lia. by rewrite <-app_assoc.
Qed.

Lemma findLatestUpdate_path n chain fileId r :
  findLatestUpdate n fileUpdates chain fileId = Some r →
  ∃ p, path_from fileUpdates fileId p ∧ r = chain ++ p ∧ (length p < n)%nat.
Proof.
  revert chain fileId. induction n as [|n IH]; intros chain id; [done|].
  rewrite findLatestUpdate_S. destruct (successor fileUpdates id) as [u|] eqn:Hs.
  - intros (p & Hp & -> & Hlen)%IH. exists (u :: p).
    split_and!; [by eapply path_step|by rewrite <-app_assoc|simpl; lia].
  - intros [= <-]. exists []. split_and!; [by apply path_end|by rewrite app_nil_r|simpl; lia].
Qed.

(** Without an update for [fileId] the chain is empty. *)
Lemma findLatestUpdate_none n chain fileId :
  successor fileUpdates fileId = None →
  findLatestUpdate (S n) fileUpdates chain fileId = Some chain.
Proof. intros Hs. by rewrite findLatestUpdate_S, Hs. Qed.

Lemma ahead_lt u i :
  u ∈ fileUpdates → old_file_id u = JNum i → i < new_file_id u →
  (length (ahead (new_file_id u) fileUpdates) < length (ahead i fileUpdates))%nat.
Proof.
  intros Hu Hi Hlt. apply (filter_length_lt _ _ _ u); [|done|..].
  - intros v. destruct (old_file_id v); try done.
    rewrite !bool_decide_eq_true. lia.
  - rewrite Hi. apply bool_decide_eq_true. lia.
  - rewrite Hi. apply bool_decide_eq_false. lia.
Qed.

Lemma increasing_path_num k i :
  increasing fileUpdates → (length (ahead i fileUpdates) < k)%nat →
  ∃ p, path_from fileUpdates (JNum i) p.
Proof.
  intros Hinc. revert i. induction k as [|k IH]; intros i Hk; [lia|].
  destruct (successor fileUpdates (JNum i)) as [u|] eqn:Hs;
    [|exists []; by apply path_end].
  destruct (successor_Some _ _ Hs) as [Hu Hid].
  destruct (Hinc u Hu) as (o & Ho & Hlt). assert (o = i) as -> by congruence.
  destruct (IH (new_file_id u)) as [p Hp].
  { pose proof (ahead_lt u i Hu Ho Hlt). lia. }
  exists (u :: p). by eapply path_step.
Qed.

Lemma increasing_path fileId :
  increasing fileUpdates → ∃ p, path_from fileUpdates fileId p.
Proof.
  intros Hinc.
  destruct (successor fileUpdates fileId) as [u|] eqn:Hs;
    [|exists []; by apply path_end].
  destruct (successor_Some _ _ Hs) as [Hu Hid].
  destruct (Hinc u Hu) as (o & Ho & Hlt). rewrite <-Hid, Ho.
  by apply (increasing_path_num (S (length (ahead o fileUpdates)))); [|lia].
Qed.

(** What the recursion returns at any depth it returns at a depth of one
    more than the number of updates. *)
Lemma findLatestUpdate_bounded n chain fileId r :
  findLatestUpdate n fileUpdates chain fileId = Some r →
  findLatestUpdate (S (length fileUpdates)) fileUpdates chain fileId = Some r.
Proof.
  intros (p & Hp & -> & _)%findLatestUpdate_path.
  apply path_findLatestUpdate; [done|]. pose proof (path_length _ _ Hp). lia.
Qed.

(** If it has not returned at that depth it never does. *)
Lemma findLatestUpdate_cut chain fileId :
  findLatestUpdate (S (length fileUpdates)) fileUpdates chain fileId = None →
  ∀ n, findLatestUpdate n fileUpdates chain fileId = None.
Proof.
  intros Hnone n.
  destruct (findLatestUpdate n fileUpdates chain fileId) as [r|] eqn:Hn; [|done].
  apply findLatestUpdate_bounded in Hn. congruence.
Qed.

(** C27. [findLatestUpdate] returns exactly when the chain of updates from
    [fileId] ends within the depth of the recursion, and then it returns
    the chain it was given followed by that chain, in order. *)
Theorem findLatestUpdate_spec n chain fileId r :
  findLatestUpdate n fileUpdates chain fileId = Some r ↔
  ∃ p, path_from fileUpdates fileId p ∧ r = chain ++ p ∧ (length p < n)%nat.
Proof.
  split; [apply findLatestUpdate_path|].
  intros (p & Hp & -> & Hlen). by apply path_findLatestUpdate.
Qed.

(** C29. A depth of one more than the number of updates is all the
    recursion ever needs: at any greater depth it returns the same. *)
Theorem findLatestUpdate_fuel n chain fileId :
  (length fileUpdates < n)%nat →
  findLatestUpdate n fileUpdates chain fileId =
  findLatestUpdate (S (length fileUpdates)) fileUpdates chain fileId.
Proof.
  intros Hn.
  destruct (findLatestUpdate n fileUpdates chain fileId) as [r|] eqn:Hr.
  - symmetry. by eapply findLatestUpdate_bounded.
  - symmetry. destruct (findLatestUpdate (S _) _ _ _) as [r|] eqn:Hr'; [|done].
    apply findLatestUpdate_path in Hr' as (p & Hp & -> & Hlen).
    rewrite (path_findLatestUpdate _ chain _ p) in Hr by (done || lia). done.
Qed.

(** C28. The recursion has not returned at that depth exactly when the
    chain from [fileId] has no end: the updates form a cycle, and the call
    ends with the stack exhausted. *)
Theorem findLatestUpdate_no_end chain fileId :
  findLatestUpdate (S (length fileUpdates)) fileUpdates chain fileId = None ↔
  ∀ p, ¬ path_from fileUpdates fileId p.
Proof.
  split.
  - intros Hnone p Hp.
    rewrite (path_findLatestUpdate _ chain _ p) in Hnone; [done|done|].
    pose proof (path_length _ _ Hp). lia.
  - intros Hp. destruct (findLatestUpdate _ _ _ _) as [r|] eqn:Hr; [|done].
    apply findLatestUpdate_path in Hr as (p & ? & _). by destruct (Hp p).
Qed.

(** When every update leads to a file with a greater id, as the ids
    of a server that numbers files in the order of upload do, the
    recursion returns. *)
Theorem findLatestUpdate_increasing chain fileId :
  increasing fileUpdates →
  ∃ p, findLatestUpdate (S (length fileUpdates)) fileUpdates chain fileId
       = Some (chain ++ p).
Proof.
  intros Hinc. destruct (increasing_path fileId Hinc) as [p Hp]. exists p.
  apply path_findLatestUpdate; [done|]. pose proof (path_length _ _ Hp). lia.
Qed.

(** An update that names the same file as old and as new makes the
    recursion run forever, at whatever depth it is cut. *)
Theorem findLatestUpdate_self_update n chain fileId u :
  successor fileUpdates fileId = Some u →
  old_file_id u = JNum (new_file_id u) →
  findLatestUpdate n fileUpdates chain fileId = None.
Proof.
  intros Hs Hu. destruct (successor_Some _ _ Hs) as [_ Hid].
  revert chain. induction n as [|n IH]; intros chain; [done|].
  rewrite findLatestUpdate_S, Hs. rewrite <-Hu, Hid. apply IH.
Qed.

End chain.

(** ** updateFileAttributes *)

Section update.
Context `{!Semvish}.
Implicit Types (md : IMod) (modFiles : IModFiles) (t : trace) (gameId : string).

Lemma dispatch_run a t : dispatch a t = Ret () (t ++ [Dispatch a]).
Proof. done. Qed.

Lemma assumed_update_keep md fileId modFiles l :
  (∀ f, List.filter not_old (files modFiles) = [f] → JNum (file_id f) = fileId) →
  assumed_update md fileId modFiles l = l.
Proof.
  intros Hf. unfold assumed_update.
  destruct (List.filter not_old (files modFiles)) as [|f [|]]; try done.
  rewrite <-(Hf f eq_refl). simpl. by rewrite bool_decide_true.
Qed.

Lemma find_file_id (f : IFileInfo) (l : list IFileInfo) :
  f ∈ l →
  ∃ file, find (λ file, bool_decide (file_id file = file_id f)) l = Some file
          ∧ file ∈ l ∧ file_id file = file_id f.
Proof.
  intros Hf. destruct (find _ l) as [file|] eqn:Hfind.
  - apply find_some in Hfind as [Hin Heq%bool_decide_eq_true].
    exists file. by rewrite list_elem_of_In.
  - apply list_elem_of_In in Hf. eapply find_none in Hfind; [|done].
    by apply bool_decide_eq_false in Hfind.
Qed.

(** No file of the answer has the id [undefined]. *)
Lemma find_undefined (l : list IFileInfo) :
  find (λ file, strict_eq (JNum (file_id file)) JUndefined) l = None.
Proof. by induction l. Qed.

(** The shape every run of [updateFileAttributes] takes once the chain
    [fileUpdates0] has been found. *)
Lemma updateFileAttributes_found gameId md modFiles t fileUpdates file :
  path_from (file_updates modFiles) (installed md) fileUpdates →
  fileUpdates ≠ [] →
  (∀ newest, last fileUpdates = Some newest →
     find (λ file, bool_decide (file_id file = new_file_id newest)) (files modFiles)
     = Some file) →
  updateFileAttributes gameId md modFiles t =
  updateLatestFileAttributes gameId md file (collect_changelog modFiles fileUpdates) t.
Proof.
  intros Hp Hne Hfile. unfold updateFileAttributes. fold (installed md).
  rewrite (path_findLatestUpdate _ _ [] _ fileUpdates Hp)
    by (pose proof (path_length _ _ _ Hp); lia).
  simpl. rewrite bool_decide_false by (by destruct fileUpdates).
  destruct (last fileUpdates) as [newest|] eqn:Hlast;
    [|by apply last_None in Hlast].
  by rewrite (Hfile newest eq_refl).
Qed.

(** C30. When the update chain of the installed file is not empty, the
    file reported as newest is the one the last update of the chain leads
    to, with the change logs of the files along the chain. *)
Theorem updateFileAttributes_chain gameId md modFiles t p u file :
  path_from (file_updates modFiles) (installed md) (p ++ [u]) →
  find (λ file, bool_decide (file_id file = new_file_id u)) (files modFiles) = Some file →
  updateFileAttributes gameId md modFiles t =
  updateLatestFileAttributes gameId md file (collect_changelog modFiles (p ++ [u])) t.
Proof.
  intros Hp Hfile. apply updateFileAttributes_found; [done|by destruct p|].
  intros newest. rewrite last_snoc. by intros [= <-].
Qed.

Lemma updateFileAttributes_no_chain gameId md modFiles t :
  successor (file_updates modFiles) (installed md) = None →
  updateFileAttributes gameId md modFiles t =
  (let fileUpdates := assumed_update md (installed md) modFiles [] in
   updatedFile ←
     match
       match last fileUpdates with
       | Some newest =>
           find (λ file, bool_decide (file_id file = new_file_id newest)) (files modFiles)
       | None =>
           find (λ file, strict_eq (JNum (file_id file)) (installed md)) (files modFiles)
       end
     with
     | Some file => mret (Some file)
     | None =>
         v ← attributes_version md;
         if truthy v
         then mret (default None
                (find_throwing (λ file, semvish_eq (mod_version file) v) (files modFiles)))
         else mret None
     end;
   match updatedFile with
   | Some file =>
       updateLatestFileAttributes gameId md file (collect_changelog modFiles fileUpdates)
   | None => mret ()
   end) t.
Proof.
  intros Hs. unfold updateFileAttributes. fold (installed md).
  by rewrite findLatestUpdate_none.
Qed.

(** C35. Without an update for the installed file, and unless exactly one
    other file is not old, the installed file itself is reported as the
    newest, with an empty change log. *)
Theorem updateFileAttributes_installed gameId md modFiles t file :
  successor (file_updates modFiles) (installed md) = None →
  (∀ f, List.filter not_old (files modFiles) = [f] → JNum (file_id f) = installed md) →
  find (λ file, strict_eq (JNum (file_id file)) (installed md)) (files modFiles)
  = Some file →
  updateFileAttributes gameId md modFiles t =
  updateLatestFileAttributes gameId md file EmptyString t.
Proof.
  intros Hs Hone Hfile. rewrite updateFileAttributes_no_chain by done.
  rewrite assumed_update_keep by done. cbv zeta. cbn [last]. by rewrite Hfile.
Qed.

(** Without an update for the installed file, a single file that is
    not old and is not the installed one is taken for the update: it is
    reported as the newest, with its own change log. *)
Theorem updateFileAttributes_single gameId md modFiles t f :
  successor (file_updates modFiles) (installed md) = None →
  List.filter not_old (files modFiles) = [f] →
  JNum (file_id f) ≠ installed md →
  ∃ file, file ∈ files modFiles ∧ file_id file = file_id f ∧
    updateFileAttributes gameId md modFiles t =
    updateLatestFileAttributes gameId md file
      (match changelog_html file with Val s => s | _ => EmptyString end) t.
Proof.
  intros Hs Hf Hne. rewrite updateFileAttributes_no_chain by done.
  unfold assumed_update, collect_changelog. rewrite Hf.
  destruct (strict_eq (JNum (file_id f)) (installed md)) eqn:Heq;
    [by apply strict_eq_num in Heq|].
  assert (f ∈ files modFiles) as Hin.
  { apply list_elem_of_In, (filter_In not_old). rewrite Hf. by left. }
  destruct (find_file_id f _ Hin) as (file & Hfile & ? & ?).
  exists file. split_and!; [done..|]. cbn [negb last new_file_id fmap list_fmap].
  rewrite Hfile. by destruct (changelog_html file).
Qed.

(** C36. A mod without attributes makes [updateFileAttributes] fail with a
    TypeError at [mod.attributes.version], before anything is dispatched,
    unless exactly one file of the answer is not old. *)
Theorem updateFileAttributes_no_attributes gameId md modFiles t :
  attributes md = None →
  successor (file_updates modFiles) JUndefined = None →
  length (List.filter not_old (files modFiles)) ≠ 1%nat →
  updateFileAttributes gameId md modFiles t =
  Throw (TypeError "Cannot read property 'version' of undefined") t.
Proof.
  intros Hattr Hs Hlen.
  assert (installed md = JUndefined) as Hid by (unfold installed; by rewrite Hattr).
  rewrite updateFileAttributes_no_chain by (by rewrite Hid).
  rewrite assumed_update_keep, Hid.
  - cbv zeta. cbn [last]. rewrite find_undefined.
    unfold attributes_version. by rewrite Hattr.
  - intros f Hf. by rewrite Hf in Hlen.
Qed.

(** C31. [updateFileAttributes] dispatches at most one action, the
    attributes of a file of the answer as [updateLatestFileAttributes]
    writes them, and when it throws it has dispatched nothing. *)
Theorem updateFileAttributes_dispatch gameId md modFiles t :
  wp (updateFileAttributes gameId md modFiles)
     (λ _ t', t' = t ∨ ∃ file changelog, file ∈ files modFiles ∧
        updateLatestFileAttributes gameId md file changelog t = Ret () t')
     (λ _ t', t' = t) t.
Proof.
  unfold updateFileAttributes, attributes_version. cbv zeta.
  wp_go; try (by left); try done.
  all: unfold wp; right; eexists _, _; (split; [|done]).
  - by match goal with H : match last ?l with _ => _ end = Some _ |- _ =>
      destruct (last l); apply find_some in H as [?%list_elem_of_In _] end.
  - by match goal with H : (default None ?x) = Some _ |- _ =>
      destruct x as [[?|]|] eqn:Hf; simplify_eq/=;
      apply find_throwing_Some in Hf as [? _] end.
Qed.

(** With attributes the only exception is the exhausted stack. *)
Lemma updateFileAttributes_safe gameId md modFiles t :
  is_Some (attributes md) →
  wp (updateFileAttributes gameId md modFiles) (λ _ _, True)
     (λ e _, ∃ s, e = RangeError s) t.
Proof.
  intros [m Hm]. unfold updateFileAttributes, attributes_version. cbv zeta.
  rewrite Hm. wp_go; eauto; by unfold wp.
Qed.

(** C37. The stack is exhausted exactly when the chain of updates from the
    installed file has no end. *)
Theorem updateFileAttributes_RangeError gameId md modFiles t :
  (∃ s t', updateFileAttributes gameId md modFiles t = Throw (RangeError s) t') ↔
  ∀ n, findLatestUpdate n (file_updates modFiles) [] (installed md) = None.
Proof.
  split.
  - intros (s & t' & Hthrow). apply findLatestUpdate_cut.
    revert Hthrow. unfold updateFileAttributes, attributes_version. fold (installed md).
    destruct (findLatestUpdate _ _ _ _); [|done]. cbv zeta. run_M.
    repeat case_match; by simplify_eq.
  - intros Hn. unfold updateFileAttributes. fold (installed md). rewrite Hn. eauto.
Qed.

End update.

(** ** The attributes that are written *)

(** [updateLatestFileAttributes] dispatches one action with three
    attributes: the version of the file; its id when its category says it
    is current, and the string unknown when the category is OLD_VERSION,
    empty or missing; the change log as html, or undefined when it is
    empty. *)
Theorem updateLatestFileAttributes_spec gameId md file changelog t :
  ∃ newestFileId newestChangelog,
    updateLatestFileAttributes gameId md file changelog t =
    Ret () (t ++ [Dispatch (setModAttributes gameId (mod_id md)
      [("newestVersion", JStr (version file));
       ("newestFileId", newestFileId);
       ("newestChangelog", newestChangelog)])]) ∧
    (is_current file → newestFileId = JNum (file_id file)) ∧
    (¬ is_current file → newestFileId = JStr "unknown") ∧
    (changelog = EmptyString → newestChangelog = JUndefined) ∧
    (changelog ≠ EmptyString →
     newestChangelog = JObj [("format", JStr "html"); ("content", JStr changelog)]).
Proof.
  eexists _, _. split; [done|]. split_and!.
  - intros (s & Hs & Hne & Hold). rewrite Hs. simpl.
    by rewrite !bool_decide_false by congruence.
  - intros Hcur. destruct (category_name file) as [| |s] eqn:Hs; simpl; try done.
    destruct (decide (s = "OLD_VERSION")) as [->|]; [done|].
    destruct (decide (s = EmptyString)) as [->|]; [done|].
    destruct Hcur. by exists s.
  - by intros ->.
  - intros Hne. by destruct changelog.
Qed.

(** [updateModAttributes] dispatches one action that always carries
    the summary, the description, the picture and the author; the
    endorsement exactly when the server sent one; and the category exactly
    when the mod has none yet, so a category the user has set is never
    overwritten. *)
Theorem updateModAttributes_spec gameId md modInfo t :
  ∃ attrs,
    updateModAttributes gameId md modInfo t =
    Ret () (t ++ [Dispatch (setModAttributes gameId (mod_id md) attrs)]) ∧
    take 4 attrs.*1 = ["shortDescription"; "description"; "pictureUrl"; "author"] ∧
    ("endorsed" ∈ attrs.*1 ↔ is_Some (endorsement modInfo)) ∧
    ("category" ∈ attrs.*1 ↔
       getSafe (attributes md) "category" JUndefined = JUndefined).
Proof.
  eexists. split; [done|].
  destruct (endorsement modInfo) as [e|];
    destruct (getSafe (attributes md) "category" JUndefined) eqn:Hc; simpl;
    (split; [done|]); rewrite ?is_Some_alt; set_solver.
Qed.

(** The text of [errorFromNexus] starts with the class of the status
    code: every code from 500 on is an internal server error, every code
    from 400 to 499 is reported as not found, and anything else, an error
    without a status code included, starts with the message itself. *)
Theorem errorFromNexus_class err :
  match statusCode err with
  | Some c =>
      if bool_decide (500 ≤ c) then
        String.prefix "Internal server error (" (errorFromNexus err) = true
      else if bool_decide (400 ≤ c) then
        String.prefix "Not found (" (errorFromNexus err) = true
      else String.prefix (message err) (errorFromNexus err) = true
  | None => String.prefix (message err) (errorFromNexus err) = true
  end.
Proof.
  unfold errorFromNexus, at_least.
  destruct (statusCode err) as [c|]; repeat case_bool_decide;
    try lia; try done; apply prefix_app.
Qed.

(** ** The exported functions *)

Section api.
Context {State Game : Type}.
Context (gameById : State → jsval → Game) (nexusGameId : Game → string).
Context `{!Semvish}.
Implicit Types (md : IMod) (t : trace) (state : State) (gameMode : string).

Lemma parseInt10_attributes md n :
  parseInt10 (getSafe (attributes md) "modId" JUndefined) = Some n →
  is_Some (attributes md).
Proof. by destruct (attributes md). Qed.

(** C32. [checkModVersion] asks the server only for a mod whose modId
    parses as a number, and then the mod has attributes: handling the
    answer never fails with a TypeError, the only exception left is the
    exhausted stack of a cyclic update chain. *)
Theorem checkModVersion_no_TypeError state gameMode md pnd result t :
  checkModVersion gameById nexusGameId state gameMode md = Some pnd →
  is_Some (request_mod pnd) ∧
  wp (on_answer pnd result) (λ _ _, True) (λ e _, ∃ s, e = RangeError s) t.
Proof.
  unfold checkModVersion.
  destruct (parseInt10 _) as [n|] eqn:Hn; [|done]. intros [= <-]. simpl.
  split; [done|]. eapply updateFileAttributes_safe, parseInt10_attributes, Hn.
Qed.

Lemma no_mod_id_run v t :
  no_mod_id v t =
  match v with
  | JUndefined | JStr EmptyString => Ret true t
  | JNull => Throw (TypeError "Cannot read property 'length' of null") t
  | JObj fields =>
      Ret (strict_eq (default JUndefined
             (snd <$> find (λ kv, bool_decide (kv.1 = "length")) fields)) (JNum 0)) t
  | _ => Ret false t
  end.
Proof. by destruct v as [| | | |[]|]. Qed.

(** C38. What [retrieveModInfo] does with the answer of the server: the
    info of the mod goes to [updateModAttributes]; an answer without info
    and a 404 change nothing; any other error is logged as a warning and
    the mod is marked as not endorsed. *)
Theorem retrieveModInfo_answer state gameMode md t pnd t' :
  retrieveModInfo gameById nexusGameId state gameMode md t = Ret (Some pnd) t' →
  let modId := getSafe (attributes md) "modId" JUndefined in
  let gameId := getSafe (attributes md) "downloadGame" (JStr gameMode) in
  t' = t ∧ request_mod pnd = parseInt10 modId ∧
  (∀ info t2, on_answer pnd (InfoFulfilled (Some info)) t2
              = updateModAttributes gameMode md info t2) ∧
  (∀ t2, on_answer pnd (InfoFulfilled None) t2 = Ret () t2) ∧
  (∀ err t2, statusCode err = Some 404 →
             on_answer pnd (InfoRejected err) t2 = Ret () t2) ∧
  (∀ err t2, statusCode err ≠ Some 404 →
     on_answer pnd (InfoRejected err) t2 =
     Ret () (t2 ++ [Log "warn" "An error occurred looking up a mod"
                      (errorFromNexus err) gameId modId;
                    Dispatch (setModAttribute gameMode (mod_id md) "endorsed"
                                (JStr "Undecided"))])).
Proof.
  unfold retrieveModInfo. run_M. rewrite no_mod_id_run.
  intros Hrun. cbv zeta.
  set (p := Pending _ _ _) in Hrun.
  assert (t' = t ∧ pnd = p) as [-> ->] by (repeat case_match; by simplify_eq).
  subst p. simpl. split_and!; try done.
  - intros err t2 H404. unfold on_lookup_error. by rewrite bool_decide_true.
  - intros err t2 H404. unfold on_lookup_error. rewrite bool_decide_false by done.
    unfold log, dispatch. run_M. by rewrite <-(assoc_L (++)).
Qed.

(** C39. [retrieveModInfo] asks the server whenever the modId is a string
    that is not empty, also when it does not parse as a number; then the
    request carries NaN as the id of the mod.  [checkModVersion] makes no
    request for such a mod. *)
Theorem retrieveModInfo_NaN state gameMode md t s :
  getSafe (attributes md) "modId" JUndefined = JStr s →
  s ≠ EmptyString → parse_int s = None →
  (∃ pnd, retrieveModInfo gameById nexusGameId state gameMode md t = Ret (Some pnd) t
          ∧ request_mod pnd = None) ∧
  checkModVersion gameById nexusGameId state gameMode md = None.
Proof.
  intros Hid Hs Hnan. unfold retrieveModInfo, checkModVersion. rewrite Hid.
  destruct s; [done|]. run_M. rewrite Hnan. eauto.
Qed.

(** A modId that is [null] makes [retrieveModInfo] throw a TypeError
    when it is called, not as a rejected promise. *)
Theorem retrieveModInfo_null state gameMode md t :
  getSafe (attributes md) "modId" JUndefined = JNull →
  retrieveModInfo gameById nexusGameId state gameMode md t =
  Throw (TypeError "Cannot read property 'length' of null") t.
Proof. intros Hid. unfold retrieveModInfo. rewrite Hid. by run_M. Qed.

End api.

(** ** Examples *)

#[local] Existing Instance exact_version.

Ltac path_auto :=
  repeat first [ apply path_end; reflexivity | eapply path_step; [reflexivity|] ].

Lemma sample_increasing : increasing sample_updates.
Proof.
  intros u Hu. repeat (apply elem_of_cons in Hu as [->|Hu]);
    [by eexists; split; [reflexivity|]..|by apply elem_of_nil in Hu].
Qed.

Lemma findLatestUpdate_fuel_witness :
  findLatestUpdate 1000 sample_updates [] (JNum 1) =
  findLatestUpdate (S (length sample_updates)) sample_updates [] (JNum 1).
Proof. apply findLatestUpdate_fuel. simpl. lia. Defined.

Lemma findLatestUpdate_increasing_witness :
  ∃ p, findLatestUpdate (S (length sample_updates)) sample_updates [] (JNum 3)
       = Some ([] ++ p).
Proof. apply findLatestUpdate_increasing, sample_increasing. Defined.

Lemma findLatestUpdate_self_update_witness :
  findLatestUpdate 1000 [update 3 3] [] (JNum 3) = None.
Proof. by apply (findLatestUpdate_self_update _ _ _ _ (update 3 3)). Defined.

Lemma updateFileAttributes_chain_witness :
  updateFileAttributes "skyrim" (sample_mod (JStr "42") (JNum 1))
    sample_files [] =
  updateLatestFileAttributes "skyrim" (sample_mod (JStr "42") (JNum 1))
    (file 5 1 (Val "MAIN") (Val "fifth"))
    (collect_changelog sample_files ([update 1 2] ++ [update 2 5])) [].
Proof. apply updateFileAttributes_chain; [path_auto|reflexivity]. Defined.

Lemma updateFileAttributes_installed_witness :
  updateFileAttributes "skyrim" (sample_mod (JStr "42") (JNum 7))
    plain_files [] =
  updateLatestFileAttributes "skyrim" (sample_mod (JStr "42") (JNum 7))
    (file 7 1 (Val "MAIN") (Val "seventh")) EmptyString [].
Proof.
  apply updateFileAttributes_installed; [reflexivity| |reflexivity].
  by intros f [= <-].
Defined.

Lemma updateFileAttributes_single_witness :
  ∃ file, file ∈ files plain_files ∧ file_id file = 7 ∧
    updateFileAttributes "skyrim" (sample_mod (JStr "42") (JNum 1))
      plain_files [] =
    updateLatestFileAttributes "skyrim" (sample_mod (JStr "42") (JNum 1)) file
      (match changelog_html file with Val s => s | _ => EmptyString end) [].
Proof.
  by apply (updateFileAttributes_single _ _ _ _ (file 7 1 (Val "MAIN") (Val "seventh"))).
Defined.

Lemma updateFileAttributes_no_attributes_witness :
  updateFileAttributes "skyrim" bare_mod old_files [] =
  Throw (TypeError "Cannot read property 'version' of undefined") [].
Proof. by apply updateFileAttributes_no_attributes. Defined.

Lemma checkModVersion_no_TypeError_witness :
  is_Some (request_mod sample_request) ∧
  wp (on_answer sample_request sample_files)
     (λ _ _, True) (λ e _, ∃ s, e = RangeError s) [].
Proof.
  by apply (checkModVersion_no_TypeError
              (λ (_ : unit) (_ : jsval), "skyrim") (λ g : string, g) ()
              "skyrim" (sample_mod (JStr "42") (JNum 1))).
Defined.

Lemma retrieveModInfo_answer_witness :
  request_mod sample_lookup = Some 42 ∧
  on_answer sample_lookup (InfoRejected no_such_mod) [] = Ret () [].
Proof.
  destruct (retrieveModInfo_answer (λ (_ : unit) (_ : jsval), "skyrim")
              (λ g : string, g) () "skyrim" (sample_mod (JStr "42") (JNum 1)) []
              sample_lookup [] eq_refl) as (_ & Hreq & _ & _ & H404 & _).
  split; [exact Hreq|by apply H404].
Defined.

Lemma retrieveModInfo_NaN_witness :
  (∃ pnd, retrieveModInfo (λ (_ : unit) (_ : jsval), "skyrim")
            (λ g : string, g) () "skyrim" (sample_mod (JStr "n/a") (JNum 1)) []
          = Ret (Some pnd) [] ∧ request_mod pnd = None) ∧
  checkModVersion (λ (_ : unit) (_ : jsval), "skyrim")
    (λ g : string, g) () "skyrim" (sample_mod (JStr "n/a") (JNum 1)) = None.
Proof. by apply (retrieveModInfo_NaN _ _ _ _ _ _ "n/a"). Defined.

Lemma retrieveModInfo_null_witness :
  retrieveModInfo (λ (_ : unit) (_ : jsval), "skyrim")
    (λ g : string, g) () "skyrim" (sample_mod JNull (JNum 1)) []
  = Throw (TypeError "Cannot read property 'length' of null") [].
Proof. by apply retrieveModInfo_null. Defined.
