(* ===== verification/ModPaths.v ===== *)
(** * ModPaths: the directories the mods of a game are deployed to

    Model of src/extensions/mod_management/util/getModPaths.ts.  The game
    registry ([getGame]) and the selector of the discovery of the active
    game ([currentGameDiscovery]) are parameters: the function only
    combines what they return. *)

From stdpp Require Import base strings gmap.
From S2P Require Import Prelude.

Module GetModPaths.

(** [IGame], as far as it is used: the method [getModPaths]. *)
Record IGame : Type := {
  game_getModPaths : string → gmap string string;
}.

(** [IDiscoveryResult], as far as it is used: the path, if the game was found. *)
Record IDiscoveryResult : Type := {
  path : option string;
}.

Section with_state.
Context {IState : Type}.
Context (getGame : string → option IGame).
Context (currentGameDiscovery : IState → option IDiscoveryResult).

(** [None] is [undefined]. *)
Definition getModPaths (state : IState) (gameId : string) : option (gmap string string) :=
  match getGame gameId with
  | None => None
  | Some game =>
      match currentGameDiscovery state with
      | None => None
      | Some discovery =>
          match path discovery with
          | None => None
          | Some p => Some (game_getModPaths game p)
          end
      end
  end.

End with_state.
End GetModPaths.

Import GetModPaths.

(** A registry with one game, whose mods go to the directory Data of the
    game, and states that are the discovery of the active game. *)
Definition skyrim : IGame :=
  {| game_getModPaths p := {[ EmptyString := p +:+ "/Data" ]} |}.
Definition sample_getGame (gameId : string) : option IGame :=
  if decide (gameId = "skyrim") then Some skyrim else None.

Section props.
Context {IState : Type}.
Context (getGame : string → option IGame).
Context (currentGameDiscovery : IState → option IDiscoveryResult).


(** Without a discovered path of the active game no game has mod
    paths. *)
Theorem getModPaths_undiscovered (state : IState) (gameId : string) :
  currentGameDiscovery state ≫= path = None →
  getModPaths getGame currentGameDiscovery state gameId = None.
Proof.
  unfold getModPaths. destruct (getGame gameId); [|done].
  destruct (currentGameDiscovery state) as [d|]; simpl; [|done].
  by intros ->.
Qed.

End props.

Lemma getModPaths_undiscovered_witness :
  getModPaths sample_getGame (λ d : option IDiscoveryResult, d)
    (Some {| path := None |}) "skyrim" = None.
Proof. by apply getModPaths_undiscovered. Defined.
