(* ===== verification/JsString.v ===== *)
(** * JsString: the string and array methods of the log loader

    [String.prototype.split], [indexOf], [toLowerCase], [substring] and
    [replace] with a string pattern, and [Array.prototype.sort] and
    [forEach], as the sources call them.  A string is a [string] of Rocq, one
    character per code unit: the model is exact on ASCII text, which is what
    the log files of the program hold.  [split] is structural: after a match
    it skips the rest of the separator with a counter instead of recursing
    on a shorter string. *)

From stdpp Require Import base list sorting strings.
From Stdlib Require Import Ascii ZArith Lia.
From S2P Require Import Prelude.

#[local] Open Scope Z_scope.

Module JsString.

Definition CR : ascii := ascii_of_nat 13.
Definition LF : ascii := ascii_of_nat 10.
(** ['\r\n'] and ['\n'] *)
Definition CRLF : string := String CR (String LF EmptyString).
Definition NL : string := String LF EmptyString.

(** One character of [toLowerCase]: the letters A to Z. *)
Definition lower (a : ascii) : ascii :=
  let n := nat_of_ascii a in
  if ((65 <=? n) && (n <=? 90))%nat then ascii_of_nat (n + 32) else a.

(** [s.toLowerCase()] *)
Fixpoint toLowerCase (s : string) : string :=
  match s with
  | EmptyString => EmptyString
  | String a s' => String (lower a) (toLowerCase s')
  end.

(** [s.slice(n)] for [n ≥ 0]: [s] without its first [n] characters. *)
Fixpoint slice_from (n : nat) (s : string) : string :=
  match n, s with
  | O, _ => s
  | S n', String _ s' => slice_from n' s'
  | S _, EmptyString => EmptyString
  end.

(** [s.indexOf(pat)]: the first position at which [pat] starts, or -1. *)
Fixpoint str_indexOf (pat s : string) : Z :=
  if String.prefix pat s then 0 else
  match s with
  | EmptyString => -1
  | String _ s' => let i := str_indexOf pat s' in if i <? 0 then -1 else i + 1
  end.

(** [s.indexOf(pat) > -1] *)
Definition includes (pat s : string) : bool := -1 <? str_indexOf pat s.

(** [s.substring(start, end)]: the arguments are swapped when [start] is
    the larger one, and clamped at the length. *)
Definition substring (start end_ : nat) (s : string) : string :=
  let lo := (start `min` end_)%nat in
  let hi := (start `max` end_)%nat in
  String.substring lo (hi - lo) s.

(** [s.replace(pat, rep)] with a string pattern: the first occurrence only
    (no [$] pattern occurs in the replacements of the sources). *)
Fixpoint replace (pat rep s : string) : string :=
  if String.prefix pat s then rep +:+ slice_from (String.length pat) s else
  match s with
  | EmptyString => EmptyString
  | String a s' => String a (replace pat rep s')
  end.

(** [a] in front of the first piece. *)
Definition cons_head (a : ascii) (l : list string) : list string :=
  match l with
  | x :: xs => String a x :: xs
  | [] => [String a EmptyString]
  end.

(** The pieces of [s] between the occurrences of [sep], found from the
    left; [skip] characters of a matched separator are still to be passed. *)
Fixpoint split_go (sep : string) (skip : nat) (s : string) : list string :=
  match s with
  | EmptyString => [EmptyString]
  | String a s' =>
      match skip with
      | S k => split_go sep k s'
      | O =>
          if String.prefix sep s
          then EmptyString :: split_go sep (String.length sep - 1) s'
          else cons_head a (split_go sep 0 s')
      end
  end.

(** [s.split(sep)]; the empty separator splits into characters. *)
Definition split (sep s : string) : list string :=
  match sep with
  | EmptyString => (λ a, String a EmptyString) <$> String.list_ascii_of_string s
  | _ => split_go sep 0 s
  end.

(** [l.join(sep)] on an array of strings. *)
Definition join (sep : string) (l : list string) : string := String.concat sep l.

(** [l.forEach((x, i) => ...)] on a state the callback updates. *)
Fixpoint forEach_from {A St : Type} (f : St → A → nat → St) (i : nat)
    (l : list A) (s : St) : St :=
  match l with
  | [] => s
  | x :: l' => forEach_from f (S i) l' (f s x i)
  end.
Definition forEach {A St : Type} (f : St → A → nat → St) (l : list A) (s : St) : St :=
  forEach_from f 0 l s.

(** [l.sort(cmp)]: [a] goes before [b] when [cmp a b ≤ 0]. *)
Definition goes_before {A : Type} (cmp : A → A → Z) (a b : A) : Prop := cmp a b ≤ 0.
#[global] Instance goes_before_dec {A} (cmp : A → A → Z) : RelDecision (goes_before cmp).
Proof. intros a b. unfold goes_before. apply _. Defined.
Definition sort {A : Type} (cmp : A → A → Z) (l : list A) : list A :=
  merge_sort (goes_before cmp) l.

(** ** Lemmas *)

Lemma prefix_cons a p s :
  String.prefix (String a p) (String a s) = String.prefix p s.
Proof. simpl. by destruct (Ascii.ascii_dec a a). Qed.

Lemma prefix_nil s : String.prefix EmptyString s = true.
Proof. by destruct s. Qed.

Lemma str_app_String a s t : String a s +:+ t = String a (s +:+ t).
Proof. done. Qed.

Lemma str_app_nil_r s : s +:+ EmptyString = s.
Proof. induction s as [|a s IH]; [done|]. by rewrite str_app_String, IH. Qed.

Lemma str_app_assoc s t u : (s +:+ t) +:+ u = s +:+ t +:+ u.
Proof. induction s as [|a s IH]; [done|]. by rewrite !str_app_String, IH. Qed.

(** A prefix is what the string starts with. *)
Lemma prefix_inv p s :
  String.prefix p s = true → s = p +:+ slice_from (String.length p) s.
Proof.
  revert s. induction p as [|a p IH]; intros [|b s] Hp; simplify_eq/=; [done..|].
  destruct (Ascii.ascii_dec a b) as [->|]; [|done].
  rewrite str_app_String. f_equal. by apply IH.
Qed.

Lemma prefix_app_true p s : String.prefix p (p +:+ s) = true.
Proof.
  induction p as [|a p IH]; [apply prefix_nil|]. by rewrite str_app_String, prefix_cons.
Qed.

(** A prefix of [s] is a prefix of every extension of [s]. *)
Lemma prefix_app_mono p s t :
  String.prefix p s = true → String.prefix p (s +:+ t) = true.
Proof.
  intros Hp. rewrite (prefix_inv _ _ Hp), str_app_assoc. apply prefix_app_true.
Qed.

Lemma slice_from_app p s : slice_from (String.length p) (p +:+ s) = s.
Proof. induction p as [|a p IH]; [done|]. by rewrite str_app_String. Qed.

Lemma slice_from_0 s : slice_from 0 s = s.
Proof. by destruct s. Qed.

Lemma str_indexOf_ge pat s : -1 ≤ str_indexOf pat s.
Proof.
  induction s as [|a s IH]; cbn [str_indexOf].
  - destruct (String.prefix pat EmptyString); lia.
  - destruct (String.prefix pat (String a s)); [lia|]. cbv zeta.
    destruct (Z.ltb_spec (str_indexOf pat s) 0); lia.
Qed.

(** [includes], unfolded one character. *)
Lemma includes_cons pat a s :
  includes pat (String a s) = String.prefix pat (String a s) || includes pat s.
Proof.
  unfold includes. cbn [str_indexOf].
  destruct (String.prefix pat (String a s)); [done|]. cbv zeta. cbn [orb].
  pose proof (str_indexOf_ge pat s). apply Bool.eq_iff_eq_true.
  destruct (Z.ltb_spec (str_indexOf pat s) 0); rewrite !Z.ltb_lt; lia.
Qed.

Lemma includes_nil pat : includes pat EmptyString = String.prefix pat EmptyString.
Proof. unfold includes. cbn [str_indexOf]. by destruct (String.prefix pat EmptyString). Qed.

(** What occurs in a part occurs in the whole. *)
Lemma includes_app_r pat s t : includes pat t = true → includes pat (s +:+ t) = true.
Proof.
  intros Ht. induction s as [|a s IH]; [done|].
  rewrite str_app_String, includes_cons, IH. apply orb_true_r.
Qed.

Lemma includes_app_l pat s t : includes pat s = true → includes pat (s +:+ t) = true.
Proof.
  induction s as [|a s IH].
  - rewrite includes_nil. destruct pat; [|done]. intros _.
    change (EmptyString +:+ t) with t.
    destruct t; [done|]. by rewrite includes_cons, prefix_nil.
  - rewrite str_app_String, !includes_cons. intros [Hp|Hs]%orb_true_iff.
    + by rewrite <-str_app_String, (prefix_app_mono _ _ _ Hp).
    + rewrite (IH Hs). apply orb_true_r.
Qed.

(** A string occurs in itself. *)
Lemma includes_self s : includes s s = true.
Proof.
  destruct s as [|a s]; [done|]. rewrite includes_cons.
  pose proof (prefix_app_true (String a s) EmptyString) as Hp.
  rewrite str_app_nil_r in Hp. by rewrite Hp.
Qed.

Lemma toLowerCase_app s t :
  toLowerCase (s +:+ t) = toLowerCase s +:+ toLowerCase t.
Proof. induction s as [|a s IH]; [done|]. rewrite !str_app_String. simpl. by rewrite IH. Qed.

(** ** [split] and [join] *)

Lemma cons_head_nonempty a l : cons_head a l ≠ [].
Proof. by destruct l. Qed.

Lemma split_go_nonempty sep k s : split_go sep k s ≠ [].
Proof.
  revert k. induction s as [|a s IH]; intros [|k]; cbn [split_go]; [done..| |apply IH].
  destruct (String.prefix sep (String a s)); [done|apply cons_head_nonempty].
Qed.

Lemma join_cons sep x l : l ≠ [] → join sep (x :: l) = x +:+ sep +:+ join sep l.
Proof. by destruct l. Qed.

Lemma join_cons_head sep a l :
  l ≠ [] → join sep (cons_head a l) = String a (join sep l).
Proof. by destruct l as [|x [|y l]]. Qed.

(** The first element of an array is what its [join] starts with. *)
Lemma join_head sep x l : ∃ r, join sep (x :: l) = x +:+ r.
Proof.
  destruct l as [|y l]; [exists EmptyString; by rewrite str_app_nil_r|].
  by exists (sep +:+ join sep (y :: l)).
Qed.

(** Every element of an array is a part of its [join]. *)
Lemma elem_of_join sep p l : p ∈ l → ∃ a b, join sep l = a +:+ p +:+ b.
Proof.
  induction 1 as [p l|p x l Hin (a & b & IH)].
  - destruct (join_head sep p l) as [r ->]. by exists EmptyString, r.
  - destruct l as [|y l]; [by apply elem_of_nil in Hin|].
    rewrite join_cons, IH by done.
    exists (x +:+ sep +:+ a), b. by rewrite !str_app_assoc.
Qed.

Lemma join_split_go sep k s :
  sep ≠ EmptyString → join sep (split_go sep k s) = slice_from k s.
Proof.
  intros Hsep. revert k. induction s as [|a s IH]; intros [|k]; try done; [|apply IH].
  cbn [split_go slice_from]. destruct (String.prefix sep (String a s)) eqn:Hp.
  - rewrite join_cons, IH by apply split_go_nonempty.
    destruct sep as [|b sep]; [done|]. simpl in Hp.
    destruct (Ascii.ascii_dec b a) as [->|]; [|done].
    replace (String.length (String a sep) - 1)%nat with (String.length sep)
      by (simpl; lia).
    change (EmptyString +:+ ?x) with x.
    rewrite str_app_String. f_equal. symmetry. by apply prefix_inv.
  - by rewrite join_cons_head, IH, slice_from_0 by apply split_go_nonempty.
Qed.

Lemma join_chars s :
  join EmptyString ((λ a, String a EmptyString) <$> String.list_ascii_of_string s) = s.
Proof.
  induction s as [|a s IH]; [done|]. cbn [String.list_ascii_of_string fmap list_fmap].
  destruct s as [|b s]; [done|]. rewrite join_cons by done. by rewrite IH.
Qed.

Lemma split_nonempty sep s : sep ≠ EmptyString → split sep s ≠ [].
Proof. destruct sep; [done|]. intros _. apply split_go_nonempty. Qed.

(** A string without the separator is one piece. *)
Lemma split_none sep s : includes sep s = false → split sep s = [s].
Proof.
  destruct sep as [|b sep].
  { destruct s; [by rewrite includes_nil|by rewrite includes_cons, prefix_nil]. }
  unfold split. induction s as [|a s IH]; [done|].
  rewrite includes_cons. intros [Hp Hs]%orb_false_iff.
  cbn [split_go]. by rewrite Hp, IH.
Qed.

Lemma split_go_pieces sep k s p :
  sep ≠ EmptyString → p ∈ split_go sep k s → includes sep p = false.
Proof.
  intros Hsep. assert (includes sep EmptyString = false) as Hnil.
  { rewrite includes_nil. by destruct sep. }
  revert k p. induction s as [|a s IH]; intros k p.
  { destruct k; simpl; by intros ->%list_elem_of_singleton. }
  destruct k as [|k]; [|apply IH]. cbn [split_go].
  destruct (String.prefix sep (String a s)) eqn:Hp.
  { intros [->|?]%elem_of_cons; [done|by eapply IH]. }
  pose proof (join_split_go sep 0%nat s Hsep) as Hj. rewrite slice_from_0 in Hj.
  destruct (split_go sep 0 s) as [|x xs] eqn:Hx; [by apply split_go_nonempty in Hx|].
  intros [->|?]%elem_of_cons; [|apply (IH 0%nat); rewrite Hx; by right].
  rewrite includes_cons, (IH 0%nat x) by (rewrite Hx; left). rewrite orb_false_r.
  destruct (join_head sep x xs) as [r Hr].
  destruct (String.prefix sep (String a x)) eqn:Hpx; [|done].
  by rewrite <-Hj, Hr, <-str_app_String, (prefix_app_mono _ _ _ Hpx) in Hp.
Qed.

(** What occurs in a piece occurs in the string that was split. *)
Lemma split_includes pat sep s p :
  p ∈ split sep s → includes pat p = true → includes pat s = true.
Proof.
  intros Hin Hp. destruct (elem_of_join sep p _ Hin) as (a & b & Hj).
  assert (join sep (split sep s) = s) as Hs.
  { destruct sep; [apply join_chars|]. rewrite <-(slice_from_0 s) at 2.
    by apply join_split_go. }
  rewrite <-Hs, Hj. by apply includes_app_r, includes_app_l.
Qed.

(** ** [forEach] and [sort] *)

Lemma forEach_from_app {A St} (f : St → A → nat → St) i l k s :
  forEach_from f i (l ++ k) s = forEach_from f (i + length l) k (forEach_from f i l s).
Proof.
  revert i s. induction l as [|x l IH]; intros i s; simpl.
  - by rewrite Nat.add_0_r.
  - rewrite IH. f_equal. lia.
Qed.

Lemma sort_Permutation {A} (cmp : A → A → Z) l : sort cmp l ≡ₚ l.
Proof. apply merge_sort_Permutation. Qed.

Lemma sort_Sorted {A} (cmp : A → A → Z) l :
  (∀ a b, cmp a b ≤ 0 ∨ cmp b a ≤ 0) → Sorted (goes_before cmp) (sort cmp l).
Proof. intros Htotal. by apply (Sorted_merge_sort _ (Total0:=Htotal)). Qed.

End JsString.
