(* ===== verification/LogLoader.v ===== *)
(** * LogLoader: src/extensions/diagnostics_files/util/loadVortexLogs.ts

    [loadVortexLogs] lists the user-data directory, keeps the [.log] files,
    sorts them from the latest name to the earliest, reads them one after
    the other and cuts each text into sessions: a text is split at the line
    that announces a start of the program, a session at ['\r\n'], and a
    session with more than one line is pushed to the result.

    The array [sessions] is local to one call and only the callbacks of that
    call write to it, one at a time ([Promise.each] waits for every file), so
    the promise chain is modelled as a function: the value the returned
    promise is fulfilled with, or the error it is rejected with.  The
    directory, the files and the functions of [path] and of the collator are
    the interface [Host]; [sample_host] is an instance over a list of files. *)

From stdpp Require Import base list sorting strings.
From Stdlib Require Import Ascii ZArith Lia.
From S2P Require Import Prelude JsString.

#[local] Open Scope Z_scope.

Module LoadVortexLogs.
Import JsString.

(** types/iSession: the two object literals the loader builds. *)
Record ILog : Type := {
  text : string;
  type : string;
}.

Record ISession : Type := {
  from : string;
  to : string;
  logs : list ILog;
  fullLog : string;
}.

#[global] Instance ILog_eq_dec : EqDecision ILog.
Proof. solve_decision. Defined.
#[global] Instance ISession_eq_dec : EqDecision ISession.
Proof. solve_decision. Defined.

(** What the loader calls: electron's [remote.app.getPath('userData')],
    [fs.readdirAsync] and [fs.readFileAsync(_, 'utf8')] with the error they
    reject with, [path.extname], [path.join] and [String.localeCompare]. *)
Class Host : Type := {
  Error : Type;
  userData : string;
  readdirAsync : string → Error + list string;
  readFileAsync : string → Error + string;
  extname : string → string;
  path_join : string → string → string;
  localeCompare : string → string → Z;
}.

(** The line the program logs when it starts. *)
Definition separator : string := "- info: --------------------------".

(** [text.split('- info: ---...')] *)
Definition splittedSessions (txt : string) : list string := split separator txt.

(** [sessionElement.split('\r\n')] *)
Definition splittedLogs (sessionElement : string) : list string :=
  split CRLF sessionElement.

(** The [switch (true)] on the lower-cased line: the first case that holds. *)
Definition textType (element : string) : string :=
  if includes "- error:" (toLowerCase element) then "ERROR"
  else if includes "- debug:" (toLowerCase element) then "DEBUG"
  else if includes "- info:" (toLowerCase element) then "INFO"
  else if includes "- warn:" (toLowerCase element) then "WARNING"
  else "".

(** The callback of [splittedLogs.forEach]. *)
Definition push_log (lines : list string) (logElements : list ILog)
    (element : string) (index : nat) : list ILog :=
  if bool_decide (element ≠ "")
     && bool_decide (Z.of_nat index ≠ Z.of_nat (length lines) - 1)
  then logElements ++ [{| text := element; type := textType element |}]
  else logElements.

(** [logElements] after the inner [forEach]. *)
Definition logElements (sessionElement : string) : list ILog :=
  forEach (push_log (splittedLogs sessionElement)) (splittedLogs sessionElement) [].

(** The callback of [splittedSessions.forEach].  The array has more than
    one element where its last element is read. *)
Definition push_session (sessions : list ISession) (sessionElement : string)
    (sessionIndex : nat) : list ISession :=
  let logElements := logElements sessionElement in
  if bool_decide (1 < length logElements)%nat then
    sessions ++ [{|
      from := replace "-" "" (substring 0 31 sessionElement);
      to := from_option (λ l, substring 0 30 (text l)) "" (last logElements);
      logs := logElements;
      fullLog := join NL (text <$> logElements);
    |}]
  else sessions.

(** The [then] callback of [readFileAsync]. *)
Definition read_text (sessions : list ISession) (txt : string) : list ISession :=
  forEach push_session (splittedSessions txt) sessions.

Section with_host.
Context `{Host}.

(** [logPathFiles.filter(...).sort(...)] *)
Definition logFiles (logPathFiles : list string) : list string :=
  sort (λ lhs rhs, localeCompare rhs lhs)
       (filter (λ file, extname file = ".log") logPathFiles).

(** [Promise.each(logFiles, ...)]: the files in order, up to the first one
    that cannot be read. *)
Fixpoint each (logPath : string) (files : list string) (sessions : list ISession)
    : Error + list ISession :=
  match files with
  | [] => inr sessions
  | logFileName :: rest =>
      match readFileAsync (path_join logPath logFileName) with
      | inl e => inl e
      | inr txt => each logPath rest (read_text sessions txt)
      end
  end.

Definition loadVortexLogs : Error + list ISession :=
  let logPath := userData in
  match readdirAsync logPath with
  | inl e => inl e
  | inr logPathFiles => each logPath (logFiles logPathFiles) []
  end.

End with_host.

(** ** A host over a list of files *)

(** The part of a file name from its last dot on, if it has one. *)
Fixpoint last_dot (s : string) : option string :=
  match s with
  | EmptyString => None
  | String a s' =>
      match last_dot s' with
      | Some e => Some e
      | None => if decide (a = "."%char) then Some s else None
      end
  end.

(** [path.extname] on a name without separators: a dot at the start of the
    name does not start an extension. *)
Definition extname_of_name (s : string) : string :=
  match s with
  | String _ s' => if decide (s = "..") then "" else default "" (last_dot s')
  | EmptyString => ""
  end.

Definition compare_codes (a b : string) : Z :=
  match String.compare a b with Lt => -1 | Eq => 0 | Gt => 1 end.

Definition sample_host (dir : string) (files : list (string * string)) : Host := {|
  Error := string;
  userData := dir;
  readdirAsync p := if decide (p = dir) then inr files.*1 else inl "ENOENT"%string;
  readFileAsync p :=
    match list_find (λ f, dir +:+ "/" +:+ f.1 = p) files with
    | Some (_, f) => inr f.2
    | None => inl "ENOENT"%string
    end;
  extname := extname_of_name;
  path_join a b := a +:+ "/" +:+ b;
  localeCompare := compare_codes;
|}.

(** A log of two runs, as the program writes it. *)
Definition line (s : string) : string := s +:+ CRLF.
Definition sample_log : string :=
  line "2017-03-01T10:00:00.000Z - info: --------------------------" +:+
  line "2017-03-01T10:00:00.100Z - info: Vortex Version 0.1.0" +:+
  line "2017-03-01T10:00:01.000Z - debug: init extension" +:+
  line "2017-03-01T10:00:02.000Z - ERROR: failed to read - warn: disk" +:+
  line "2017-03-02T09:00:00.000Z - info: --------------------------" +:+
  line "2017-03-02T09:00:00.100Z - warn: no game"  +:+
  line "2017-03-02T09:00:01.000Z - info: done".

(** The same text with the line ends of Unix. *)
Definition unix_log : string :=
  "2017-03-01T10:00:00.000Z - info: --------------------------" +:+ NL +:+
  "2017-03-01T10:00:00.100Z - info: Vortex Version 0.1.0" +:+ NL +:+
  "2017-03-01T10:00:01.000Z - debug: init extension" +:+ NL.

Definition sample_dir : list (string * string) :=
  [("vortex.log", sample_log); ("settings.json", "{}"); ("vortex1.log", unix_log);
   (".log", sample_log)].

(** ** What the loader is compared with *)

(** The log entry of a line. *)
Definition to_log (element : string) : ILog :=
  {| text := element; type := textType element |}.

(** A session as the loader may build it: at least two lines, none of them
    empty or with a line break in it, each with the type of its text, [to]
    taken from the last line and [fullLog] from all of them. *)
Record session_ok (s : ISession) : Prop := {
  ok_lines : (2 ≤ length (logs s))%nat;
  ok_logs : Forall (λ l, text l ≠ "" ∧ includes CRLF (text l) = false
                         ∧ type l = textType (text l)) (logs s);
  ok_to : ∃ l, last (logs s) = Some l ∧ to s = substring 0 30 (text l);
  ok_fullLog : fullLog s = join NL (text <$> logs s);
}.

(** ** Lemmas *)

Lemma push_log_from lines i l acc :
  (i + length l = length lines)%nat →
  forEach_from (push_log lines) i l acc
  = acc ++ (to_log <$> filter (λ e, e ≠ "") (removelast l)).
Proof.
  revert i acc. induction l as [|x l IH]; intros i acc Hlen; simpl in *.
  { by rewrite app_nil_r. }
  unfold push_log at 2. destruct l as [|y l].
  - rewrite (bool_decide_eq_false_2 (Z.of_nat i ≠ _)) by (simpl in *; lia).
    by rewrite andb_false_r, app_nil_r.
  - rewrite (bool_decide_eq_true_2 (Z.of_nat i ≠ _)) by (simpl in *; lia).
    rewrite andb_true_r, IH by (simpl in *; lia). rewrite filter_cons.
    case_bool_decide; case_decide; try done. by rewrite <-(assoc_L (++)).
Qed.

Lemma logElements_eq chunk :
  logElements chunk = to_log <$> filter (λ e, e ≠ "") (removelast (splittedLogs chunk)).
Proof. unfold logElements, forEach. by rewrite push_log_from. Qed.

(** A line of a chunk holds no line break. *)
Lemma splittedLogs_line chunk e : e ∈ splittedLogs chunk → includes CRLF e = false.
Proof. by apply split_go_pieces. Qed.

Lemma elem_of_removelast {A} (x : A) l : x ∈ removelast l → x ∈ l.
Proof.
  induction l as [|y l IH]; [done|]. destruct l as [|z l].
  { by intros ?%elem_of_nil. }
  change (removelast (y :: z :: l)) with (y :: removelast (z :: l)).
  intros [->|?]%elem_of_cons; [left|right; auto].
Qed.

Lemma logElements_Forall chunk :
  Forall (λ l, text l ≠ "" ∧ includes CRLF (text l) = false
               ∧ type l = textType (text l)) (logElements chunk).
Proof.
  rewrite logElements_eq. apply Forall_fmap, Forall_forall. intros e.
  rewrite list_elem_of_filter. intros [He Hin%elem_of_removelast]. simpl.
  eauto using splittedLogs_line.
Qed.

(** The callbacks only append. *)
Lemma push_session_app acc chunk i :
  push_session acc chunk i = acc ++ push_session [] chunk i.
Proof. unfold push_session. cbv zeta. by case_bool_decide; rewrite ?app_nil_r. Qed.

Lemma forEach_push_session_app i l acc :
  forEach_from push_session i l acc = acc ++ forEach_from push_session i l [].
Proof.
  revert i acc. induction l as [|c l IH]; intros i acc; simpl; [by rewrite app_nil_r|].
  rewrite IH, (IH _ (push_session [] c i)), (push_session_app acc).
  by rewrite (assoc_L (++)).
Qed.

Lemma read_text_app sessions txt : read_text sessions txt = sessions ++ read_text [] txt.
Proof. apply forEach_push_session_app. Qed.

Lemma push_session_ok acc chunk i :
  Forall session_ok acc → Forall session_ok (push_session acc chunk i).
Proof.
  intros Hacc. unfold push_session. cbv zeta. case_bool_decide as Hlen; [|done].
  apply Forall_app. split; [done|]. apply Forall_singleton.
  split; simpl; [lia|apply logElements_Forall| |done].
  destruct (last (logElements chunk)) as [l|] eqn:Hl; [by exists l|].
  apply last_None in Hl. rewrite Hl in Hlen. simpl in Hlen. lia.
Qed.

Lemma forEach_push_session_ok i l acc :
  Forall session_ok acc → Forall session_ok (forEach_from push_session i l acc).
Proof. revert i acc. induction l; simpl; auto using push_session_ok. Qed.

(** A chunk without a line break is no session. *)
Lemma push_session_one_line acc chunk i :
  includes CRLF chunk = false → push_session acc chunk i = acc.
Proof.
  intros Hc. unfold push_session. cbv zeta.
  rewrite logElements_eq. unfold splittedLogs. by rewrite (split_none _ _ Hc).
Qed.

(** The lines of the session of a chunk occur in every text the chunk is a
    piece of. *)
Lemma chunk_lines c txt i s l :
  c ∈ splittedSessions txt → s ∈ push_session [] c i → l ∈ logs s →
  includes (text l) txt = true.
Proof.
  intros Hc. unfold push_session. cbv zeta. case_bool_decide; [|by intros ?%elem_of_nil].
  intros ->%list_elem_of_singleton. simpl. rewrite logElements_eq.
  intros (e & -> & [_ He%elem_of_removelast]%list_elem_of_filter)%list_elem_of_fmap.
  simpl. apply (split_includes _ _ _ _ Hc).
  destruct (elem_of_join CRLF e _ He) as (a & b & Hj).
  assert (join CRLF (splittedLogs c) = c) as Hs.
  { rewrite <-(slice_from_0 c) at 2. by apply join_split_go. }
  rewrite <-Hs, Hj. apply includes_app_r, includes_app_l, includes_self.
Qed.

Section with_host.
Context `{Host}.

Definition readable (logPath f : string) : Prop :=
  ∃ txt, readFileAsync (path_join logPath f) = inr txt.

Lemma each_fulfilled logPath files texts sessions :
  Forall2 (λ f txt, readFileAsync (path_join logPath f) = inr txt) files texts →
  each logPath files sessions = inr (sessions ++ (texts ≫= read_text [])).
Proof.
  intros Hall. revert sessions.
  induction Hall as [|f txt files texts Hf _ IH]; intros sessions; simpl.
  { by rewrite app_nil_r. }
  by rewrite Hf, IH, (read_text_app sessions), (assoc_L (++)).
Qed.

Lemma each_rejected logPath pre f post e sessions :
  Forall (readable logPath) pre →
  readFileAsync (path_join logPath f) = inl e →
  each logPath (pre ++ f :: post) sessions = inl e.
Proof.
  intros Hpre Hf. revert sessions.
  induction Hpre as [|g pre [txt Hg] _ IH]; intros sessions; simpl.
  - by rewrite Hf.
  - by rewrite Hg.
Qed.

(** A run of [each] that fails stopped at a file that cannot be read. *)
Lemma each_inl logPath files sessions e :
  each logPath files sessions = inl e →
  ∃ pre f post, files = pre ++ f :: post ∧ Forall (readable logPath) pre
                ∧ readFileAsync (path_join logPath f) = inl e.
Proof.
  revert sessions. induction files as [|g files IH]; intros sessions; simpl; [done|].
  destruct (readFileAsync (path_join logPath g)) as [e'|txt] eqn:Hg.
  - intros [= ->]. by exists [], g, files.
  - intros (pre & f & post & -> & Hpre & Hf)%IH.
    exists (g :: pre), f, post. split_and!; [done| |done].
    constructor; [by exists txt|done].
Qed.

(** C15. The promise of [loadVortexLogs] is fulfilled, when the directory
    can be listed and every log file read, with the sessions of the files in
    the order of [logFiles]: the latest name first, and inside a file from
    its start to its end. *)
Theorem loadVortexLogs_fulfilled names texts :
  readdirAsync userData = inr names →
  Forall2 (λ f txt, readFileAsync (path_join userData f) = inr txt)
          (logFiles names) texts →
  loadVortexLogs = inr (texts ≫= read_text []).
Proof.
  intros Hdir Hall. unfold loadVortexLogs. cbv zeta. rewrite Hdir.
  by rewrite (each_fulfilled _ _ texts).
Qed.

(** C18. The promise of [loadVortexLogs] is rejected with [e] exactly when
    the directory cannot be listed, or when a log file cannot be read and
    those sorted before it can: the sessions read so far are lost, and the
    files sorted after it are not read. *)
Theorem loadVortexLogs_rejected e :
  loadVortexLogs = inl e ↔
  readdirAsync userData = inl e ∨
  ∃ names pre f post,
    readdirAsync userData = inr names ∧ logFiles names = pre ++ f :: post ∧
    Forall (readable userData) pre ∧ readFileAsync (path_join userData f) = inl e.
Proof.
  unfold loadVortexLogs. cbv zeta. split.
  - destruct (readdirAsync userData) as [e'|names] eqn:Hdir.
    + intros [= ->]. by left.
    + intros (pre & f & post & ? & ? & ?)%each_inl. right. by exists names, pre, f, post.
  - intros [->|(names & pre & f & post & -> & -> & Hpre & Hf)]; [done|].
    by apply each_rejected.
Qed.

(** The files that are read are the names of the directory with the
    extension [.log], each once for each time it is listed, and a collator
    that compares any two names puts them in descending order. *)
Theorem logFiles_sorted names :
  (∀ a b, localeCompare b a ≤ 0 ∨ localeCompare a b ≤ 0) →
  logFiles names ≡ₚ filter (λ file, extname file = ".log") names ∧
  Sorted (λ a b, localeCompare b a ≤ 0) (logFiles names).
Proof.
  intros Htotal. split; [apply sort_Permutation|].
  apply (sort_Sorted (λ lhs rhs, localeCompare rhs lhs)). intros a b. apply Htotal.
Qed.

End with_host.


(** C19. The last line of a session is never logged, whatever it holds: the
    entries are the lines before it that are not empty, in their order. *)
Theorem logElements_drops_last chunk ls e :
  splittedLogs chunk = ls ++ [e] →
  logElements chunk = to_log <$> filter (λ e, e ≠ "") ls.
Proof. intros Hl. by rewrite logElements_eq, Hl, removelast_last. Qed.

(** C16. Every session the loader pushes has at least two lines, none of
    them empty or with a line break in it, each with the type of its text;
    [to] is the start of its last line and [fullLog] its lines joined. *)
Theorem read_text_ok sessions txt :
  Forall session_ok sessions → Forall session_ok (read_text sessions txt).
Proof. apply forEach_push_session_ok. Qed.

(** C20. A text without a carriage return before its line feeds, as a log
    written on Unix, gives no session at all. *)
Theorem read_text_unix sessions txt :
  includes CRLF txt = false → read_text sessions txt = sessions.
Proof.
  intros Htxt. unfold read_text, forEach.
  assert (Forall (λ c, includes CRLF c = false) (splittedSessions txt)) as Hall.
  { apply Forall_forall. intros c Hc.
    destruct (includes CRLF c) eqn:Hi; [|done].
    by rewrite (split_includes _ _ _ _ Hc Hi) in Htxt. }
  generalize 0%nat. induction Hall as [|c l Hc _ IH]; intros i; simpl; [done|].
  by rewrite push_session_one_line.
Qed.

(** Nothing is invented: every line of every session of a text occurs
    in the text. *)
Theorem read_text_lines txt s l :
  s ∈ read_text [] txt → l ∈ logs s → includes (text l) txt = true.
Proof.
  unfold read_text, forEach. generalize 0%nat.
  assert (∀ c, c ∈ splittedSessions txt → c ∈ splittedSessions txt) as Hsub by done.
  revert Hsub. generalize (splittedSessions txt) at 1 3. intros chunks.
  induction chunks as [|c chunks IH]; intros Hsub i; simpl.
  { by intros ?%elem_of_nil. }
  rewrite forEach_push_session_app. intros [Hs|Hs]%elem_of_app Hl.
  - eapply (chunk_lines c); [apply Hsub; left|done..].
  - eapply IH; [|done..]. intros c' ?. apply Hsub. by right.
Qed.

Lemma compare_codes_total a b : compare_codes b a ≤ 0 ∨ compare_codes a b ≤ 0.
Proof.
  unfold compare_codes. rewrite (String.compare_antisym a b).
  destruct (String.compare b a); simpl; lia.
Qed.

Lemma logElements_drops_last_witness :
  logElements ("a" +:+ CRLF +:+ CRLF +:+ "b" +:+ CRLF +:+ "c")
  = [to_log "a"; to_log "b"].
Proof. by apply (logElements_drops_last _ ["a"; ""; "b"] "c"). Defined.

Lemma read_text_ok_witness : Forall session_ok (read_text [] sample_log).
Proof. apply (read_text_ok [] sample_log). constructor. Defined.

Lemma read_text_unix_witness : read_text [] unix_log = [].
Proof. by apply (read_text_unix [] unix_log). Defined.

Lemma read_text_lines_witness :
  includes "2017-03-01T10:00:01.000Z - debug: init extension" sample_log = true.
Proof.
  apply (read_text_lines sample_log
           (default {| from := ""; to := ""; logs := []; fullLog := "" |}
                    (read_text [] sample_log !! 0%nat))
           (to_log "2017-03-01T10:00:01.000Z - debug: init extension"));
    vm_compute; [left|right; left].
Defined.

Lemma loadVortexLogs_fulfilled_witness :
  loadVortexLogs (H:=sample_host "/data" sample_dir)
  = inr ([unix_log; sample_log] ≫= read_text []).
Proof.
  apply (loadVortexLogs_fulfilled (H:=sample_host "/data" sample_dir)
           sample_dir.*1 [unix_log; sample_log]); [done|].
  by repeat constructor.
Defined.

Lemma logFiles_sorted_witness :
  logFiles (H:=sample_host "/data" sample_dir) sample_dir.*1
    ≡ₚ filter (λ file, extname_of_name file = ".log") sample_dir.*1 ∧
  Sorted (λ a b, compare_codes b a ≤ 0)
         (logFiles (H:=sample_host "/data" sample_dir) sample_dir.*1).
Proof.
  apply (logFiles_sorted (H:=sample_host "/data" sample_dir)). intros a b.
  apply compare_codes_total.
Defined.

(** Without its file the same directory rejects, and a file that is not a
    log is never read. *)
Example loadVortexLogs_missing_file :
  loadVortexLogs (H:=sample_host "/data" [("vortex.log", sample_log)]) ≠ inl "ENOENT"
  ∧ loadVortexLogs (H:=sample_host "/home" []) = inr [].
Proof. by vm_compute. Qed.

End LoadVortexLogs.
