(* ===== verification/SaveGames.v ===== *)
(** * SaveGames: src/extensions/gamebryo-savegame-management/src/index.ts

    The extension keeps the save games of the active profile in the Redux
    store.  When a profile is activated it rewrites the save path in the ini
    file of the game, reads the save games of that path into the store and
    watches the directory; a change in the directory refreshes the store
    through a debouncer.

    Every promise chain of the file is linear, so a chain is modelled by the
    synchronous pieces of code between two calls into the environment: a
    piece runs to its end ([M world]), the chain then waits as a [task] for
    the environment to answer, and the answer is an [event].  Chains of
    different activations interleave at these points only, as they do in the
    program.  The store is Redux with the reducer of the host: [dispatch]
    applies it at once.  The module variable [fsWatcher], the closures of
    the debouncers and the tasks in flight are the [world]; the calls into
    parse-ini, fs, the notification area and the extension context are
    appended to its trace.  What nmm-api and util/gameSupport provide is the
    interface [Host]. *)

From stdpp Require Import base list strings gmap.
From Stdlib Require Import ZArith Lia.
From S2P Require Import Prelude JsValue JsString.

#[local] Open Scope Z_scope.

Module SaveGames.

(** ** Data *)

(** [types.IProfile]: the game and the features of a profile. *)
Record IProfile : Type := {
  gameId : string;
  features : option (gmap string jsval);
}.

(** [ISavegame]: a save game is known to the store by its id. *)
Record ISavegame : Type := {
  id : string;
  filePath : string;
}.

#[global] Instance ISavegame_eq_dec : EqDecision ISavegame.
Proof. solve_decision. Defined.

(** [iniFile.data]: sections of keys. *)
Definition IniFile : Type := gmap string (gmap string string).

(** The actions of actions/session. *)
Inductive action : Type :=
| setSavegamePath (savegamePath : string)
| clearSavegames
| setSavegames (savegames : gmap string ISavegame)
| setSaveGameActivity (activity : option string)
| showTransferDialog (show : bool).

(** How a chain ends that nothing catches: the environment rejected a
    promise, or a callback threw. *)
Inductive failure : Type :=
| Rejected (message : string)
| Thrown (e : js_error).

(** Calls into the environment. *)
Inductive effect : Type :=
| Dispatch (a : action)
| ParserRead (t : nat) (path : string)
| ParserWrite (path : string) (iniFile : IniFile)
| EnsureDir (t : nat) (path : string)
| RefreshSavegames (t : nat) (savesPath : option string)
| ShowErrorNotification (message details : string)
| WatcherClose (w : nat)
| Watch (w : nat) (path : string)
| Schedule (d : nat)
| Unhandled (e : failure)
| RegisterAction (group : string) (position : Z) (icon title : string)
| RegisterMainPage (icon title hotkey group : string)
| RegisterReducer (path : list string)
| RegisterProfileFeature (feature type_ icon description : string)
| EventsOn (name : string).

(** nmm-api's selectors and [getSafe] on the state, util/gameSupport, and
    [path].  [gameSupported] is applied to what [activeGameId] returns,
    which is undefined without an active profile. *)
Class Host : Type := {
  State : Type;
  reducer : State → action → State;
  activeProfile : State → option IProfile;
  activeGameId : State → option string;
  profileById : State → string → option IProfile;
  saves : State → gmap string ISavegame;
  gameSupported : option string → bool;
  iniPath : string → string;
  mygamesPath : string → string;
  sep : string;
  path_join : string → string → string;
}.

(** Who called [updateSaves]: the chain of an activation, or a debouncer. *)
Inductive origin : Type := Activation | Debounced.

(** A chain that waits for the environment, with what its closure holds. *)
Inductive task : Type :=
| ReadingIni (profileId : string) (currentProfile : IProfile)
| EnsuringDir (profileId : string) (readPath : string)
| Refreshing (o : origin) (profileId : string) (savesPath : option string)
    (newSavegames : list ISavegame).

(** What a [then] callback returns: a value, or a promise of the
    environment. *)
Inductive returned (A : Type) : Type :=
| Now (a : A)
| Later (t : nat).
Arguments Now {A} a.
Arguments Later {A} t.

Section with_host.
Context `{Host}.

(** The store, the module variable [fsWatcher], the closures of the
    debouncers ([watches]: profile and path of the n-th one), the watchers
    that are open and the debouncers whose timer runs, the chains in flight,
    what has been registered, and the calls made so far. *)
Record world : Type := {
  store : State;
  fsWatcher : option nat;
  watches : list (string * string);
  live : gset nat;
  scheduled : gset nat;
  tasks : gmap nat task;
  next_task : nat;
  registered : bool;
  listening : bool;
  trace : list effect;
}.

Definition init_world (st : State) : world :=
  {| store := st; fsWatcher := None; watches := []; live := ∅; scheduled := ∅;
     tasks := ∅; next_task := 0; registered := false; listening := false;
     trace := [] |}.

Definition set_store (st : State) (w : world) : world :=
  {| store := st; fsWatcher := fsWatcher w; watches := watches w; live := live w;
     scheduled := scheduled w; tasks := tasks w; next_task := next_task w;
     registered := registered w; listening := listening w; trace := trace w |}.
Definition set_watcher (fw : option nat) (ws : list (string * string))
    (lv : gset nat) (w : world) : world :=
  {| store := store w; fsWatcher := fw; watches := ws; live := lv;
     scheduled := scheduled w; tasks := tasks w; next_task := next_task w;
     registered := registered w; listening := listening w; trace := trace w |}.
Definition set_scheduled (sc : gset nat) (w : world) : world :=
  {| store := store w; fsWatcher := fsWatcher w; watches := watches w; live := live w;
     scheduled := sc; tasks := tasks w; next_task := next_task w;
     registered := registered w; listening := listening w; trace := trace w |}.
Definition set_tasks (ts : gmap nat task) (n : nat) (w : world) : world :=
  {| store := store w; fsWatcher := fsWatcher w; watches := watches w; live := live w;
     scheduled := scheduled w; tasks := ts; next_task := n;
     registered := registered w; listening := listening w; trace := trace w |}.
Definition set_registered (r l : bool) (w : world) : world :=
  {| store := store w; fsWatcher := fsWatcher w; watches := watches w; live := live w;
     scheduled := scheduled w; tasks := tasks w; next_task := next_task w;
     registered := r; listening := l; trace := trace w |}.
Definition add_trace (e : effect) (w : world) : world :=
  {| store := store w; fsWatcher := fsWatcher w; watches := watches w; live := live w;
     scheduled := scheduled w; tasks := tasks w; next_task := next_task w;
     registered := registered w; listening := listening w; trace := trace w ++ [e] |}.

(** ** The environment as the code calls it *)

Definition perform (e : effect) : M world unit := modify (add_trace e).

(** [store.getState()] *)
Definition getState : M world State := w ← get; mret (store w).

(** [store.dispatch(a)] *)
Definition dispatch (a : action) : M world unit :=
  modify (λ w, add_trace (Dispatch a) (set_store (reducer (store w) a) w)).

(** A call that returns a promise of the environment: the chain waits. *)
Definition await (k : task) : M world nat :=
  w ← get;
  modify (set_tasks (<[next_task w := k]> (tasks w)) (S (next_task w)));;
  mret (next_task w).

Definition settle (t : nat) : M world unit :=
  modify (λ w, set_tasks (delete t (tasks w)) (next_task w) w).

(** [util.getSafe(profile, ['features', key], fallback)] *)
Definition getSafe (profile : IProfile) (key : string) (fallback : jsval) : jsval :=
  match features profile with
  | Some m => default fallback (m !! key)
  | None => fallback
  end.

(** ** updateSaves *)

(** [updateSaves] up to the call of [refreshSavegames]. *)
Definition updateSaves (o : origin) (profileId : string) (savesPath : option string)
    : M world unit :=
  t ← await (Refreshing o profileId savesPath []);
  perform (RefreshSavegames t savesPath).

(** The callback given to [refreshSavegames]. *)
Definition onAddSave (newSavegames : list ISavegame) (save : ISavegame)
    : M world (list ISavegame) :=
  st ← getState;
  if decide (saves st !! id save = None) then mret (newSavegames ++ [save])
  else mret newSavegames.

(** [savesDict] after the [forEach]. *)
Definition savesDict (newSavegames : list ISavegame) : gmap string ISavegame :=
  foldl (λ d save, <[id save := save]> d) ∅ newSavegames.

(** The [then] callbacks of [updateSaves]. *)
Definition updateSaves_then (newSavegames : list ISavegame) (failedReads : list string)
    : M world (list string) :=
  dispatch (setSavegames (savesDict newSavegames));;
  mret failedReads.

(** ** updateSaveSettings *)

(** [updateSaveSettings] up to the call of [parser.read]. *)
Definition updateSaveSettings (profileId : string) : M world unit :=
  st ← getState;
  match activeProfile st with
  | None => throw (TypeError "Cannot read property 'gameId' of undefined")
  | Some currentProfile =>
      t ← await (ReadingIni profileId currentProfile);
      perform (ParserRead t (iniPath (gameId currentProfile)))
  end.

(** The [then] callback of [parser.read]. *)
Definition updateSaveSettings_then (profileId : string) (currentProfile : IProfile)
    (iniFile : IniFile) : M world (returned (option string)) :=
  let localPath := path_join "Saves" profileId in
  match iniFile !! "General" with
  | None => throw (TypeError "Cannot set property 'SLocalSavePath' of undefined")
  | Some general =>
      let SLocalSavePath :=
        if truthy (getSafe currentProfile "local_saves" (JBool false))
        then localPath else "Saves" +:+ sep in
      let iniFile' := <["General" := <["SLocalSavePath" := SLocalSavePath]> general]> iniFile in
      perform (ParserWrite (iniPath (gameId currentProfile)) iniFile');;
      dispatch (setSavegamePath SLocalSavePath);;
      dispatch clearSavegames;;
      if negb (gameSupported (Some (gameId currentProfile))) then mret (Now None)
      else
        let readPath := mygamesPath (gameId currentProfile) +:+ sep +:+ SLocalSavePath in
        t ← await (EnsuringDir profileId readPath);
        perform (EnsureDir t readPath);;
        mret (Later t)
  end.

(** ** The handlers that [init] registers *)

(** [visible] of the main page and of the profile feature. *)
Definition visible (st : State) : bool := gameSupported (activeGameId st).

Definition init : M world bool :=
  perform (RegisterAction "savegames-icons" 200 "cog" "Transfer Savegames");;
  perform (RegisterMainPage "hdd-o" "Save Games" "S" "per-game");;
  perform (RegisterReducer ["session"; "saves"]);;
  perform (RegisterProfileFeature "local_saves" "boolean" "save"
             "This profile has its own save games");;
  modify (λ w, set_registered true (listening w) w);;
  mret true.

(** The callback given to [context.once]. *)
Definition once_cb : M world unit :=
  perform (EventsOn "clean-savegame-activity");;
  perform (EventsOn "profile-activated");;
  modify (λ w, set_registered (registered w) true w).

(** The callback of the action [Transfer Savegames]. *)
Definition on_transfer : M world unit := dispatch (showTransferDialog true).

Definition on_clean_savegame_activity : M world unit :=
  dispatch (setSaveGameActivity None).

(** The handler of [profile-activated], up to the first promise. *)
Definition on_profile_activated (profileId : string) : M world unit :=
  st ← getState;
  match profileById st profileId with
  | None => mret ()
  | Some profile =>
      if negb (gameSupported (Some (gameId profile))) then mret ()
      else updateSaveSettings profileId
  end.

(** The first [then] of the chain: [savesPath = savesPathIn]. *)
Definition activated_settings (profileId : string) (savesPathIn : option string)
    : M world unit :=
  updateSaves Activation profileId savesPathIn.

Definition notify_failed (failedReads : list string) : M world unit :=
  if decide (0 < length failedReads)%nat
  then perform (ShowErrorNotification "Some saves couldn't be read"
                  (JsString.join JsString.NL failedReads))
  else mret ().

(** [fsWatcher.close()] *)
Definition close (old : nat) : M world unit :=
  perform (WatcherClose old);;
  modify (λ w, set_watcher (fsWatcher w) (watches w) (live w ∖ {[old]}) w).

(** [new util.Debouncer(...)] and [fs.watch(savesPath, {}, ...)]; the
    watcher and its debouncer share the number of the closure. *)
Definition watch (profileId : string) (savesPath : option string) : M world unit :=
  match savesPath with
  | None => throw (TypeError "The filename argument must be of type string")
  | Some p =>
      w ← get;
      let n := length (watches w) in
      perform (Watch n p);;
      modify (λ w, set_watcher (Some n) (watches w ++ [(profileId, p)])
                     (live w ∪ {[n]}) w)
  end.

(** The second [then] of the chain. *)
Definition activated_then (profileId : string) (savesPath : option string)
    (failedReads : list string) : M world unit :=
  notify_failed failedReads;;
  w ← get;
  match fsWatcher w with
  | Some old => close old
  | None => mret ()
  end;;
  watch profileId savesPath.

(** The [then] of the function the debouncer runs. *)
Definition debounced_then (failedReadsInner : list string) : M world unit :=
  notify_failed failedReadsInner.

(** The callback given to [fs.watch]: [update.schedule(undefined)]. *)
Definition on_file_changed (d : nat) : M world unit :=
  perform (Schedule d);;
  modify (λ w, set_scheduled (scheduled w ∪ {[d]}) w).

(** The function of the debouncer. *)
Definition debounced (d : nat) : M world unit :=
  w ← get;
  match watches w !! d with
  | Some (profileId, savesPath) => updateSaves Debounced profileId (Some savesPath)
  | None => mret ()
  end.

(** ** Events *)

(** A callback of a promise chain: what it throws rejects the chain, and
    nothing catches it. *)
Definition in_chain (m : M world unit) : M world unit :=
  catch m (λ e, perform (Unhandled (Thrown e))).

(** What the environment does: the extension manager calls [init] and the
    callback of [once], the user picks the action, the application emits its
    events, a promise of parse-ini, fs or refreshSavegames settles,
    [refreshSavegames] reports a save game, a watched directory changes, the
    timer of a debouncer ends; and some other part of the application
    dispatches to the store, which leaves it in another state. *)
Inductive event : Type :=
| StoreChanged (st : State)
| CallInit
| Once
| TransferSavegames
| CleanSavegameActivity
| ProfileActivated (profileId : string)
| IniRead (t : nat) (r : string + IniFile)
| DirEnsured (t : nat) (r : string + unit)
| SaveFound (t : nat) (save : ISavegame)
| Refreshed (t : nat) (r : string + list string)
| FileChanged (w : nat)
| DebouncerFires (d : nat).

Definition reject (e : string) : M world unit := perform (Unhandled (Rejected e)).

Definition on_ini_read (t : nat) (r : string + IniFile) : M world unit :=
  w ← get;
  match tasks w !! t with
  | Some (ReadingIni profileId currentProfile) =>
      settle t;;
      match r with
      | inl e => reject e
      | inr iniFile =>
          in_chain (
            v ← updateSaveSettings_then profileId currentProfile iniFile;
            match v with
            | Now savesPathIn => activated_settings profileId savesPathIn
            | Later _ => mret ()
            end)
      end
  | _ => mret ()
  end.

Definition on_dir_ensured (t : nat) (r : string + unit) : M world unit :=
  w ← get;
  match tasks w !! t with
  | Some (EnsuringDir profileId readPath) =>
      settle t;;
      match r with
      | inl e => reject e
      | inr _ => in_chain (activated_settings profileId (Some readPath))
      end
  | _ => mret ()
  end.

Definition on_save_found (t : nat) (save : ISavegame) : M world unit :=
  w ← get;
  match tasks w !! t with
  | Some (Refreshing o profileId savesPath newSavegames) =>
      l ← onAddSave newSavegames save;
      modify (λ w, set_tasks (<[t := Refreshing o profileId savesPath l]> (tasks w))
                     (next_task w) w)
  | _ => mret ()
  end.

Definition on_refreshed (t : nat) (r : string + list string) : M world unit :=
  w ← get;
  match tasks w !! t with
  | Some (Refreshing o profileId savesPath newSavegames) =>
      settle t;;
      match r with
      | inl e => reject e
      | inr failedReads =>
          in_chain (
            failed ← updateSaves_then newSavegames failedReads;
            match o with
            | Activation => activated_then profileId savesPath failed
            | Debounced => debounced_then failed
            end)
      end
  | _ => mret ()
  end.

Definition when (b : bool) (m : M world unit) : M world unit :=
  if b then m else mret ().

Definition handle (e : event) : M world unit :=
  w ← get;
  match e with
  | StoreChanged st => modify (set_store st)
  | CallInit => _ ← init; mret ()
  | Once => when (registered w) once_cb
  | TransferSavegames => when (registered w) on_transfer
  | CleanSavegameActivity => when (listening w) on_clean_savegame_activity
  | ProfileActivated profileId => when (listening w) (on_profile_activated profileId)
  | IniRead t r => on_ini_read t r
  | DirEnsured t r => on_dir_ensured t r
  | SaveFound t save => on_save_found t save
  | Refreshed t r => on_refreshed t r
  | FileChanged d => when (bool_decide (d ∈ live w)) (on_file_changed d)
  | DebouncerFires d =>
      when (bool_decide (d ∈ scheduled w))
        (modify (λ w, set_scheduled (scheduled w ∖ {[d]}) w);; in_chain (debounced d))
  end.

(** A sequence of events; an exception of a handler ends it. *)
Fixpoint run_events (es : list event) : M world unit :=
  match es with
  | [] => mret ()
  | e :: es' => handle e;; run_events es'
  end.

End with_host.

End SaveGames.
