(* ===== verification/SaveGamesProps.v ===== *)
(** * SaveGamesProps: what the save-game extension keeps and does

    The invariant of the worlds of SaveGames.v (at most one watcher is
    open, and it is the one in [fsWatcher]), the only exception a handler
    lets escape, the run of an activation from the event to the watcher, the
    dictionary [updateSaves] dispatches, and two runs in which the extension
    works on the wrong profile. *)

From stdpp Require Import base list strings gmap.
From Stdlib Require Import ZArith Lia.
From S2P Require Import Prelude JsValue JsString SaveGames.
Import SaveGames.

#[local] Open Scope nat_scope.

(** ** Definitions *)

Section definitions.
Context `{Host}.

(** Every open watcher is the one [fsWatcher] holds; the watcher in
    [fsWatcher] and every debouncer with a running timer has its closure;
    the chains in flight have numbers that have been given out; the events
    are listened to only after [init]. *)
Record Inv (w : world) : Prop := {
  Inv_live : ∀ n, n ∈ live w → fsWatcher w = Some n;
  Inv_watcher : ∀ n, fsWatcher w = Some n → n < length (watches w);
  Inv_scheduled : ∀ d, d ∈ scheduled w → d < length (watches w);
  Inv_tasks : ∀ t, is_Some (tasks w !! t) → t < next_task w;
  Inv_listening : listening w = true → registered w = true;
}.

(** A save game the store does not know. *)
Definition unknown (st : State) (save : ISavegame) : Prop := saves st !! id save = None.

(** The value of [SLocalSavePath] that [updateSaveSettings] writes. *)
Definition local_save_path (profileId : string) (currentProfile : IProfile) : string :=
  if truthy (getSafe currentProfile "local_saves" (JBool false))
  then path_join "Saves" profileId else "Saves" +:+ sep.

(** The ini file after [updateSaveSettings]. *)
Definition with_save_path (path : string) (general : gmap string string)
    (iniFile : IniFile) : IniFile :=
  <["General" := <["SLocalSavePath" := path]> general]> iniFile.

(** The state of the store after [updateSaveSettings]. *)
Definition settings_state (st : State) (path : string) : State :=
  reducer (reducer st (setSavegamePath path)) clearSavegames.

#[global] Instance unknown_dec st save : Decision (unknown st save).
Proof. unfold unknown. apply _. Defined.

(** The world after a piece of code that touches the store, the chains and
    the trace only. *)
Definition evolve (st : State) (ts : gmap nat task) (n : nat) (es : list effect)
    (w : world) : world :=
  {| store := st; fsWatcher := fsWatcher w; watches := watches w; live := live w;
     scheduled := scheduled w; tasks := ts; next_task := n;
     registered := registered w; listening := listening w; trace := trace w ++ es |}.

(** The calls that replace the watcher of [fsWatcher]. *)
Definition rewatch (old : option nat) (n : nat) (path : string) : list effect :=
  match old with Some o => [WatcherClose o] | None => [] end ++ [Watch n path].

(** The world after the watcher has been replaced. *)
Definition watching (profileId path : string) (w : world) : world :=
  {| store := store w; fsWatcher := Some (length (watches w));
     watches := watches w ++ [(profileId, path)];
     live := match fsWatcher w with Some o => live w ∖ {[o]} | None => live w end
             ∪ {[length (watches w)]};
     scheduled := scheduled w; tasks := tasks w; next_task := next_task w;
     registered := registered w; listening := listening w;
     trace := trace w ++ rewatch (fsWatcher w) (length (watches w)) path |}.

(** The notification of reads that failed. *)
Definition failed_notice (failedReads : list string) : list effect :=
  if decide (0 < length failedReads)
  then [ShowErrorNotification "Some saves couldn't be read"
          (JsString.join JsString.NL failedReads)]
  else [].

(** The event is the settlement of the promise that chain [t] waits for. *)
Definition answers (e : event) (t : nat) (k : task) : Prop :=
  match e, k with
  | IniRead t' _, ReadingIni _ _
  | DirEnsured t' _, EnsuringDir _ _
  | Refreshed t' _, Refreshing _ _ _ _ => t' = t
  | _, _ => False
  end.

(** How far a chain is from its end: the answers it still waits for. *)
Definition rank (k : task) : nat :=
  match k with
  | ReadingIni _ _ => 3
  | EnsuringDir _ _ => 2
  | Refreshing _ _ _ _ => 1
  end.

End definitions.

(** ** A host to run the extension on *)

Record sample_state : Type := {
  profiles : gmap string IProfile;
  active : option string;
  known : gmap string ISavegame;
  savegamePath : string;
}.

(** A session reducer that replaces the dictionary of save games. *)
Definition sample_reducer (st : sample_state) (a : action) : sample_state :=
  match a with
  | setSavegamePath p =>
      {| profiles := profiles st; active := active st; known := known st;
         savegamePath := p |}
  | clearSavegames =>
      {| profiles := profiles st; active := active st; known := ∅;
         savegamePath := savegamePath st |}
  | setSavegames d =>
      {| profiles := profiles st; active := active st; known := d;
         savegamePath := savegamePath st |}
  | _ => st
  end.

Definition sample_host : Host := {|
  State := sample_state;
  reducer := sample_reducer;
  activeProfile st := active st ≫= λ p, profiles st !! p;
  activeGameId st := gameId <$> (active st ≫= λ p, profiles st !! p);
  profileById st p := profiles st !! p;
  saves := known;
  gameSupported g := bool_decide (g = Some "skyrim" ∨ g = Some "fallout4");
  iniPath g := "ini/" +:+ g;
  mygamesPath g := "mygames/" +:+ g;
  sep := "/";
  path_join a b := a +:+ "/" +:+ b;
|}.

Definition skyrim_profile : IProfile :=
  {| gameId := "skyrim"; features := Some {["local_saves" := JBool true]} |}.
Definition fallout_profile : IProfile := {| gameId := "fallout4"; features := None |}.
Definition witcher_profile : IProfile := {| gameId := "witcher3"; features := None |}.

Definition sample_store (active : option string) : sample_state :=
  {| profiles := {["p1" := skyrim_profile; "p2" := fallout_profile;
                   "p3" := witcher_profile]};
     active := active; known := ∅; savegamePath := "" |}.

(** The extension after [init] and the callback of [once]. *)
Definition sample_world (active : option string) : world (H:=sample_host) :=
  set_registered true true (init_world (H:=sample_host) (sample_store active)).

Definition sample_ini : IniFile := {["General" := {["SLanguage" := "ENGLISH"]}]}.

Definition save1 : ISavegame := {| id := "Save 1"; filePath := "Save 1.ess" |}.
Definition save2 : ISavegame := {| id := "Save 2"; filePath := "Save 2.ess" |}.

(** The profile p1 is activated, its directory changes, and before the
    debouncer runs the profile p2 is activated. *)
Definition switch_events : list (@event sample_host) :=
  [ProfileActivated "p1"; IniRead 0 (inr sample_ini); DirEnsured 1 (inr ());
   SaveFound 2 save1; Refreshed 2 (inr []); FileChanged 0;
   @StoreChanged sample_host (sample_store (Some "p2"));
   ProfileActivated "p2"; IniRead 3 (inr sample_ini); DirEnsured 4 (inr ());
   Refreshed 5 (inr [])].

Definition switched_world : world (H:=sample_host) :=
  final (run_events switch_events (sample_world (Some "p1"))).

(** ** The invariant *)

Section invariant.
Context `{Host}.

Lemma Inv_init_world st : Inv (init_world st).
Proof. split; simpl; try done; [set_solver..|]. by intros t [? ?]. Qed.

Lemma Inv_add_trace e w : Inv w → Inv (add_trace e w).
Proof. by intros []. Qed.

Lemma Inv_set_store st w : Inv w → Inv (set_store st w).
Proof. by intros []. Qed.

Lemma preserves_perform e : preserves Inv (perform e).
Proof. apply preserves_modify, Inv_add_trace. Qed.

Lemma preserves_dispatch a : preserves Inv (dispatch a).
Proof. apply preserves_modify. auto using Inv_add_trace, Inv_set_store. Qed.

Lemma preserves_getState : preserves Inv getState.
Proof. by intros w. Qed.

Lemma preserves_await k : preserves Inv (await k).
Proof.
  intros w [Hl Hw Hs Ht Hr]. run_M. split; simpl; try done.
  intros t [k' Hk]. destruct (decide (t = next_task w)) as [->|]; [lia|].
  rewrite lookup_insert_ne in Hk by done. specialize (Ht t (mk_is_Some _ _ Hk)). lia.
Qed.

Lemma preserves_settle t : preserves Inv (settle t).
Proof.
  intros w [Hl Hw Hs Ht Hr]. run_M. split; simpl; try done.
  intros t' [k Hk]. apply lookup_delete_Some in Hk as [_ Hk]. by apply Ht.
Qed.

Lemma preserves_notify_failed failedReads : preserves Inv (notify_failed failedReads).
Proof. unfold notify_failed. case_decide; [apply preserves_perform|apply preserves_ret]. Qed.

(** [preserves] by the structure of the code, with the lemmas of the calls
    into the environment at the leaves. *)
Ltac sg_preserves :=
  repeat first
    [ apply preserves_perform | apply preserves_dispatch | apply preserves_getState
    | apply preserves_await | apply preserves_settle | apply preserves_notify_failed
    | preserves_step ]; simpl.

Lemma preserves_updateSaves o profileId savesPath :
  preserves Inv (updateSaves o profileId savesPath).
Proof. unfold updateSaves. sg_preserves. Qed.

Lemma preserves_updateSaves_then newSavegames failedReads :
  preserves Inv (updateSaves_then newSavegames failedReads).
Proof. unfold updateSaves_then. sg_preserves. Qed.

Lemma preserves_updateSaveSettings profileId : preserves Inv (updateSaveSettings profileId).
Proof. unfold updateSaveSettings. sg_preserves. Qed.

Lemma preserves_updateSaveSettings_then profileId currentProfile iniFile :
  preserves Inv (updateSaveSettings_then profileId currentProfile iniFile).
Proof. unfold updateSaveSettings_then. sg_preserves. Qed.

Lemma preserves_init : preserves Inv init.
Proof. unfold init. sg_preserves. by intros w []. Qed.

Lemma preserves_on_profile_activated profileId :
  preserves Inv (on_profile_activated profileId).
Proof.
  unfold on_profile_activated. sg_preserves. apply preserves_updateSaveSettings.
Qed.

(** Closing the watcher of [fsWatcher] leaves no watcher open, so that the
    one [fs.watch] opens is the only one. *)
Lemma preserves_activated_then profileId savesPath failedReads :
  preserves Inv (activated_then profileId savesPath failedReads).
Proof.
  unfold activated_then. apply preserves_then; [apply preserves_notify_failed|].
  intros w [Hl Hw Hs Ht Hr]. unfold close, watch, perform. run_M.
  destruct (fsWatcher w) as [old|] eqn:Hold, savesPath as [p|]; simpl;
    split; simpl; rewrite ?length_app, ?Hold; simpl; try done;
    try (intros n Hn; first [specialize (Hs n Hn)|specialize (Hw n Hn)]; lia);
    try (intros n [= <-]; lia).
  - intros n [[Hn Hne]%elem_of_difference| ->%elem_of_singleton]%elem_of_union; [|done].
    apply Hl in Hn. set_solver.
  - intros n [Hn Hne]%elem_of_difference. by apply Hl.
  - intros n [Hn%Hl| ->%elem_of_singleton]%elem_of_union; done.
Qed.

Lemma preserves_in_chain m : preserves Inv m → preserves Inv (in_chain m).
Proof. intros Hm. apply preserves_catch; [done|]. intros e. apply preserves_perform. Qed.

Lemma preserves_on_ini_read t r : preserves Inv (on_ini_read t r).
Proof.
  unfold on_ini_read, reject, activated_settings. sg_preserves.
  apply preserves_in_chain. sg_preserves;
    [apply preserves_updateSaveSettings_then|apply preserves_updateSaves].
Qed.

Lemma preserves_on_dir_ensured t r : preserves Inv (on_dir_ensured t r).
Proof.
  unfold on_dir_ensured, reject, activated_settings. sg_preserves.
  apply preserves_in_chain, preserves_updateSaves.
Qed.

Lemma preserves_on_refreshed t r : preserves Inv (on_refreshed t r).
Proof.
  unfold on_refreshed, reject, debounced_then. sg_preserves.
  apply preserves_in_chain. sg_preserves. apply preserves_activated_then.
Qed.

(** [refreshSavegames] reports a save game: the chain stays where it is. *)
Lemma on_save_found_Inv t save w : Inv w → Inv (final (on_save_found t save w)).
Proof.
  intros [Hl Hw Hs Ht Hr]. unfold on_save_found, onAddSave. run_M.
  destruct (tasks w !! t) as [[| |o p sp l]|] eqn:Hk; try done.
  case_decide; simpl; (split; simpl; try done; intros t' [k' Hk'];
    destruct (decide (t' = t)) as [->|]; [by apply Ht|];
    rewrite lookup_insert_ne in Hk' by done; by apply Ht).
Qed.

Lemma preserves_debounced d : preserves Inv (debounced d).
Proof.
  unfold debounced. apply preserves_get_bind. intros w _.
  destruct (watches w !! d) as [[p sp]|]; [apply preserves_updateSaves|apply preserves_ret].
Qed.

Lemma handle_keeps_Inv e w : Inv w → Inv (final (handle e w)).
Proof.
  intros Hw. unfold handle. change ((get ≫= ?f) w) with (f w w).
  destruct e; unfold when; cbv beta iota.
  - by apply Inv_set_store.
  - apply (preserves_bind Inv init); [apply preserves_init| |done].
    intros _. apply preserves_ret.
  - destruct (registered w) eqn:Hr; [|done]. destruct Hw. by split.
  - destruct (registered w); [by apply preserves_dispatch|done].
  - destruct (listening w); [by apply preserves_dispatch|done].
  - destruct (listening w); [by apply preserves_on_profile_activated|done].
  - by apply preserves_on_ini_read.
  - by apply preserves_on_dir_ensured.
  - by apply on_save_found_Inv.
  - by apply preserves_on_refreshed.
  - case_bool_decide as Hd; [|done]. destruct Hw as [Hl Hw Hs Ht Hr].
    split; simpl; try done.
    intros d [?%Hs| ->%elem_of_singleton]%elem_of_union; [done|]. by apply Hw, Hl.
  - case_bool_decide as Hd; [|done].
    apply preserves_then; [|apply preserves_in_chain, preserves_debounced|done].
    apply preserves_modify. intros w' [Hl' Hw' Hs' Ht' Hr']. split; simpl; try done.
    intros d' [? _]%elem_of_difference. by apply Hs'.
Qed.

(** A sequence of events ends with every handler returning, or at the
    first handler that throws. *)
Lemma run_events_keep_Inv es w : Inv w → Inv (final (run_events es w)).
Proof.
  revert w. induction es as [|e es IH]; intros w Hw; [done|].
  pose proof (handle_keeps_Inv e w Hw) as He. simpl. run_M.
  destruct (handle e w) as [[] w'|err w']; [by apply IH|done].
Qed.

End invariant.

(** ** The exceptions of the handlers *)

Section errors.
Context `{Host}.

Lemma total_perform e : total (perform e).
Proof. apply total_modify. Qed.

Lemma total_dispatch a : total (dispatch a).
Proof. apply total_modify. Qed.

Lemma total_getState : total getState.
Proof. by intros w. Qed.

Lemma total_await k : total (await k).
Proof. by intros w. Qed.

Lemma total_settle t : total (settle t).
Proof. apply total_modify. Qed.

(** Nothing escapes a promise chain: what a callback throws rejects the
    chain. *)
Lemma total_in_chain m : total (in_chain m).
Proof. apply total_catch. intros e. apply total_perform. Qed.

Ltac sg_total :=
  repeat first
    [ apply total_perform | apply total_dispatch | apply total_getState
    | apply total_await | apply total_settle | apply total_in_chain
    | total_step ]; simpl.

Lemma total_on_ini_read t r : total (on_ini_read t r).
Proof. unfold on_ini_read, reject. sg_total. Qed.

Lemma total_on_dir_ensured t r : total (on_dir_ensured t r).
Proof. unfold on_dir_ensured, reject. sg_total. Qed.

Lemma total_on_save_found t save : total (on_save_found t save).
Proof. unfold on_save_found, onAddSave. sg_total. Qed.

Lemma total_on_refreshed t r : total (on_refreshed t r).
Proof. unfold on_refreshed, reject. sg_total. Qed.

Lemma total_init : total init.
Proof. unfold init. sg_total. Qed.

Lemma total_when b m : total m → total (when b m).
Proof. intros Hm. destruct b; [done|apply total_ret]. Qed.

(** The handler of [profile-activated] throws when there is no active
    profile, and only then. *)
Lemma on_profile_activated_Throw profileId w err w' :
  on_profile_activated profileId w = Throw err w' ↔
  ∃ profile, profileById (store w) profileId = Some profile ∧
    gameSupported (Some (gameId profile)) = true ∧ activeProfile (store w) = None ∧
    err = TypeError "Cannot read property 'gameId' of undefined" ∧ w' = w.
Proof.
  unfold on_profile_activated, updateSaveSettings, perform. run_M.
  destruct (profileById (store w) profileId) as [profile|].
  2: { split; [done|]. by intros (? & ? & ?). }
  destruct (gameSupported (Some (gameId profile))) eqn:Hs; simpl.
  2: { split; [done|]. intros (? & [= <-] & ? & ?). congruence. }
  destruct (activeProfile (store w)) eqn:Ha; simpl.
  - split; [done|]. by intros (? & ? & ? & ? & ?).
  - split; [intros [= <- <-]; by exists profile|]. by intros (? & ? & ? & ? & -> & ->).
Qed.

(** C23. No handler lets an exception escape, with one exception: the
    handler of [profile-activated] throws a TypeError, before it has done
    anything, when the profile is known and its game supported but the
    store has no active profile.  What a callback of a promise chain throws
    rejects the chain. *)
Theorem handle_throws e w err w' :
  handle e w = Throw err w' ↔
  ∃ profileId profile,
    e = ProfileActivated profileId ∧ listening w = true ∧
    profileById (store w) profileId = Some profile ∧
    gameSupported (Some (gameId profile)) = true ∧ activeProfile (store w) = None ∧
    err = TypeError "Cannot read property 'gameId' of undefined" ∧ w' = w.
Proof.
  assert (∀ m : M world (), total m → m w = Throw err w' → False) as Hno.
  { intros m Hm Hthrow. specialize (Hm w). by rewrite Hthrow in Hm. }
  unfold handle. change ((get ≫= ?f) w) with (f w w). split.
  - destruct e; cbv beta iota; try (intros []%Hno; unfold on_transfer,
      on_clean_savegame_activity, once_cb, on_file_changed;
      first [apply total_when|idtac]; by sg_total).
    + unfold when. destruct (listening w); [|done].
      intros (profile & ?)%on_profile_activated_Throw. by exists profileId, profile.
    + intros []%Hno. apply total_on_ini_read.
    + intros []%Hno. apply total_on_dir_ensured.
    + intros []%Hno. apply total_on_save_found.
    + intros []%Hno. apply total_on_refreshed.
  - intros (profileId & profile & -> & -> & ?). simpl.
    apply on_profile_activated_Throw. by exists profile.
Qed.

End errors.

(** ** The pieces of code, run *)

Section runs.
Context `{Host}.

(** The setters on a world that is a variable, and on a world that is
    given by its fields: worlds are normalised from the inside, one setter
    at a time. *)
Lemma add_trace_var e w :
  add_trace e w
  = Build_world (store w) (fsWatcher w) (watches w) (live w) (scheduled w) (tasks w)
      (next_task w) (registered w) (listening w) (trace w ++ [e]).
Proof. done. Qed.
Lemma set_store_var st w :
  set_store st w
  = Build_world st (fsWatcher w) (watches w) (live w) (scheduled w) (tasks w)
      (next_task w) (registered w) (listening w) (trace w).
Proof. done. Qed.
Lemma set_tasks_var ts n w :
  set_tasks ts n w
  = Build_world (store w) (fsWatcher w) (watches w) (live w) (scheduled w) ts n
      (registered w) (listening w) (trace w).
Proof. done. Qed.
Lemma set_scheduled_var sc w :
  set_scheduled sc w
  = Build_world (store w) (fsWatcher w) (watches w) (live w) sc (tasks w)
      (next_task w) (registered w) (listening w) (trace w).
Proof. done. Qed.
Lemma add_trace_Build e st fw ws lv sc ts n r l tr :
  add_trace e (Build_world st fw ws lv sc ts n r l tr)
  = Build_world st fw ws lv sc ts n r l (tr ++ [e]).
Proof. done. Qed.
Lemma set_store_Build st' st fw ws lv sc ts n r l tr :
  set_store st' (Build_world st fw ws lv sc ts n r l tr)
  = Build_world st' fw ws lv sc ts n r l tr.
Proof. done. Qed.
Lemma set_tasks_Build ts' n' st fw ws lv sc ts n r l tr :
  set_tasks ts' n' (Build_world st fw ws lv sc ts n r l tr)
  = Build_world st fw ws lv sc ts' n' r l tr.
Proof. done. Qed.
Lemma set_watcher_Build fw' ws' lv' st fw ws lv sc ts n r l tr :
  set_watcher fw' ws' lv' (Build_world st fw ws lv sc ts n r l tr)
  = Build_world st fw' ws' lv' sc ts n r l tr.
Proof. done. Qed.
Lemma set_scheduled_Build sc' st fw ws lv sc ts n r l tr :
  set_scheduled sc' (Build_world st fw ws lv sc ts n r l tr)
  = Build_world st fw ws lv sc' ts n r l tr.
Proof. done. Qed.

Ltac world_norm w :=
  rewrite ?(add_trace_var _ w), ?(set_store_var _ w), ?(set_tasks_var _ _ w),
    ?(set_scheduled_var _ w);
  repeat first
    [ rewrite add_trace_Build | rewrite set_store_Build | rewrite set_tasks_Build
    | rewrite set_watcher_Build | rewrite set_scheduled_Build ].

(** Equality of the world a handler leaves with the world of the
    statement, field by field. *)
Ltac world_eq w :=
  world_norm w;
  unfold evolve, settings_state, with_save_path, local_save_path, failed_notice;
  unfold watching, rewatch;
  cbn [store fsWatcher watches live scheduled tasks next_task registered listening trace];
  f_equal; rewrite <-?(assoc_L (++)), ?app_nil_r; try done.

Lemma run_events_cons e es w w1 :
  handle e w = Ret () w1 → run_events (e :: es) w = run_events es w1.
Proof. intros He. simpl. unfold mbind, M_bind. by rewrite He. Qed.

Lemma run_events_app es es' w w1 :
  run_events es w = Ret () w1 → run_events (es ++ es') w = run_events es' w1.
Proof.
  revert w. induction es as [|e es IH]; intros w; simpl; [by intros [= ->]|].
  unfold mbind, M_bind. destruct (handle e w) as [[] w2|]; [apply IH|done].
Qed.

Lemma savesDict_snoc l s : savesDict (l ++ [s]) = <[id s := s]> (savesDict l).
Proof. unfold savesDict. by rewrite foldl_app. Qed.

Lemma handle_profile_activated profileId profile currentProfile w :
  listening w = true →
  profileById (store w) profileId = Some profile →
  gameSupported (Some (gameId profile)) = true →
  activeProfile (store w) = Some currentProfile →
  handle (ProfileActivated profileId) w
  = Ret () (evolve (store w) (<[next_task w := ReadingIni profileId currentProfile]> (tasks w))
              (S (next_task w))
              [ParserRead (next_task w) (iniPath (gameId currentProfile))] w).
Proof.
  intros Hl Hp Hs Ha. unfold handle, when, on_profile_activated, updateSaveSettings,
    await, perform. run_M. rewrite Hl. simpl. rewrite Hp, Hs. simpl. rewrite Ha. simpl.
  f_equal.
Qed.

(** Unfold a handler and run it on the world. *)
Ltac sg_run :=
  unfold handle, when, on_ini_read, on_dir_ensured, on_save_found, on_refreshed,
    on_file_changed, in_chain, reject, settle, await, perform, dispatch, getState,
    updateSaveSettings_then, activated_settings, updateSaves, updateSaves_then,
    onAddSave, activated_then, debounced_then, debounced, notify_failed, close, watch;
  run_M.

Section ini.
Context (t : nat) (profileId : string) (currentProfile : IProfile) (iniFile : IniFile)
  (w : world).
Context (Htask : tasks w !! t = Some (ReadingIni profileId currentProfile)).

Let path := local_save_path profileId currentProfile.
Let readPath := mygamesPath (gameId currentProfile) +:+ sep +:+ path.

Lemma handle_ini_read general :
  iniFile !! "General" = Some general →
  gameSupported (Some (gameId currentProfile)) = true →
  handle (IniRead t (inr iniFile)) w
  = Ret () (evolve (settings_state (store w) path)
              (<[next_task w := EnsuringDir profileId readPath]> (delete t (tasks w)))
              (S (next_task w))
              [ParserWrite (iniPath (gameId currentProfile))
                 (with_save_path path general iniFile);
               Dispatch (setSavegamePath path); Dispatch clearSavegames;
               EnsureDir (next_task w) readPath] w).
Proof.
  intros Hg Hs. sg_run. rewrite Htask. simpl. rewrite Hg. simpl. rewrite Hs. simpl.
  f_equal. world_eq w.
Qed.

(** The ini file has been written and the store changed before the game of
    the active profile is found not to be supported; the chain goes on to
    read the save games of no path. *)
Lemma handle_ini_read_unsupported general :
  iniFile !! "General" = Some general →
  gameSupported (Some (gameId currentProfile)) = false →
  handle (IniRead t (inr iniFile)) w
  = Ret () (evolve (settings_state (store w) path)
              (<[next_task w := Refreshing Activation profileId None []]>
                 (delete t (tasks w)))
              (S (next_task w))
              [ParserWrite (iniPath (gameId currentProfile))
                 (with_save_path path general iniFile);
               Dispatch (setSavegamePath path); Dispatch clearSavegames;
               RefreshSavegames (next_task w) None] w).
Proof.
  intros Hg Hs. sg_run. rewrite Htask. simpl. rewrite Hg. simpl. rewrite Hs. simpl.
  f_equal. world_eq w.
Qed.

(** An ini file without the section General ends the chain with a
    TypeError: nothing is written and nothing dispatched. *)
Lemma handle_ini_read_no_General :
  iniFile !! "General" = None →
  handle (IniRead t (inr iniFile)) w
  = Ret () (evolve (store w) (delete t (tasks w)) (next_task w)
              [Unhandled (Thrown
                 (TypeError "Cannot set property 'SLocalSavePath' of undefined"))] w).
Proof. intros Hg. sg_run. rewrite Htask. simpl. rewrite Hg. simpl. f_equal. Qed.

Lemma handle_ini_read_rejected e :
  handle (IniRead t (inl e)) w
  = Ret () (evolve (store w) (delete t (tasks w)) (next_task w)
              [Unhandled (Rejected e)] w).
Proof. sg_run. rewrite Htask. simpl. f_equal. Qed.

End ini.

Lemma handle_dir_ensured t profileId readPath w :
  tasks w !! t = Some (EnsuringDir profileId readPath) →
  handle (DirEnsured t (inr ())) w
  = Ret () (evolve (store w)
              (<[next_task w := Refreshing Activation profileId (Some readPath) []]>
                 (delete t (tasks w)))
              (S (next_task w)) [RefreshSavegames (next_task w) (Some readPath)] w).
Proof. intros Htask. sg_run. rewrite Htask. simpl. f_equal. Qed.

Lemma handle_save_found t o profileId savesPath l save w :
  tasks w !! t = Some (Refreshing o profileId savesPath l) →
  handle (SaveFound t save) w
  = Ret () (evolve (store w)
              (<[t := Refreshing o profileId savesPath (l ++ filter (unknown (store w)) [save])]>
                 (tasks w))
              (next_task w) [] w).
Proof.
  intros Htask. sg_run. rewrite Htask. simpl. rewrite filter_cons, filter_nil.
  unfold unknown, unknown_dec. destruct (decide _); simpl; f_equal; world_eq w.
Qed.

Lemma handle_refreshed_activation t profileId path l failedReads w :
  tasks w !! t = Some (Refreshing Activation profileId (Some path) l) →
  handle (Refreshed t (inr failedReads)) w
  = Ret () (watching profileId path
              (evolve (reducer (store w) (setSavegames (savesDict l)))
                 (delete t (tasks w)) (next_task w)
                 (Dispatch (setSavegames (savesDict l)) :: failed_notice failedReads) w)).
Proof.
  intros Htask. sg_run. rewrite Htask. simpl. unfold failed_notice.
  case_decide; simpl; destruct (fsWatcher w) eqn:Hfw; simpl; f_equal; world_eq w;
    by rewrite Hfw.
Qed.

Lemma handle_refreshed_debounced t profileId savesPath l failedReads w :
  tasks w !! t = Some (Refreshing Debounced profileId savesPath l) →
  handle (Refreshed t (inr failedReads)) w
  = Ret () (evolve (reducer (store w) (setSavegames (savesDict l)))
              (delete t (tasks w)) (next_task w)
              (Dispatch (setSavegames (savesDict l)) :: failed_notice failedReads) w).
Proof.
  intros Htask. sg_run. rewrite Htask. simpl. unfold failed_notice.
  case_decide; simpl; f_equal; world_eq w.
Qed.

Lemma handle_file_changed d w :
  d ∈ live w →
  handle (FileChanged d) w
  = Ret () (set_scheduled (scheduled w ∪ {[d]}) (add_trace (Schedule d) w)).
Proof. intros Hd. sg_run. by rewrite bool_decide_eq_true_2. Qed.

(** The timer of a debouncer ends: the function it was given runs with
    the profile and the path of its closure, whatever [fsWatcher] holds. *)
Lemma handle_debouncer_fires d profileId path w :
  d ∈ scheduled w → watches w !! d = Some (profileId, path) →
  handle (DebouncerFires d) w
  = Ret () (evolve (store w)
              (<[next_task w := Refreshing Debounced profileId (Some path) []]> (tasks w))
              (S (next_task w)) [RefreshSavegames (next_task w) (Some path)]
              (set_scheduled (scheduled w ∖ {[d]}) w)).
Proof.
  intros Hd Hw. sg_run. rewrite bool_decide_eq_true_2 by done. simpl. rewrite Hw. simpl.
  f_equal.
Qed.

Lemma evolve_evolve st ts n es st' ts' n' es' w :
  evolve st' ts' n' es' (evolve st ts n es w) = evolve st' ts' n' (es ++ es') w.
Proof. unfold evolve. simpl. f_equal. by rewrite (assoc_L (++)). Qed.

Lemma evolve_id w : evolve (store w) (tasks w) (next_task w) [] w = w.
Proof. destruct w. unfold evolve. simpl. by rewrite app_nil_r. Qed.

(** The save games [refreshSavegames] reports while nothing else happens:
    those the store does not know are collected, in their order. *)
Lemma run_save_found t o profileId savesPath found l w :
  tasks w !! t = Some (Refreshing o profileId savesPath l) →
  run_events (SaveFound t <$> found) w
  = Ret () (evolve (store w)
              (<[t := Refreshing o profileId savesPath
                        (l ++ filter (unknown (store w)) found)]> (tasks w))
              (next_task w) [] w).
Proof.
  revert l w. induction found as [|s found IH]; intros l w Htask.
  - simpl. rewrite filter_nil, app_nil_r, insert_id by done. by rewrite evolve_id.
  - rewrite fmap_cons, (run_events_cons _ _ _ _ (handle_save_found _ _ _ _ _ _ _ Htask)).
    erewrite IH by apply lookup_insert_eq.
    rewrite evolve_evolve. cbn [store tasks next_task evolve].
    rewrite insert_insert_eq. change (s :: found) with ([s] ++ found).
    by rewrite filter_app, (assoc_L (++)).
Qed.

(** The chain of an activation that reads the save games of no path ends
    at [fs.watch]: the watcher of the last activation has been closed and
    none is opened. *)
Lemma handle_refreshed_no_path t profileId l failedReads w :
  tasks w !! t = Some (Refreshing Activation profileId None l) →
  handle (Refreshed t (inr failedReads)) w
  = Ret () (add_trace
              (Unhandled (Thrown (TypeError "The filename argument must be of type string")))
              (set_watcher (fsWatcher w) (watches w)
                 (match fsWatcher w with Some o => live w ∖ {[o]} | None => live w end)
                 (evolve (reducer (store w) (setSavegames (savesDict l)))
                    (delete t (tasks w)) (next_task w)
                    (Dispatch (setSavegames (savesDict l)) :: failed_notice failedReads
                     ++ match fsWatcher w with Some o => [WatcherClose o] | None => [] end)
                    w))).
Proof.
  intros Htask. sg_run. rewrite Htask. simpl. unfold failed_notice.
  case_decide; simpl; destruct (fsWatcher w) eqn:Hfw; simpl; f_equal; world_norm w;
    unfold evolve; rewrite set_watcher_Build, add_trace_Build;
    f_equal; rewrite <-?(assoc_L (++)), ?app_nil_r; done.
Qed.

Lemma handle_dir_ensured_rejected t profileId readPath e w :
  tasks w !! t = Some (EnsuringDir profileId readPath) →
  handle (DirEnsured t (inl e)) w
  = Ret () (evolve (store w) (delete t (tasks w)) (next_task w)
              [Unhandled (Rejected e)] w).
Proof. intros Htask. sg_run. rewrite Htask. simpl. f_equal. Qed.

Lemma handle_refreshed_rejected t o profileId savesPath l e w :
  tasks w !! t = Some (Refreshing o profileId savesPath l) →
  handle (Refreshed t (inl e)) w
  = Ret () (evolve (store w) (delete t (tasks w)) (next_task w)
              [Unhandled (Rejected e)] w).
Proof. intros Htask. sg_run. rewrite Htask. simpl. f_equal. Qed.

(** Every answer of the environment ends the chain it answers or moves it
    one piece of code on: a chain ends after at most three answers. *)
Lemma answer_rank e t k w :
  answers e t k → tasks w !! t = Some k →
  tasks (final (handle e w)) = delete t (tasks w) ∨
  ∃ k', tasks (final (handle e w)) = <[next_task w := k']> (delete t (tasks w))
        ∧ rank k' < rank k.
Proof.
  intros He Htask. destruct e as [| | | | | |t' r|t' r| |t' r| |], k as [p cp|p rp|o p sp l];
    try done; simpl in He; subst t'.
  - destruct r as [e|ini]; [rewrite (handle_ini_read_rejected _ _ _ _ Htask); by left|].
    destruct (ini !! "General") as [g|] eqn:Hg.
    2: { rewrite (handle_ini_read_no_General _ _ _ _ _ Htask Hg). by left. }
    destruct (gameSupported (Some (gameId cp))) eqn:Hs; right.
    + rewrite (handle_ini_read _ _ _ _ _ Htask _ Hg Hs). eexists. split; [done|simpl; lia].
    + rewrite (handle_ini_read_unsupported _ _ _ _ _ Htask _ Hg Hs).
      eexists. split; [done|simpl; lia].
  - destruct r as [e|[]]; [rewrite (handle_dir_ensured_rejected _ _ _ _ _ Htask); by left|].
    rewrite (handle_dir_ensured _ _ _ _ Htask). right. eexists. split; [done|simpl; lia].
  - left. destruct r as [e|failed]; [by rewrite (handle_refreshed_rejected _ _ _ _ _ _ _ Htask)|].
    destruct o; [destruct sp|].
    + by rewrite (handle_refreshed_activation _ _ _ _ _ _ Htask).
    + by rewrite (handle_refreshed_no_path _ _ _ _ _ Htask).
    + by rewrite (handle_refreshed_debounced _ _ _ _ _ _ Htask).
Qed.

End runs.

(** ** Theorems *)

Section theorems.
Context `{Host}.

(** One event of a sequence, run by the lemma of its handler. *)
Ltac step_by lem :=
  erewrite run_events_cons
    by (eapply lem; try done; cbn [tasks evolve]; by simplify_map_eq).

Lemma fresh_task w k : Inv w → tasks w !! (next_task w + k) = None.
Proof.
  intros [_ _ _ Ht _]. destruct (tasks w !! (next_task w + k)) eqn:Hk; [|done].
  specialize (Ht _ (mk_is_Some _ _ Hk)). lia.
Qed.

Lemma live_after_rewatch w n :
  Inv w →
  match fsWatcher w with Some o => live w ∖ {[o]} | None => live w end ∪ {[n]}
  = ({[n]} : gset nat).
Proof.
  intros [Hl _ _ _ _]. destruct (fsWatcher w) as [o|] eqn:Hfw; apply set_eq; intros x;
    rewrite elem_of_union, ?elem_of_difference, !elem_of_singleton;
    split; [|by right| |by right]; intros [Hx| ->]; try done.
  - destruct Hx as [Hx Hne]. apply Hl in Hx. congruence.
  - by apply Hl in Hx.
Qed.

(** C21. An activation runs to its end when the environment answers every
    call: the ini file is written with the save path of the profile, the
    store is told the path and cleared, the directory is made, the save
    games found that the store does not know are dispatched as one
    dictionary, a notification tells of the reads that failed, the watcher
    of the last activation is closed and one on the new directory is the
    only one open; no chain is left in flight. *)
Theorem activation_completes profileId profile currentProfile iniFile general found
    failedReads w :
  Inv w → listening w = true →
  profileById (store w) profileId = Some profile →
  gameSupported (Some (gameId profile)) = true →
  activeProfile (store w) = Some currentProfile →
  gameSupported (Some (gameId currentProfile)) = true →
  iniFile !! "General" = Some general →
  let t := next_task w in
  let path := local_save_path profileId currentProfile in
  let readPath := mygamesPath (gameId currentProfile) +:+ sep +:+ path in
  let st := settings_state (store w) path in
  let dict := savesDict (filter (unknown st) found) in
  ∃ w',
    run_events ([ProfileActivated profileId; IniRead t (inr iniFile);
                 DirEnsured (S t) (inr ())]
                ++ (SaveFound (S (S t)) <$> found)
                ++ [Refreshed (S (S t)) (inr failedReads)]) w = Ret () w' ∧
    store w' = reducer st (setSavegames dict) ∧
    fsWatcher w' = Some (length (watches w)) ∧
    watches w' = watches w ++ [(profileId, readPath)] ∧
    live w' = {[length (watches w)]} ∧
    tasks w' = tasks w ∧
    trace w' = trace w ++
      [ParserRead t (iniPath (gameId currentProfile));
       ParserWrite (iniPath (gameId currentProfile)) (with_save_path path general iniFile);
       Dispatch (setSavegamePath path); Dispatch clearSavegames;
       EnsureDir (S t) readPath; RefreshSavegames (S (S t)) (Some readPath);
       Dispatch (setSavegames dict)]
      ++ failed_notice failedReads
      ++ rewatch (fsWatcher w) (length (watches w)) readPath.
Proof.
  intros HI Hl Hp Hs Ha Hsc Hg t path readPath st dict.
  pose proof (fresh_task w 0 HI) as Ht0. pose proof (fresh_task w 1 HI) as Ht1.
  pose proof (fresh_task w 2 HI) as Ht2. rewrite Nat.add_0_r in Ht0.
  replace (next_task w + 1) with (S t) in Ht1 by (unfold t; lia).
  replace (next_task w + 2) with (S (S t)) in Ht2 by (unfold t; lia).
  eexists. split.
  { cbn [app]. step_by handle_profile_activated. step_by handle_ini_read.
    step_by handle_dir_ensured. cbn [next_task evolve].
    erewrite run_events_app
      by (eapply run_save_found; cbn [tasks evolve]; by simplify_map_eq).
    step_by handle_refreshed_activation. reflexivity. }
  rewrite !evolve_evolve. cbn [store fsWatcher watches live tasks trace watching evolve].
  rewrite insert_insert_eq, (delete_insert_id (tasks w) t) by done.
  rewrite (delete_insert_id (tasks w) (S t)), (delete_insert_id (tasks w) (S (S t))) by done.
  split_and!; try done; [by apply live_after_rewatch|].
  rewrite <-!(assoc_L (++)). done.
Qed.

(** C22. In every world the extension can reach, at most one watcher is
    open, and it is the one [fsWatcher] holds: an activation closes the
    watcher of the one before it, also when the chains of two activations
    interleave. *)
Theorem reachable_one_watcher st es :
  let w := final (run_events es (init_world st)) in
  Inv w ∧ ∀ n m, n ∈ live w → m ∈ live w → n = m.
Proof.
  intros w. assert (Inv w) as HI by apply run_events_keep_Inv, Inv_init_world.
  split; [done|]. intros n m Hn%(Inv_live _ HI) Hm%(Inv_live _ HI). congruence.
Qed.

(** C26. The dictionary [updateSaves] dispatches holds, for every id, the
    last of the new save games with that id. *)
Theorem savesDict_last l i : savesDict l !! i = last (filter (λ s, id s = i) l).
Proof.
  induction l as [|s l IH] using rev_ind; [done|].
  rewrite savesDict_snoc, filter_app, filter_cons, filter_nil.
  case_decide as Hi.
  - subst i. by rewrite lookup_insert_eq, last_snoc.
  - by rewrite lookup_insert_ne, app_nil_r.
Qed.

(** C24. The timer of a debouncer is not stopped when its watcher is closed:
    when it ends, the save games of the path of its closure are read and
    dispatched to the store, whatever profile has been activated since and
    whatever watcher is open. *)
Theorem stale_refresh d profileId path save failedReads w :
  Inv w → d ∈ scheduled w → watches w !! d = Some (profileId, path) →
  unknown (store w) save →
  let t := next_task w in
  ∃ w',
    run_events [DebouncerFires d; SaveFound t save; Refreshed t (inr failedReads)] w
      = Ret () w' ∧
    store w' = reducer (store w) (setSavegames {[id save := save]}) ∧
    fsWatcher w' = fsWatcher w ∧ live w' = live w ∧
    trace w' = trace w ++
      [RefreshSavegames t (Some path); Dispatch (setSavegames {[id save := save]})]
      ++ failed_notice failedReads.
Proof.
  intros HI Hd Hw Hs t. pose proof (fresh_task w 0 HI) as Ht0.
  rewrite Nat.add_0_r in Ht0. eexists. split.
  { step_by handle_debouncer_fires. step_by handle_save_found.
    step_by handle_refreshed_debounced. reflexivity. }
  rewrite !evolve_evolve. cbn [store fsWatcher live trace evolve set_scheduled].
  rewrite filter_cons, filter_nil, decide_True by done.
  by split_and!.
Qed.

(** C25. The handler of [profile-activated] tests the game of the profile
    that was activated, but [updateSaveSettings] works on the active profile
    of the store.  When that is a profile of a game that is not supported,
    its ini file is rewritten and the store changed before the test of
    [updateSaveSettings] is reached, and the chain goes on to read the save
    games of no path. *)
Theorem activation_uses_active_profile profileId profile currentProfile iniFile general w :
  Inv w → listening w = true →
  profileById (store w) profileId = Some profile →
  gameSupported (Some (gameId profile)) = true →
  activeProfile (store w) = Some currentProfile →
  gameSupported (Some (gameId currentProfile)) = false →
  iniFile !! "General" = Some general →
  let t := next_task w in
  let path := local_save_path profileId currentProfile in
  ∃ w',
    run_events [ProfileActivated profileId; IniRead t (inr iniFile)] w = Ret () w' ∧
    tasks w' = <[S t := Refreshing Activation profileId None []]> (tasks w) ∧
    trace w' = trace w ++
      [ParserRead t (iniPath (gameId currentProfile));
       ParserWrite (iniPath (gameId currentProfile)) (with_save_path path general iniFile);
       Dispatch (setSavegamePath path); Dispatch clearSavegames;
       RefreshSavegames (S t) None].
Proof.
  intros HI Hl Hp Hs Ha Hsc Hg t path. pose proof (fresh_task w 0 HI) as Ht0.
  rewrite Nat.add_0_r in Ht0. eexists. split.
  { step_by handle_profile_activated. step_by handle_ini_read_unsupported. reflexivity. }
  rewrite !evolve_evolve. cbn [tasks trace next_task evolve].
  by rewrite (delete_insert_id (tasks w) t).
Qed.

End theorems.

(** ** The theorems on the sample host *)

Lemma Inv_sample active : Inv (sample_world active).
Proof. split; simpl; try done; [set_solver..|]. by intros t [? ?]. Qed.

Lemma activation_completes_witness :
  ∃ w',
    run_events [ProfileActivated "p1"; IniRead 0 (inr sample_ini); DirEnsured 1 (inr ());
                SaveFound 2 save1; SaveFound 2 save2; SaveFound 2 save1;
                Refreshed 2 (inr ["Save 3.ess"])] (sample_world (Some "p1")) = Ret () w' ∧
    known (store w') = {["Save 1" := save1; "Save 2" := save2]} ∧
    fsWatcher w' = Some 0 ∧ live w' = {[0]} ∧
    watches w' = [("p1", "mygames/skyrim/Saves/p1")].
Proof.
  destruct (activation_completes (H:=sample_host) "p1" skyrim_profile skyrim_profile
              sample_ini {["SLanguage" := "ENGLISH"]} [save1; save2; save1]
              ["Save 3.ess"] (sample_world (Some "p1")))
    as (w' & Hrun & Hst & Hfw & Hws & Hlv & _); [apply Inv_sample|done..|].
  exists w'. split; [exact Hrun|]. rewrite Hst, Hfw, Hws, Hlv.
  split_and!; vm_compute; reflexivity.
Defined.

Lemma stale_refresh_witness :
  ∃ w',
    run_events [DebouncerFires 0; SaveFound 6 save2; Refreshed 6 (inr [])] switched_world
      = Ret () w' ∧
    known (store w') = {["Save 2" := save2]} ∧
    activeProfile (store w') = Some fallout_profile ∧
    fsWatcher w' = Some 1 ∧ live w' = {[1]}.
Proof.
  destruct (stale_refresh (H:=sample_host) 0 "p1" "mygames/skyrim/Saves/p1" save2 []
              switched_world)
    as (w' & Hrun & Hst & Hfw & Hlv & _);
    [apply run_events_keep_Inv, Inv_sample|by vm_compute..|].
  exists w'. split; [exact Hrun|]. rewrite Hst, Hfw, Hlv.
  split_and!; vm_compute; reflexivity.
Defined.

Lemma activation_uses_active_profile_witness :
  ∃ w',
    run_events [ProfileActivated "p1"; IniRead 0 (inr sample_ini)]
      (sample_world (Some "p3")) = Ret () w' ∧
    trace w' =
      [ParserRead 0 "ini/witcher3";
       ParserWrite "ini/witcher3"
         {["General" := {["SLanguage" := "ENGLISH"; "SLocalSavePath" := "Saves/"]}]};
       Dispatch (setSavegamePath "Saves/"); Dispatch clearSavegames;
       RefreshSavegames 1 None].
Proof.
  destruct (activation_uses_active_profile (H:=sample_host) "p1" skyrim_profile
              witcher_profile sample_ini {["SLanguage" := "ENGLISH"]}
              (sample_world (Some "p3")))
    as (w' & Hrun & _ & Htr); [apply Inv_sample|done..|].
  exists w'. split; [exact Hrun|]. rewrite Htr. vm_compute. reflexivity.
Defined.

(** Without an active profile the handler of [profile-activated] throws;
    an ini file without the section General ends the chain instead. *)
Example handlers_on_sample :
  handle (ProfileActivated "p1") (sample_world None)
    = Throw (TypeError "Cannot read property 'gameId' of undefined") (sample_world None)
  ∧ trace (final (run_events [ProfileActivated "p1"; IniRead 0 (inr ∅)]
                    (sample_world (Some "p1"))))
    = [ParserRead 0 "ini/skyrim";
       Unhandled (Thrown (TypeError "Cannot set property 'SLocalSavePath' of undefined"))].
Proof. split; vm_compute; reflexivity. Qed.
